(** * Serializable and UiUtils.deepCopy: a shallow embedding

    The development embeds the two reference-tracking graph walkers of the
    repository, [Serializable.serialize] / [Serializable.deserialize]
    (serializable source) and [UiUtils.deepCopy] (src/deep_copy.ts), over an
    explicit model of the JavaScript object heap, and states the properties
    of the specification about them.

    Fragment of JavaScript that is modelled:
    - values are [undefined], [null], booleans, integer numbers, strings and
      references to heap objects (no functions, symbols, NaN or fractions);
      a number of a heap is an integer that a double holds exactly, and a
      numeral of a JSON text stands for the number it denotes, so that a
      statement about an arbitrary text is restricted to numerals of
      magnitude at most 2^53;
    - no modelled value can be called: an own property that hides a method
      the program calls ([hasOwnProperty], [toISOString], [push]) makes the
      call raise a TypeError, and the classes do not override these
      methods;
    - an object has a prototype (null, or the prototype of a class
      constructor), an internal slot (none, array, [[SetData]], [[MapData]],
      [[DateValue]]) and own enumerable string-keyed data properties, kept in
      property enumeration order (array indices ascending, then the other
      keys in insertion order);
    - strings are sequences of one-byte characters;
    - a JSON text is represented by its syntax tree, so [JSON.parse] never
      raises a syntax error on a text that the model can express;
    - the length of an array is one more than its largest index.
    Where a run leaves the fragment (an own property that shadows
    [constructor], a [__proto__] assignment that would install a heap object
    as prototype) the model answers [Unmodelled] instead of guessing. *)

From Stdlib Require Import ZArith Lia DecimalString DecimalNat.
From stdpp Require Import base option list strings.
From Stdlib Require Import Ascii.

Set Warnings "-register-all,-clear-no-such-hyp".


(** ** Outcomes of a call *)

Inductive error := TypeError | RangeError | SyntaxError.

Inductive outcome (A : Type) : Type :=
  | Ok (a : A)
  | Throw (e : error)
  | OutOfFuel
  | Unmodelled.
Arguments Ok {A} a.
Arguments Throw {A} e.
Arguments OutOfFuel {A}.
Arguments Unmodelled {A}.

#[global] Instance outcome_ret : MRet outcome := fun A a => Ok a.
#[global] Instance outcome_bind : MBind outcome := fun A B f m =>
  match m with
  | Ok a => f a
  | Throw e => Throw e
  | OutOfFuel => OutOfFuel
  | Unmodelled => Unmodelled
  end.

(** ** Values *)

(** object identity: the address of the object in the heap *)
Abbreviation loc := nat (only parsing).

Inductive value :=
  | VUndef
  | VNull
  | VBool (b : bool)
  | VNum (n : Z)
  | VStr (s : string)
  | VRef (l : loc).

#[global] Instance value_eq_dec : EqDecision value.
Proof. solve_decision. Defined.

(** [value && typeof value === 'object'] *)
Definition isObject (v : value) : bool :=
  match v with VRef _ => true | _ => false end.

(** ** Property lists in enumeration order *)

Definition is_digit (c : ascii) : bool :=
  let n := nat_of_ascii c in (48 <=? n)%nat && (n <=? 57)%nat.

Fixpoint digits_value (s : string) (acc : N) : N :=
  match s with
  | EmptyString => acc
  | String c r => digits_value r (10 * acc + N.of_nat (nat_of_ascii c - 48))%N
  end.

Fixpoint all_digits (s : string) : bool :=
  match s with
  | EmptyString => true
  | String c r => is_digit c && all_digits r
  end.

(** An array index is a canonical numeric string below 2^32 - 1. *)
Definition array_index (k : string) : option N :=
  match k with
  | EmptyString => None
  | String c r =>
      if all_digits k && (negb (Ascii.eqb c "0") || String.eqb r "")
         && (String.length k <=? 10)%nat
      then let n := digits_value k 0 in
           if (n <? 4294967295)%N then Some n else None
      else None
  end.

(** [key_before k0 k]: a new key [k] is enumerated before the present key
    [k0]. *)
Definition key_before (k0 k : string) : bool :=
  match array_index k, array_index k0 with
  | Some i, Some i0 => (i <? i0)%N
  | Some _, None => true
  | None, _ => false
  end.

Section props.
Context {A : Type}.

Fixpoint prop_get (ps : list (string * A)) (k : string) : option A :=
  match ps with
  | [] => None
  | (k0, v0) :: r => if decide (k0 = k) then Some v0 else prop_get r k
  end.

Definition has_own (ps : list (string * A)) (k : string) : bool :=
  bool_decide (is_Some (prop_get ps k)).

Fixpoint prop_update (ps : list (string * A)) (k : string) (v : A)
  : list (string * A) :=
  match ps with
  | [] => []
  | (k0, v0) :: r =>
      if decide (k0 = k) then (k0, v) :: r else (k0, v0) :: prop_update r k v
  end.

Fixpoint prop_insert (ps : list (string * A)) (k : string) (v : A)
  : list (string * A) :=
  match ps with
  | [] => [(k, v)]
  | (k0, v0) :: r =>
      if key_before k0 k then (k, v) :: (k0, v0) :: r
      else (k0, v0) :: prop_insert r k v
  end.

(** [o[k] = v] on an ordinary data property *)
Definition prop_set (ps : list (string * A)) (k : string) (v : A)
  : list (string * A) :=
  if has_own ps k then prop_update ps k v else prop_insert ps k v.
End props.

(** ** Classes, objects and the heap *)

Inductive brand := BObject | BArray | BSet | BMap | BDate.

#[global] Instance brand_eq_dec : EqDecision brand.
Proof. solve_decision. Defined.

(** A class constructor: its [name], the built-in prototype its prototype
    chain passes through (what [instanceof] observes), the property names
    its prototype chain defines below [Object.prototype], and whether the
    prototype carries the [Serializable.SERIALIZED_CLASS] symbol. *)
Record ctor := Ctor {
  cname : string;
  cbrand : brand;
  cmembers : list string;
  cmarked : bool
}.

#[global] Instance ctor_eq_dec : EqDecision ctor.
Proof. solve_decision. Defined.

(** Names every object with a non-null prototype inherits from
    [Object.prototype]. *)
Definition object_prototype_members : list string :=
  [ "constructor"; "hasOwnProperty"; "isPrototypeOf"; "propertyIsEnumerable";
    "toLocaleString"; "toString"; "valueOf"; "__proto__";
    "__defineGetter__"; "__defineSetter__"; "__lookupGetter__";
    "__lookupSetter__" ].

(** The built-in constructors.  The member lists are the names the
    ECMAScript standard library defines on the respective prototypes. *)
Definition Object_ctor : ctor := Ctor "Object" BObject [] false.

Definition Array_ctor : ctor :=
  Ctor "Array" BArray
    [ "at"; "concat"; "copyWithin"; "entries"; "every"; "fill"; "filter";
      "find"; "findIndex"; "findLast"; "findLastIndex"; "flat"; "flatMap";
      "forEach"; "includes"; "indexOf"; "join"; "keys"; "lastIndexOf"; "map";
      "pop"; "push"; "reduce"; "reduceRight"; "reverse"; "shift"; "slice";
      "some"; "sort"; "splice"; "toReversed"; "toSorted"; "toSpliced";
      "unshift"; "values"; "with" ] false.

Definition Set_ctor : ctor :=
  Ctor "Set" BSet
    [ "add"; "clear"; "delete"; "entries"; "forEach"; "has"; "keys"; "size";
      "values" ] false.

Definition Map_ctor : ctor :=
  Ctor "Map" BMap
    [ "clear"; "delete"; "entries"; "forEach"; "get"; "has"; "keys"; "set";
      "size"; "values" ] false.

Definition Date_ctor : ctor :=
  Ctor "Date" BDate
    [ "getDate"; "getDay"; "getFullYear"; "getHours"; "getMilliseconds";
      "getMinutes"; "getMonth"; "getSeconds"; "getTime"; "getTimezoneOffset";
      "getUTCDate"; "getUTCDay"; "getUTCFullYear"; "getUTCHours";
      "getUTCMilliseconds"; "getUTCMinutes"; "getUTCMonth"; "getUTCSeconds";
      "getYear"; "setDate"; "setFullYear"; "setHours"; "setMilliseconds";
      "setMinutes"; "setMonth"; "setSeconds"; "setTime"; "setUTCDate";
      "setUTCFullYear"; "setUTCHours"; "setUTCMilliseconds"; "setUTCMinutes";
      "setUTCMonth"; "setUTCSeconds"; "setYear"; "toDateString"; "toGMTString";
      "toISOString"; "toJSON"; "toLocaleDateString"; "toLocaleTimeString";
      "toTimeString"; "toUTCString" ] false.

(** [new Map([['Date', Date], ['Set', Set], ['Map', Map], ['Array', Array]])] *)
Definition builtin_classMap : list (string * ctor) :=
  [ ("Date", Date_ctor); ("Set", Set_ctor); ("Map", Map_ctor); ("Array", Array_ctor) ].

(** A host for concrete runs: an instant is identified with its ISO-8601
    rendering, and every value that is not a string gives the invalid
    date. *)
Definition iso_time : Type := string.

Definition iso_toISOString (t : iso_time) : option string :=
  if decide (t = "Invalid Date") then None else Some t.

Definition iso_newDate (v : value) : iso_time :=
  match v with VStr s => s | _ => "Invalid Date" end.

Section model.

(** The host's [Date]: instants, [Date.prototype.toISOString] (absent for an
    invalid date, where the host raises a RangeError) and the one-argument
    [Date] constructor on a value that is not a Date object. *)
Variable time : Type.
Variable toISOString : time -> option string.
Variable newDate : value -> time.

Inductive slot :=
  | SNone
  | SArray
  | SSet (items : list value)
  | SMap (entries : list (value * value))
  | SDate (t : time).

Record obj := Obj {
  proto : option ctor;
  oslot : slot;
  props : list (string * value)
}.

Abbreviation heap := (list obj).

Definition alloc (h : heap) (o : obj) : loc * heap := (List.length h, h ++ [o]).

(** [instance instanceof B] *)
Definition instanceof (o : obj) (b : brand) : bool :=
  match proto o with
  | Some c => bool_decide (cbrand c = b)
  | None => false
  end.

(** The name [k] is defined on [o] without being an own enumerable
    property: the [length] of an array, or a member of the prototype chain. *)
Definition inherited (o : obj) (k : string) : bool :=
  match oslot o, decide (k = "length") with
  | SArray, left _ => true
  | _, _ =>
      match proto o with
      | Some c => bool_decide (k ∈ object_prototype_members)
                  || bool_decide (k ∈ cmembers c)
      | None => false
      end
  end.

(** The property [k] is defined (not [undefined]) on [o], own or inherited:
    the negation of [typeof o[k] === "undefined"]. *)
Definition defined_on (o : obj) (k : string) : bool :=
  match prop_get (props o) k with
  | Some v => negb (bool_decide (v = VUndef))
  | None => inherited o k
  end.

(** [Set.prototype.add] and [Map.prototype.set] on the data of the slot
    (keys compared by SameValueZero, which is equality on modelled values) *)
Definition set_add (items : list value) (v : value) : list value :=
  if bool_decide (v ∈ items) then items else items ++ [v].

Fixpoint map_get (entries : list (value * value)) (k : value) : option value :=
  match entries with
  | [] => None
  | (k0, v0) :: r => if decide (k0 = k) then Some v0 else map_get r k
  end.

Fixpoint map_set (entries : list (value * value)) (k v : value)
  : list (value * value) :=
  match entries with
  | [] => [(k, v)]
  | (k0, v0) :: r =>
      if decide (k0 = k) then (k0, v) :: r else (k0, v0) :: map_set r k v
  end.

(** ** The class registry and the visited table *)

(** [Serializable.classMap : Map<string, Constructor>] *)
Definition classMap := list (string * ctor).

(** The visited table of the encoder, [seen : Map<T, string>], keyed by
    object identity, in insertion order. *)
Definition seen_table := list (loc * string).

Fixpoint seen_get (seen : seen_table) (l : loc) : option string :=
  match seen with
  | [] => None
  | (l0, id) :: r => if decide (l0 = l) then Some id else seen_get r l
  end.

(** Decimal rendering of [seen.size] inside the template literal *)
Definition show_nat (n : nat) : string := NilEmpty.string_of_uint (Nat.to_uint n).

Definition is_line_terminator (c : ascii) : bool :=
  bool_decide (nat_of_ascii c = 10) || bool_decide (nat_of_ascii c = 13).

(** [\s] on one-byte characters: tab to carriage return, the space and the
    no-break space *)
Definition is_space (c : ascii) : bool :=
  let n := nat_of_ascii c in
  bool_decide (9 ≤ n ≤ 13) || bool_decide (n = 32) || bool_decide (n = 160).

Fixpoint no_line_terminator (s : string) : bool :=
  match s with
  | EmptyString => true
  | String c r => negb (is_line_terminator c) && no_line_terminator r
  end.

(** [constructorName.match(/^(?:bound\s)?(.+)$/)]: the name without a
    leading ["bound "], or the name itself when the pattern does not apply *)
Definition getClassName (constructorName : string) : string :=
  match constructorName with
  | String "b" (String "o" (String "u" (String "n" (String "d" (String c rest))))) =>
      if is_space c && negb (bool_decide (rest = "")) && no_line_terminator rest
      then rest else constructorName
  | _ => constructorName
  end.

(** [instance.constructor], found through the prototype *)
Definition constructor_of (o : obj) : outcome ctor :=
  if has_own (props o) "constructor" then Unmodelled
  else match proto o with
       | Some c => Ok c
       | None => Throw TypeError
       end.

(** [instance.hasOwnProperty(key)]: the inherited method, unless the
    prototype is null or an own data property hides it *)
Definition hasOwnProperty (o : obj) (key : string) : outcome bool :=
  if has_own (props o) "hasOwnProperty" then Throw TypeError
  else match proto o with
       | Some _ => Ok (has_own (props o) key)
       | None => Throw TypeError
       end.

(** [instance.toISOString()] on a Date object: the inherited method, unless
    an own data property hides it (no modelled value can be called); the
    method raises a RangeError on an invalid instant *)
Definition invoke_toISOString (o : obj) (t : time) : outcome string :=
  if has_own (props o) "toISOString" then Throw TypeError
  else match toISOString t with
       | Some iso => Ok iso
       | None => Throw RangeError
       end.

(** ** GraphEncoder: [Serializable.serializeObject] *)

(** What [serializeObject] returns: the instance itself, or a freshly built
    plain object or array whose fields are again such results. *)
Inductive sval :=
  | SLive (v : value)
  | SNode (ps : list (string * sval))
  | SList (xs : list sval).

Section serializeObject_loops.
Variable rec : value -> seen_table -> outcome (sval * seen_table).

(** [this.isObject(item) ? this.serializeObject(item, seen) : item] *)
Definition serialize_child (item : value) (seen : seen_table)
  : outcome (sval * seen_table) :=
  if isObject item then rec item seen else Ok (SLive item, seen).

(** [Array.from(instance).map(item => ...)] on a Set *)
Fixpoint serialize_items (items : list value) (seen : seen_table)
  : outcome (list sval * seen_table) :=
  match items with
  | [] => Ok ([], seen)
  | item :: r =>
      '(s, seen) ← serialize_child item seen;
      '(ss, seen) ← serialize_items r seen;
      Ok (s :: ss, seen)
  end.

(** [Array.from(instance).map(([key, value]) => [...])] on a Map *)
Fixpoint serialize_entries (entries : list (value * value)) (seen : seen_table)
  : outcome (list sval * seen_table) :=
  match entries with
  | [] => Ok ([], seen)
  | (key, val) :: r =>
      '(sk, seen) ← serialize_child key seen;
      '(sv, seen) ← serialize_child val seen;
      '(ss, seen) ← serialize_entries r seen;
      Ok (SList [sk; sv] :: ss, seen)
  end.

(** [for (const key in jsonObject) if (instance.hasOwnProperty(key)) ...] *)
Fixpoint serialize_props (keys : list string) (instance : obj)
    (jsonObject : list (string * sval)) (seen : seen_table)
  : outcome (list (string * sval) * seen_table) :=
  match keys with
  | [] => Ok (jsonObject, seen)
  | key :: r =>
      own ← hasOwnProperty instance key;
      if own : bool then
        '(s, seen) ← serialize_child (default VUndef (prop_get (props instance) key)) seen;
        serialize_props r instance (prop_set jsonObject key s) seen
      else serialize_props r instance jsonObject seen
  end.
End serializeObject_loops.

(** [Object.assign(jsonObject, instance)] *)
Definition object_assign (jsonObject : list (string * sval)) (instance : obj)
  : list (string * sval) :=
  fold_left (fun acc kv => prop_set acc kv.1 (SLive kv.2)) (props instance) jsonObject.

Fixpoint serializeObject (cm : classMap) (fuel : nat) (h : heap)
    (instance : value) (seen : seen_table) : outcome (sval * seen_table) :=
  match fuel with
  | O => OutOfFuel
  | S fuel =>
    match instance with
    | VRef l =>
      match seen_get seen l with
      | Some id => Ok (SNode [("__ref", SLive (VStr id))], seen)
      | None =>
        match h !! l with
        | None => Unmodelled
        | Some o =>
          c ← constructor_of o;
          let className := getClassName (cname c) in
          let classConstructor := prop_get cm className in
          let id := className +:+ "_" +:+ show_nat (length seen) in
          let seen := seen ++ [(l, id)] in
          match classConstructor with
          | Some _ =>
            let jsonObject :=
              [("__class", SLive (VStr className)); ("__id", SLive (VStr id))] in
            '(jsonObject, seen) ←
              (if instanceof o BSet then
                 match oslot o with
                 | SSet items =>
                     '(vs, seen) ← serialize_items (serializeObject cm fuel h) items seen;
                     Ok (prop_set (prop_set jsonObject "values" (SList vs))
                                  "__set" (SLive (VBool true)), seen)
                 | _ => Throw TypeError
                 end
               else if instanceof o BMap then
                 match oslot o with
                 | SMap entries =>
                     '(es, seen) ← serialize_entries (serializeObject cm fuel h) entries seen;
                     Ok (prop_set (prop_set jsonObject "entries" (SList es))
                                  "__map" (SLive (VBool true)), seen)
                 | _ => Throw TypeError
                 end
               else if instanceof o BDate then
                 match oslot o with
                 | SDate t =>
                     iso ← invoke_toISOString o t;
                     Ok (prop_set (prop_set jsonObject "__date" (SLive (VBool true)))
                                  "date" (SLive (VStr iso)), seen)
                 | _ => Throw TypeError
                 end
               else
                 if has_own (props o) "__proto__" then Unmodelled
                 else
                   let jsonObject := object_assign jsonObject o in
                   serialize_props (serializeObject cm fuel h)
                     (jsonObject.*1) o jsonObject seen);
            let jsonObject :=
              if cmarked c
              then prop_set jsonObject "SERIALIZED_CLASS" (SLive (VBool true))
              else jsonObject in
            Ok (SNode jsonObject, seen)
          | None => Ok (SLive instance, seen)
          end
        end
      end
    | _ => Ok (SLive instance, seen)
    end
  end.

(** ** [JSON.stringify] *)

Inductive json :=
  | JNull
  | JBool (b : bool)
  | JNum (n : Z)
  | JStr (s : string)
  | JArr (xs : list json)
  | JObj (ms : list (string * json)).

Definition show_N (n : N) : string := NilEmpty.string_of_uint (N.to_uint n).

(** [array.length]: one more than the largest index among the own keys *)
Definition array_length (ps : list (string * value)) : N :=
  fold_right (fun kv acc =>
                match array_index kv.1 with
                | Some i => N.max (N.succ i) acc
                | None => acc
                end) 0%N ps.

Section stringify_loops.
Context {X : Type}.
Variable rec : X -> outcome (option json).

(** members of an object: a property whose value renders to [undefined]
    is left out *)
Fixpoint stringify_members (ps : list (string * X))
  : outcome (list (string * json)) :=
  match ps with
  | [] => Ok []
  | (k, x) :: r =>
      j ← rec x;
      ms ← stringify_members r;
      Ok (match j with Some j => (k, j) :: ms | None => ms end)
  end.

(** elements of an array: [undefined] renders as [null] *)
Fixpoint stringify_elements (xs : list X) : outcome (list json) :=
  match xs with
  | [] => Ok []
  | x :: r =>
      j ← rec x;
      js ← stringify_elements r;
      Ok (default JNull j :: js)
  end.
End stringify_loops.

(** the elements [a[0] .. a[length - 1]] of a live array *)
Definition array_elements (ps : list (string * value)) : list value :=
  (fun i => default VUndef (prop_get ps (show_nat i))) <$> seq 0 (N.to_nat (array_length ps)).

(** [Date.prototype.toJSON]: the primitive of the object as a number (its
    instant, through the inherited [valueOf]; an own property [valueOf]
    hides that method and the string form is taken, which an own [toString]
    hides in turn), [null] when that is a number that is not finite, and
    [this.toISOString()] otherwise *)
Definition Date_toJSON (o : obj) (t : time) : outcome (option json) :=
  if has_own (props o) "valueOf" then
    if has_own (props o) "toString" then Throw TypeError
    else iso ← invoke_toISOString o t; Ok (Some (JStr iso))
  else match toISOString t with
       | None => Ok (Some JNull)
       | Some _ => iso ← invoke_toISOString o t; Ok (Some (JStr iso))
       end.

(** [JSON.stringify] on a live value; [stack] holds the objects being
    rendered, for the circular-structure check. *)
Fixpoint stringify_live (fuel : nat) (h : heap) (stack : list loc) (v : value)
  : outcome (option json) :=
  match fuel with
  | O => OutOfFuel
  | S fuel =>
    match v with
    | VUndef => Ok None
    | VNull => Ok (Some JNull)
    | VBool b => Ok (Some (JBool b))
    | VNum n => Ok (Some (JNum n))
    | VStr s => Ok (Some (JStr s))
    | VRef l =>
      match h !! l with
      | None => Unmodelled
      | Some o =>
        if has_own (props o) "toJSON" then Unmodelled
        else if instanceof o BDate then
          match oslot o with
          | SDate t => Date_toJSON o t
          | _ => Throw TypeError
          end
        else if match proto o with
                | Some c => bool_decide ("toJSON" ∈ cmembers c)
                | None => false
                end then Unmodelled
        else if bool_decide (l ∈ stack) then Throw TypeError
        else
          match oslot o with
          | SArray =>
              js ← stringify_elements (stringify_live fuel h (l :: stack))
                     (array_elements (props o));
              Ok (Some (JArr js))
          | _ =>
              ms ← stringify_members (stringify_live fuel h (l :: stack)) (props o);
              Ok (Some (JObj ms))
          end
      end
    end
  end.

(** [JSON.stringify] on the result of [serializeObject] *)
Fixpoint stringify (fuel : nat) (h : heap) (s : sval) : outcome (option json) :=
  match fuel with
  | O => OutOfFuel
  | S fuel =>
    match s with
    | SLive v => stringify_live fuel h [] v
    | SNode ps => ms ← stringify_members (stringify fuel h) ps; Ok (Some (JObj ms))
    | SList xs => js ← stringify_elements (stringify fuel h) xs; Ok (Some (JArr js))
    end
  end.

(** [Serializable.serialize]; the result is [None] where [JSON.stringify]
    returns [undefined]. *)
Definition serialize (cm : classMap) (fuel : nat) (h : heap) (instance : value)
  : outcome (option json) :=
  '(serializedObject, _) ← serializeObject cm fuel h instance [];
  stringify fuel h serializedObject.

(** ** [JSON.parse] *)

(** The object that [JSON.parse] builds from a syntax tree: members are
    defined one after the other, so that a repeated name keeps its last
    value and array indices are enumerated first.  A numeral stands for the
    number it denotes: it is the integer written only up to magnitude
    2^53, beyond which the host rounds. *)
Fixpoint JSON_parse (j : json) : json :=
  match j with
  | JArr xs => JArr (JSON_parse <$> xs)
  | JObj ms => JObj (fold_left (fun acc kv => prop_set acc kv.1 (JSON_parse kv.2)) ms [])
  | _ => j
  end.

(** ** GraphDecoder: [Serializable.deserializeObject] *)

(** The references table of the decoder, [references : Map<string, any>].
    The keys are whatever [jsonObject.__id] holds; only primitive keys can
    be presented again by a later [get]. *)
Definition refs_table := list (value * value).

Definition json_isObject (j : json) : bool :=
  match j with JArr _ | JObj _ => true | _ => false end.

(** a parsed primitive as a value *)
Definition json_prim (j : option json) : option value :=
  match j with
  | None => Some VUndef
  | Some JNull => Some VNull
  | Some (JBool b) => Some (VBool b)
  | Some (JNum n) => Some (VNum n)
  | Some (JStr s) => Some (VStr s)
  | Some (JArr _) | Some (JObj _) => None
  end.

(** own enumerable properties of a parsed object or array, in [for-in]
    order *)
Definition members (j : json) : list (string * json) :=
  match j with
  | JObj ms => ms
  | JArr xs => zip (show_nat <$> seq 0 (length xs)) xs
  | _ => []
  end.

(** [jsonObject.k] *)
Definition field (j : json) (k : string) : option json := prop_get (members j) k.

Definition truthy (j : option json) : bool :=
  match j with
  | None | Some JNull => false
  | Some (JBool b) => b
  | Some (JNum n) => negb (bool_decide (n = 0%Z))
  | Some (JStr s) => negb (bool_decide (s = ""))
  | Some (JArr _) | Some (JObj _) => true
  end.

(** [references.get(key)] *)
Definition refs_get (references : refs_table) (key : option json) : value :=
  match json_prim key with
  | Some k => default VUndef (map_get references k)
  | None => VUndef
  end.

(** [references.set(id, instance)]; an id that is itself a parsed object
    is a key no other node can present, so its entry is never found. *)
Definition refs_set (references : refs_table) (id : option json) (instance : value)
  : refs_table :=
  match json_prim id with
  | Some k => map_set references k instance
  | None => references
  end.

Fixpoint chars (s : string) : list json :=
  match s with
  | EmptyString => []
  | String c r => JStr (String c EmptyString) :: chars r
  end.

(** the sequence that [for (... of x)] runs over *)
Definition iterate (x : option json) : outcome (list json) :=
  match x with
  | Some (JArr xs) => Ok xs
  | Some (JStr s) => Ok (chars s)
  | _ => Throw TypeError
  end.

Definition heap_update (h : heap) (l : loc) (f : obj -> obj) : outcome heap :=
  match h !! l with
  | Some o => Ok (<[l := f o]> h)
  | None => Unmodelled
  end.

Definition with_props (f : list (string * value) -> list (string * value)) (o : obj) : obj :=
  Obj (proto o) (oslot o) (f (props o)).

(** [instance.add(v)] *)
Definition Set_add (h : heap) (l : loc) (v : value) : outcome heap :=
  match h !! l with
  | Some (Obj p (SSet items) ps) => Ok (<[l := Obj p (SSet (set_add items v)) ps]> h)
  | Some _ => Throw TypeError
  | None => Unmodelled
  end.

(** [instance.set(k, v)] *)
Definition Map_set (h : heap) (l : loc) (k v : value) : outcome heap :=
  match h !! l with
  | Some (Obj p (SMap entries) ps) => Ok (<[l := Obj p (SMap (map_set entries k v)) ps]> h)
  | Some _ => Throw TypeError
  | None => Unmodelled
  end.

(** [simpleInstance[key] = v] on a plain object; the key [__proto__] runs
    the setter inherited from [Object.prototype]. *)
Definition assign_plain (h : heap) (l : loc) (key : string) (v : value) : outcome heap :=
  match h !! l with
  | Some o =>
      if decide (key = "__proto__") then
        match proto o, v with
        | None, _ => Ok (<[l := with_props (fun ps => prop_set ps key v) o]> h)
        | Some _, VRef _ => Unmodelled
        | Some _, VNull => Ok (<[l := Obj None (oslot o) (props o)]> h)
        | Some _, _ => Ok h
        end
      else Ok (<[l := with_props (fun ps => prop_set ps key v) o]> h)
  | None => Unmodelled
  end.


Section deserializeObject_loops.
Variable rec : json -> refs_table -> heap -> outcome (value * refs_table * heap).

(** [this.isObject(x) ? this.deserializeObject(x, references) : x] *)
Definition decode_child (x : option json) (references : refs_table) (h : heap)
  : outcome (value * refs_table * heap) :=
  match x, json_prim x with
  | _, Some v => Ok (v, references, h)
  | Some j, None => rec j references h
  | None, None => Ok (VUndef, references, h)
  end.

(** [for (const value of jsonObject.values) instance.add(...)] *)
Fixpoint decode_values (l : loc) (values : list json) (references : refs_table)
    (h : heap) : outcome (refs_table * heap) :=
  match values with
  | [] => Ok (references, h)
  | x :: r =>
      '(v, references, h) ← decode_child (Some x) references h;
      h ← Set_add h l v;
      decode_values l r references h
  end.

(** [for (const [key, value] of jsonObject.entries) instance.set(...)] *)
Fixpoint decode_entries (l : loc) (entries : list json) (references : refs_table)
    (h : heap) : outcome (refs_table * heap) :=
  match entries with
  | [] => Ok (references, h)
  | e :: r =>
      kv ← iterate (Some e);
      '(k, references, h) ← decode_child (kv !! 0%nat) references h;
      '(v, references, h) ← decode_child (kv !! 1%nat) references h;
      h ← Map_set h l k v;
      decode_entries l r references h
  end.

(** the property loop of a registered kind: a name the shell already
    defines is skipped *)
Fixpoint decode_props (jsonObject : json) (l : loc) (ms : list (string * json))
    (references : refs_table) (h : heap) : outcome (refs_table * heap) :=
  match ms with
  | [] => Ok (references, h)
  | (key, x) :: r =>
      if has_own (members jsonObject) "hasOwnProperty" then Throw TypeError
      else if bool_decide (key ≠ "__class") && bool_decide (key ≠ "__id") then
        match h !! l with
        | None => Unmodelled
        | Some instance =>
            if defined_on instance key then decode_props jsonObject l r references h
            else
              '(v, references, h) ← decode_child (Some x) references h;
              h ← heap_update h l (with_props (fun ps => prop_set ps key v));
              decode_props jsonObject l r references h
        end
      else decode_props jsonObject l r references h
  end.

(** the property loop of an unregistered kind *)
Fixpoint decode_plain (jsonObject : json) (l : loc) (ms : list (string * json))
    (references : refs_table) (h : heap) : outcome (refs_table * heap) :=
  match ms with
  | [] => Ok (references, h)
  | (key, x) :: r =>
      if has_own (members jsonObject) "hasOwnProperty" then Throw TypeError
      else if bool_decide (key ≠ "__class") && bool_decide (key ≠ "__id") then
        '(v, references, h) ← decode_child (Some x) references h;
        h ← assign_plain h l key v;
        decode_plain jsonObject l r references h
      else decode_plain jsonObject l r references h
  end.
End deserializeObject_loops.

(** the argument of [new Date(jsonObject.date)] *)
Definition date_argument (x : option json) : outcome value :=
  match json_prim x with
  | Some v => Ok v
  | None => Unmodelled
  end.

Fixpoint deserializeObject (cm : classMap) (fuel : nat) (jsonObject : json)
    (references : refs_table) (h : heap) : outcome (value * refs_table * heap) :=
  match fuel with
  | O => OutOfFuel
  | S fuel =>
    if json_isObject jsonObject then
      if truthy (field jsonObject "__ref")
      then Ok (refs_get references (field jsonObject "__ref"), references, h)
      else
        let className := field jsonObject "__class" in
        let classConstructor :=
          match className with Some (JStr s) => prop_get cm s | _ => None end in
        let id := field jsonObject "__id" in
        match classConstructor with
        | Some c =>
            shell ←
              (if bool_decide (c = Array_ctor) || bool_decide (cbrand c = BArray)
               then Ok SArray
               else if truthy (field jsonObject "__set") then Ok (SSet [])
               else if truthy (field jsonObject "__map") then Ok (SMap [])
               else if truthy (field jsonObject "__date")
                    then d ← date_argument (field jsonObject "date"); Ok (SDate (newDate d))
               else Ok SNone);
            let '(l, h) := alloc h (Obj (Some c) shell []) in
            let references := refs_set references id (VRef l) in
            '(references, h) ←
              (if bool_decide (cbrand c = BSet) then
                 values ← iterate (field jsonObject "values");
                 decode_values (deserializeObject cm fuel) l values references h
               else if bool_decide (cbrand c = BMap) then
                 entries ← iterate (field jsonObject "entries");
                 decode_entries (deserializeObject cm fuel) l entries references h
               else
                 decode_props (deserializeObject cm fuel) jsonObject l
                   (members jsonObject) references h);
            Ok (VRef l, references, h)
        | None =>
            let '(l, h) := alloc h (Obj (Some Object_ctor) SNone []) in
            let references := refs_set references id (VRef l) in
            '(references, h) ←
              decode_plain (deserializeObject cm fuel) jsonObject l
                (members jsonObject) references h;
            Ok (VRef l, references, h)
        end
    else Ok (default VUndef (json_prim (Some jsonObject)), references, h)
  end.

(** [Serializable.deserialize] *)
Definition deserialize (cm : classMap) (fuel : nat) (text : json) (h : heap)
  : outcome (value * heap) :=
  let jsonObject := JSON_parse text in
  '(v, _, h) ← deserializeObject cm fuel jsonObject [] h;
  Ok (v, h).

(** ** DeepCopier: [UiUtils.copyObject] *)

(** The visited table of the copier, [seen : Map<T, T>], from the identity
    of a source object to its copy. *)
Definition copy_table := list (loc * value).

Fixpoint copy_get (seen : copy_table) (l : loc) : option value :=
  match seen with
  | [] => None
  | (l0, c) :: r => if decide (l0 = l) then Some c else copy_get r l
  end.

Section copyObject_loops.
Variable rec : value -> copy_table -> heap -> outcome (value * copy_table * heap).

(** [this.isObject(x) ? this.copyObject(x, seen, ...) : x] *)
Definition copy_child (x : value) (seen : copy_table) (h : heap)
  : outcome (value * copy_table * heap) :=
  if isObject x then rec x seen h else Ok (x, seen, h).

(** [for (const item of instance) copy.add(...)] *)
Fixpoint copy_items (cl : loc) (items : list value) (seen : copy_table) (h : heap)
  : outcome (copy_table * heap) :=
  match items with
  | [] => Ok (seen, h)
  | item :: r =>
      '(v, seen, h) ← copy_child item seen h;
      h ← Set_add h cl v;
      copy_items cl r seen h
  end.

(** [for (const [key, value] of instance) copy.set(copiedKey, copiedValue)] *)
Fixpoint copy_entries (cl : loc) (entries : list (value * value))
    (seen : copy_table) (h : heap) : outcome (copy_table * heap) :=
  match entries with
  | [] => Ok (seen, h)
  | (key, val) :: r =>
      '(copiedKey, seen, h) ← copy_child key seen h;
      '(copiedValue, seen, h) ← copy_child val seen h;
      h ← Map_set h cl copiedKey copiedValue;
      copy_entries cl r seen h
  end.

(** [for (const key in instance) if (instance.hasOwnProperty(key)) ...] *)
Fixpoint copy_props (instance : obj) (cl : loc) (ps : list (string * value))
    (seen : copy_table) (h : heap) : outcome (copy_table * heap) :=
  match ps with
  | [] => Ok (seen, h)
  | (key, x) :: r =>
      own ← hasOwnProperty instance key;
      if own : bool then
        match h !! cl with
        | None => Unmodelled
        | Some copy =>
            if defined_on copy key then copy_props instance cl r seen h
            else
              '(v, seen, h) ← copy_child x seen h;
              h ← heap_update h cl (with_props (fun ps => prop_set ps key v));
              copy_props instance cl r seen h
        end
      else copy_props instance cl r seen h
  end.
End copyObject_loops.

Fixpoint copyObject (fuel : nat) (instance : value) (seen : copy_table)
    (level : Z) (h : heap) : outcome (value * copy_table * heap) :=
  match fuel with
  | O => OutOfFuel
  | S fuel =>
    match instance with
    | VRef l =>
      match copy_get seen l with
      | Some c => Ok (c, seen, h)
      | None =>
        if bool_decide (level = 0%Z) then Ok (instance, seen, h)
        else
          match h !! l with
          | None => Unmodelled
          | Some o =>
            c ← constructor_of o;
            shell ←
              (if bool_decide (c = Array_ctor) || instanceof o BArray then Ok SArray
               else if instanceof o BSet then Ok (SSet [])
               else if instanceof o BMap then Ok (SMap [])
               else if instanceof o BDate then
                 match oslot o with
                 | SDate t => Ok (SDate t)
                 | _ => Throw TypeError
                 end
               else Ok SNone);
            let '(cl, h) := alloc h (Obj (Some c) shell []) in
            let seen := seen ++ [(l, VRef cl)] in
            let next := if bool_decide (level = (-1)%Z) then (-1)%Z else (level - 1)%Z in
            '(seen, h) ←
              (if instanceof o BSet then
                 match oslot o with
                 | SSet items =>
                     copy_items (fun x seen => copyObject fuel x seen next) cl items seen h
                 | _ => Throw TypeError
                 end
               else if instanceof o BMap then
                 match oslot o with
                 | SMap entries =>
                     copy_entries (fun x seen => copyObject fuel x seen next) cl entries seen h
                 | _ => Throw TypeError
                 end
               else
                 copy_props (fun x seen => copyObject fuel x seen next) o cl (props o) seen h);
            Ok (VRef cl, seen, h)
          end
      end
    | _ => Ok (instance, seen, h)
    end
  end.

(** [UiUtils.deepCopy(instance, level = -1)] *)
Definition deepCopy (fuel : nat) (instance : value) (level : Z) (h : heap)
  : outcome (value * heap) :=
  '(v, _, h) ← copyObject fuel instance [] level h;
  Ok (v, h).

(** [Serializable.deserialize(Serializable.serialize(instance))]; a text
    that is [undefined] is no JSON text. *)
Definition roundtrip (cm : classMap) (fuel : nat) (h : heap) (instance : value)
  : outcome (value * heap) :=
  text ← serialize cm fuel h instance;
  match text with
  | Some text => deserialize cm fuel text h
  | None => Throw SyntaxError
  end.

(** * Properties *)

(** ** Unfolding one call *)

Lemma serializeObject_S (cm : classMap) (fuel : nat) (h : heap)
    (instance : value) (seen : seen_table) :
  serializeObject cm (S fuel) h instance seen =
  match instance with
  | VRef l =>
    match seen_get seen l with
    | Some id => Ok (SNode [("__ref", SLive (VStr id))], seen)
    | None =>
      match h !! l with
      | None => Unmodelled
      | Some o =>
        c ← constructor_of o;
        let className := getClassName (cname c) in
        let id := className +:+ "_" +:+ show_nat (length seen) in
        let seen := seen ++ [(l, id)] in
        match prop_get cm className with
        | Some _ =>
          let jsonObject :=
            [("__class", SLive (VStr className)); ("__id", SLive (VStr id))] in
          '(jsonObject, seen) ←
            (if instanceof o BSet then
               match oslot o with
               | SSet items =>
                   '(vs, seen) ← serialize_items (serializeObject cm fuel h) items seen;
                   Ok (prop_set (prop_set jsonObject "values" (SList vs))
                                "__set" (SLive (VBool true)), seen)
               | _ => Throw TypeError
               end
             else if instanceof o BMap then
               match oslot o with
               | SMap entries =>
                   '(es, seen) ← serialize_entries (serializeObject cm fuel h) entries seen;
                   Ok (prop_set (prop_set jsonObject "entries" (SList es))
                                "__map" (SLive (VBool true)), seen)
               | _ => Throw TypeError
               end
             else if instanceof o BDate then
               match oslot o with
               | SDate t =>
                   iso ← invoke_toISOString o t;
                   Ok (prop_set (prop_set jsonObject "__date" (SLive (VBool true)))
                                "date" (SLive (VStr iso)), seen)
               | _ => Throw TypeError
               end
             else
               if has_own (props o) "__proto__" then Unmodelled
               else
                 let jsonObject := object_assign jsonObject o in
                 serialize_props (serializeObject cm fuel h)
                   (jsonObject.*1) o jsonObject seen);
          let jsonObject :=
            if cmarked c
            then prop_set jsonObject "SERIALIZED_CLASS" (SLive (VBool true))
            else jsonObject in
          Ok (SNode jsonObject, seen)
        | None => Ok (SLive instance, seen)
        end
      end
    end
  | _ => Ok (SLive instance, seen)
  end.
Proof. reflexivity. Qed.

Lemma deserializeObject_S (cm : classMap) (fuel : nat) (jsonObject : json)
    (references : refs_table) (h : heap) :
  deserializeObject cm (S fuel) jsonObject references h =
  if json_isObject jsonObject then
    if truthy (field jsonObject "__ref")
    then Ok (refs_get references (field jsonObject "__ref"), references, h)
    else
      let id := field jsonObject "__id" in
      match match field jsonObject "__class" with
            | Some (JStr s) => prop_get cm s
            | _ => None
            end with
      | Some c =>
          shell ←
            (if bool_decide (c = Array_ctor) || bool_decide (cbrand c = BArray)
             then Ok SArray
             else if truthy (field jsonObject "__set") then Ok (SSet [])
             else if truthy (field jsonObject "__map") then Ok (SMap [])
             else if truthy (field jsonObject "__date")
                  then d ← date_argument (field jsonObject "date"); Ok (SDate (newDate d))
             else Ok SNone);
          let '(l, h) := alloc h (Obj (Some c) shell []) in
          let references := refs_set references id (VRef l) in
          '(references, h) ←
            (if bool_decide (cbrand c = BSet) then
               values ← iterate (field jsonObject "values");
               decode_values (deserializeObject cm fuel) l values references h
             else if bool_decide (cbrand c = BMap) then
               entries ← iterate (field jsonObject "entries");
               decode_entries (deserializeObject cm fuel) l entries references h
             else
               decode_props (deserializeObject cm fuel) jsonObject l
                 (members jsonObject) references h);
          Ok (VRef l, references, h)
      | None =>
          let '(l, h) := alloc h (Obj (Some Object_ctor) SNone []) in
          let references := refs_set references id (VRef l) in
          '(references, h) ←
            decode_plain (deserializeObject cm fuel) jsonObject l
              (members jsonObject) references h;
          Ok (VRef l, references, h)
      end
  else Ok (default VUndef (json_prim (Some jsonObject)), references, h).
Proof. reflexivity. Qed.

Lemma copyObject_S (fuel : nat) (instance : value) (seen : copy_table)
    (level : Z) (h : heap) :
  copyObject (S fuel) instance seen level h =
  match instance with
  | VRef l =>
    match copy_get seen l with
    | Some c => Ok (c, seen, h)
    | None =>
      if bool_decide (level = 0%Z) then Ok (instance, seen, h)
      else
        match h !! l with
        | None => Unmodelled
        | Some o =>
          c ← constructor_of o;
          shell ←
            (if bool_decide (c = Array_ctor) || instanceof o BArray then Ok SArray
             else if instanceof o BSet then Ok (SSet [])
             else if instanceof o BMap then Ok (SMap [])
             else if instanceof o BDate then
               match oslot o with
               | SDate t => Ok (SDate t)
               | _ => Throw TypeError
               end
             else Ok SNone);
          let '(cl, h) := alloc h (Obj (Some c) shell []) in
          let seen := seen ++ [(l, VRef cl)] in
          let next := if bool_decide (level = (-1)%Z) then (-1)%Z else (level - 1)%Z in
          '(seen, h) ←
            (if instanceof o BSet then
               match oslot o with
               | SSet items =>
                   copy_items (fun x seen => copyObject fuel x seen next) cl items seen h
               | _ => Throw TypeError
               end
             else if instanceof o BMap then
               match oslot o with
               | SMap entries =>
                   copy_entries (fun x seen => copyObject fuel x seen next) cl entries seen h
               | _ => Throw TypeError
               end
             else
               copy_props (fun x seen => copyObject fuel x seen next) o cl (props o) seen h);
          Ok (VRef cl, seen, h)
        end
    end
  | _ => Ok (instance, seen, h)
  end.
Proof. reflexivity. Qed.

Lemma stringify_live_S (fuel : nat) (h : heap) (stack : list loc) (v : value) :
  stringify_live (S fuel) h stack v =
  match v with
  | VUndef => Ok None
  | VNull => Ok (Some JNull)
  | VBool b => Ok (Some (JBool b))
  | VNum n => Ok (Some (JNum n))
  | VStr s => Ok (Some (JStr s))
  | VRef l =>
    match h !! l with
    | None => Unmodelled
    | Some o =>
      if has_own (props o) "toJSON" then Unmodelled
      else if instanceof o BDate then
        match oslot o with
        | SDate t => Date_toJSON o t
        | _ => Throw TypeError
        end
      else if match proto o with
              | Some c => bool_decide ("toJSON" ∈ cmembers c)
              | None => false
              end then Unmodelled
      else if bool_decide (l ∈ stack) then Throw TypeError
      else
        match oslot o with
        | SArray =>
            js ← stringify_elements (stringify_live fuel h (l :: stack))
                   (array_elements (props o));
            Ok (Some (JArr js))
        | _ =>
            ms ← stringify_members (stringify_live fuel h (l :: stack)) (props o);
            Ok (Some (JObj ms))
        end
    end
  end.
Proof. reflexivity. Qed.

Lemma stringify_S (fuel : nat) (h : heap) (s : sval) :
  stringify (S fuel) h s =
  match s with
  | SLive v => stringify_live fuel h [] v
  | SNode ps => ms ← stringify_members (stringify fuel h) ps; Ok (Some (JObj ms))
  | SList xs => js ← stringify_elements (stringify fuel h) xs; Ok (Some (JArr js))
  end.
Proof. reflexivity. Qed.

Arguments serializeObject : simpl never.
Arguments deserializeObject : simpl never.
Arguments copyObject : simpl never.
Arguments stringify_live : simpl never.
Arguments stringify : simpl never.
Arguments serialize_child : simpl never.
Arguments decode_child : simpl never.
Arguments copy_child : simpl never.

(** ** Property lists *)

Section props_lemmas.
Context {A : Type}.
Implicit Types ps : list (string * A).

Lemma prop_get_None ps k : prop_get ps k = None ↔ k ∉ ps.*1.
Proof.
  induction ps as [|[k0 v0] r IH]; csimpl.
  - split; [intros _; apply not_elem_of_nil | done].
  - rewrite not_elem_of_cons. destruct (decide (k0 = k)) as [->|Hne].
    + split; [done | intros []; done].
    + rewrite IH. naive_solver.
Qed.

Lemma prop_get_Some_elem ps k v : prop_get ps k = Some v → (k, v) ∈ ps.
Proof.
  induction ps as [|[k0 v0] r IH]; simpl; [done|].
  destruct (decide (k0 = k)) as [->|Hne].
  - intros [= ->]. left.
  - intros H. right. auto.
Qed.

Lemma prop_get_is_Some ps k : is_Some (prop_get ps k) ↔ k ∈ ps.*1.
Proof.
  destruct (prop_get ps k) eqn:E.
  - split; [intros _ | eauto].
    apply prop_get_Some_elem in E. apply list_elem_of_fmap. by exists (k, a).
  - apply prop_get_None in E. split; [intros [? [=]] | done].
Qed.

Lemma has_own_true ps k : has_own ps k = true ↔ k ∈ ps.*1.
Proof. unfold has_own. rewrite bool_decide_eq_true. apply prop_get_is_Some. Qed.

Lemma has_own_false ps k : has_own ps k = false ↔ k ∉ ps.*1.
Proof. unfold has_own. rewrite bool_decide_eq_false. by rewrite prop_get_is_Some. Qed.

Lemma prop_update_keys ps k v : (prop_update ps k v).*1 = ps.*1.
Proof.
  induction ps as [|[k0 v0] r IH]; csimpl; [done|].
  destruct (decide (k0 = k)); csimpl; [done|]. by rewrite IH.
Qed.

Lemma prop_insert_keys ps k v k' :
  k' ∈ (prop_insert ps k v).*1 ↔ k' = k ∨ k' ∈ ps.*1.
Proof.
  induction ps as [|[k0 v0] r IH]; csimpl.
  - rewrite list_elem_of_singleton. split; [auto | intros [|H]; [done|]].
    by apply elem_of_nil in H.
  - destruct (key_before k0 k); csimpl.
    + by rewrite !elem_of_cons.
    + rewrite !elem_of_cons, IH. naive_solver.
Qed.

Lemma prop_insert_NoDup ps k v :
  k ∉ ps.*1 → NoDup ps.*1 → NoDup (prop_insert ps k v).*1.
Proof.
  induction ps as [|[k0 v0] r IH]; csimpl; intros Hk Hnd.
  - apply NoDup_singleton.
  - destruct (key_before k0 k); csimpl.
    + by apply NoDup_cons.
    + apply not_elem_of_cons in Hk as [Hk0 Hk]. apply NoDup_cons in Hnd as [Hk0' Hnd].
      apply NoDup_cons. split; [|auto].
      rewrite prop_insert_keys. naive_solver.
Qed.

Lemma prop_set_keys ps k v k' :
  k' ∈ (prop_set ps k v).*1 ↔ k' = k ∨ k' ∈ ps.*1.
Proof.
  unfold prop_set. destruct (has_own ps k) eqn:E.
  - rewrite prop_update_keys. apply has_own_true in E. naive_solver.
  - apply prop_insert_keys.
Qed.

Lemma prop_set_NoDup ps k v : NoDup ps.*1 → NoDup (prop_set ps k v).*1.
Proof.
  unfold prop_set. destruct (has_own ps k) eqn:E.
  - by rewrite prop_update_keys.
  - apply has_own_false in E. by apply prop_insert_NoDup.
Qed.

Lemma prop_get_update_eq ps k v :
  is_Some (prop_get ps k) → prop_get (prop_update ps k v) k = Some v.
Proof.
  induction ps as [|[k0 v0] r IH]; simpl; [by intros [? [=]]|].
  destruct (decide (k0 = k)) as [->|Hne]; simpl.
  - by rewrite decide_True.
  - by rewrite decide_False.
Qed.

Lemma prop_get_update_ne ps k k' v :
  k ≠ k' → prop_get (prop_update ps k v) k' = prop_get ps k'.
Proof.
  intros Hne. induction ps as [|[k0 v0] r IH]; simpl; [done|].
  destruct (decide (k0 = k)) as [->|Hne0]; simpl.
  - by rewrite !decide_False.
  - by rewrite IH.
Qed.

Lemma prop_get_insert_eq ps k v :
  prop_get ps k = None → prop_get (prop_insert ps k v) k = Some v.
Proof.
  induction ps as [|[k0 v0] r IH]; simpl.
  - by rewrite decide_True.
  - destruct (decide (k0 = k)) as [->|Hne]; [done|]. intros Hr.
    destruct (key_before k0 k); simpl.
    + by rewrite decide_True.
    + rewrite decide_False by done. auto.
Qed.

Lemma prop_get_insert_ne ps k k' v :
  k ≠ k' → prop_get (prop_insert ps k v) k' = prop_get ps k'.
Proof.
  intros Hne. induction ps as [|[k0 v0] r IH]; simpl.
  - by rewrite decide_False.
  - destruct (key_before k0 k); simpl.
    + by rewrite (decide_False (P := k = k')).
    + by rewrite IH.
Qed.

Lemma prop_get_set_eq ps k v : prop_get (prop_set ps k v) k = Some v.
Proof.
  unfold prop_set, has_own. case_bool_decide as E.
  - by apply prop_get_update_eq.
  - apply prop_get_insert_eq. destruct (prop_get ps k); [|done].
    destruct E; eauto.
Qed.

Lemma prop_get_set_ne ps k k' v :
  k ≠ k' → prop_get (prop_set ps k v) k' = prop_get ps k'.
Proof.
  intros Hne. unfold prop_set. destruct (has_own ps k).
  - by apply prop_get_update_ne.
  - by apply prop_get_insert_ne.
Qed.
End props_lemmas.

(** ** Identifiers *)

Lemma string_of_uint_digits (d : Decimal.uint) :
  all_digits (NilEmpty.string_of_uint d) = true.
Proof. induction d; simpl; auto. Qed.

Lemma show_nat_digits (n : nat) : all_digits (show_nat n) = true.
Proof. apply string_of_uint_digits. Qed.

Lemma show_nat_inj (n m : nat) : show_nat n = show_nat m → n = m.
Proof.
  unfold show_nat. intros H.
  assert (Some (Nat.to_uint n) = Some (Nat.to_uint m)) as [= E].
  { by rewrite <- !NilEmpty.usu, H. }
  by rewrite <- (Unsigned.of_to n), <- (Unsigned.of_to m), E.
Qed.

Lemma append_nil_l (s : string) : "" +:+ s = s.
Proof. done. Qed.

Lemma append_cons (c : ascii) (r s : string) : String c r +:+ s = String c (r +:+ s).
Proof. done. Qed.

Ltac append_simpl := repeat (rewrite append_nil_l || rewrite append_cons).

Lemma all_digits_underscore (a b : string) :
  all_digits (a +:+ String "_" b) = false.
Proof.
  induction a as [|c a IH]; [done|].
  change (is_digit c && all_digits (a +:+ String "_" b) = false).
  rewrite IH. apply andb_false_r.
Qed.

(** An id determines both the class name and the table size it was built
    from: the decimal suffix holds no underscore. *)
Lemma id_inj (a b d1 d2 : string) :
  all_digits d1 = true → all_digits d2 = true →
  a +:+ "_" +:+ d1 = b +:+ "_" +:+ d2 → a = b ∧ d1 = d2.
Proof.
  intros H1 H2. revert b. induction a as [|c a IH]; intros [|c' b]; append_simpl.
  - by intros [= ->].
  - intros [= <- ->]. by rewrite all_digits_underscore in H1.
  - intros [= -> <-]. by rewrite all_digits_underscore in H2.
  - intros [= -> E]. destruct (IH _ E) as [-> ->]. done.
Qed.

(** ** Outcomes *)

Lemma bind_Ok {A B} (f : A → outcome B) (m : outcome A) (b : B) :
  m ≫= f = Ok b → ∃ a, m = Ok a ∧ f a = Ok b.
Proof. destruct m; simpl; [eauto | done..]. Qed.

Ltac inv_bind H :=
  let a := fresh "a" in
  let E := fresh "E" in
  apply bind_Ok in H as (a & E & H).

(** ** The visited table of one serialize traversal *)

Lemma seen_get_None (seen : seen_table) (l : loc) :
  seen_get seen l = None ↔ l ∉ seen.*1.
Proof.
  induction seen as [|[l0 id0] r IH]; csimpl.
  - split; [intros _; apply not_elem_of_nil | done].
  - rewrite not_elem_of_cons. destruct (decide (l0 = l)) as [->|Hne].
    + split; [done | intros []; done].
    + rewrite IH. naive_solver.
Qed.

Lemma seen_get_Some (seen : seen_table) (l : loc) (id : string) :
  seen_get seen l = Some id → (l, id) ∈ seen.
Proof.
  induction seen as [|[l0 id0] r IH]; simpl; [done|].
  destruct (decide (l0 = l)) as [->|Hne].
  - intros [= ->]. left.
  - intros H. right. auto.
Qed.


Lemma seen_get_snoc (seen : seen_table) (l : loc) (id : string) :
  seen_get seen l = None → seen_get (seen ++ [(l, id)]) l = Some id.
Proof.
  induction seen as [|[l0 id0] r IH]; simpl.
  - by rewrite decide_True.
  - destruct (decide (l0 = l)); [done | auto].
Qed.

(** Every entry of the table names an object of the heap, and its id is the
    class name of that object followed by ["_"] and the position of the
    entry, which is the size the table had when the entry was made.  No
    identity has two entries. *)
Definition seen_ok (h : heap) (seen : seen_table) : Prop :=
  NoDup seen.*1 ∧
  ∀ i l id, seen !! i = Some (l, id) →
    ∃ o c, h !! l = Some o ∧ constructor_of o = Ok c ∧
           id = getClassName (cname c) +:+ "_" +:+ show_nat i.

Lemma seen_ok_nil (h : heap) : seen_ok h [].
Proof. split; [constructor | by intros ? ? ? ?]. Qed.

Lemma seen_ok_snoc (h : heap) (seen : seen_table) (l : loc) (o : obj) (c : ctor) :
  seen_ok h seen → seen_get seen l = None →
  h !! l = Some o → constructor_of o = Ok c →
  seen_ok h (seen ++ [(l, getClassName (cname c) +:+ "_" +:+ show_nat (length seen))]).
Proof.
  intros [Hnd Hid] Hl Ho Hc. split.
  - rewrite fmap_app. apply NoDup_app. split_and!; [done| |apply NoDup_singleton].
    intros x Hx Hin. csimpl in Hin. apply list_elem_of_singleton in Hin as ->.
    by apply seen_get_None in Hl.
  - intros i l' id' Hi. apply lookup_app_Some in Hi as [Hi|[Hlen Hi]]; [eauto|].
    apply list_lookup_singleton_Some in Hi as [Hi [= <- <-]].
    exists o, c. split_and!; [done..|]. do 3 f_equal. lia.
Qed.

(** The ids of a table are pairwise distinct. *)
Lemma seen_ok_ids_NoDup (h : heap) (seen : seen_table) :
  seen_ok h seen → NoDup seen.*2.
Proof.
  intros [_ Hid]. apply NoDup_alt. intros i j id Hi Hj.
  apply list_lookup_fmap_Some in Hi as ([l1 id1] & -> & Hi).
  apply list_lookup_fmap_Some in Hj as ([l2 id2] & E & Hj). simpl in E. subst id2.
  destruct (Hid _ _ _ Hi) as (o1 & c1 & _ & _ & E1).
  destruct (Hid _ _ _ Hj) as (o2 & c2 & _ & _ & E2).
  rewrite E1 in E2. apply id_inj in E2 as [_ E2]; auto using show_nat_digits.
  by apply show_nat_inj.
Qed.

Section encoder_invariant.
Variable cm : classMap.
Variable h : heap.

(** what one call of the encoder does to the table *)
Definition table_step (rec : value → seen_table → outcome (sval * seen_table)) : Prop :=
  ∀ v seen s seen',
    seen_ok h seen → rec v seen = Ok (s, seen') →
    seen_ok h seen' ∧ seen `prefix_of` seen'.

Variable rec : value → seen_table → outcome (sval * seen_table).
Hypothesis Hrec : table_step rec.

Lemma serialize_child_table v seen s seen' :
  seen_ok h seen → serialize_child rec v seen = Ok (s, seen') →
  seen_ok h seen' ∧ seen `prefix_of` seen'.
Proof using Hrec.
  unfold serialize_child. destruct (isObject v); [by apply Hrec|].
  by intros ? [= <- <-].
Qed.

Lemma serialize_items_table items seen ss seen' :
  seen_ok h seen → serialize_items rec items seen = Ok (ss, seen') →
  seen_ok h seen' ∧ seen `prefix_of` seen'.
Proof using Hrec.
  revert seen ss. induction items as [|x r IH]; intros seen ss Hok H; simpl in H.
  - by injection H as <- <-.
  - inv_bind H. destruct a as [s1 seen1].
    apply serialize_child_table in E as [Hok1 Hp1]; [|done].
    inv_bind H. destruct a as [s2 seen2]. injection H as <- <-.
    apply IH in E as [Hok2 Hp2]; [|done]. split; [done | by etrans].
Qed.

Lemma serialize_entries_table entries seen ss seen' :
  seen_ok h seen → serialize_entries rec entries seen = Ok (ss, seen') →
  seen_ok h seen' ∧ seen `prefix_of` seen'.
Proof using Hrec.
  revert seen ss. induction entries as [|[k x] r IH]; intros seen ss Hok H; simpl in H.
  - by injection H as <- <-.
  - inv_bind H. destruct a as [s1 seen1].
    apply serialize_child_table in E as [Hok1 Hp1]; [|done].
    inv_bind H. destruct a as [s2 seen2].
    apply serialize_child_table in E as [Hok2 Hp2]; [|done].
    inv_bind H. destruct a as [s3 seen3]. injection H as <- <-.
    apply IH in E as [Hok3 Hp3]; [|done]. split; [done | by do 2 etrans].
Qed.

Lemma serialize_props_table keys instance jsonObject seen jsonObject' seen' :
  seen_ok h seen →
  serialize_props rec keys instance jsonObject seen = Ok (jsonObject', seen') →
  seen_ok h seen' ∧ seen `prefix_of` seen'.
Proof using Hrec.
  revert jsonObject seen. induction keys as [|k r IH]; intros jo seen Hok H; simpl in H.
  - by injection H as <- <-.
  - inv_bind H. destruct a.
    + inv_bind H. destruct a as [s1 seen1].
      apply serialize_child_table in E0 as [Hok1 Hp1]; [|done].
      apply IH in H as [Hok2 Hp2]; [|done]. split; [done | by etrans].
    + by apply IH in H.
Qed.
End encoder_invariant.

(** the table after a call on [v], in terms of the table before *)
Definition root_entry (h : heap) (v : value) (seen : seen_table) (s : sval)
    (seen' : seen_table) : Prop :=
  match v with
  | VRef l =>
      match seen_get seen l with
      | Some id => s = SNode [("__ref", SLive (VStr id))] ∧ seen' = seen
      | None =>
          ∃ o c rest,
            h !! l = Some o ∧ constructor_of o = Ok c ∧
            seen' = seen ++ (l, getClassName (cname c) +:+ "_" +:+ show_nat (length seen)) :: rest
      end
  | _ => s = SLive v ∧ seen' = seen
  end.

Lemma serializeObject_table (cm : classMap) (h : heap) (fuel : nat)
    (v : value) (seen : seen_table) (s : sval) (seen' : seen_table) :
  seen_ok h seen → serializeObject cm fuel h v seen = Ok (s, seen') →
  (seen_ok h seen' ∧ seen `prefix_of` seen') ∧ root_entry h v seen s seen'.
Proof.
  revert v seen s seen'. induction fuel as [|fuel IH]; intros v seen s seen' Hok H;
    [done|].
  assert (table_step h (serializeObject cm fuel h)) as Hrec.
  { intros ? ? ? ? ? ?. by eapply IH. }
  rewrite serializeObject_S in H. unfold root_entry.
  destruct v as [| | | | |l]; try (by injection H as <- <-).
  destruct (seen_get seen l) as [id|] eqn:Hget; [by injection H as <- <-|].
  destruct (h !! l) as [o|] eqn:Ho; [|done].
  inv_bind H. rename a into c. cbv zeta in H.
  pose proof (seen_ok_snoc _ _ _ _ _ Hok Hget Ho E) as Hok1.
  set (id := getClassName (cname c) +:+ "_" +:+ show_nat (length seen)) in *.
  assert (∀ seen2, (seen ++ [(l, id)]) `prefix_of` seen2 →
            seen `prefix_of` seen2 ∧ ∃ rest, seen2 = seen ++ (l, id) :: rest) as Hpre.
  { intros seen2 [k ->]. rewrite <- app_assoc. split; [by eexists | by exists k]. }
  destruct (prop_get cm (getClassName (cname c))) as [c'|]; cycle 1.
  { injection H as <- <-. split; [split; [done | by apply prefix_app_r]|].
    by exists o, c, []. }
  inv_bind H. destruct a as [jo seen2]. injection H as <- <-.
  assert (seen_ok h seen2 ∧ (seen ++ [(l, id)]) `prefix_of` seen2) as [Hok2 Hp2].
  { destruct (instanceof o BSet).
    { destruct (oslot o); try done. inv_bind E0. destruct a as [vs seen3].
      injection E0 as <- <-. by eapply serialize_items_table. }
    destruct (instanceof o BMap).
    { destruct (oslot o); try done. inv_bind E0. destruct a as [vs seen3].
      injection E0 as <- <-. by eapply serialize_entries_table. }
    destruct (instanceof o BDate).
    { destruct (oslot o); try done. inv_bind E0. by injection E0 as <- <-. }
    destruct (has_own (props o) "__proto__"); [done|].
    by eapply serialize_props_table. }
  destruct (Hpre _ Hp2) as [Hp [rest Hrest]].
  split; [done|]. by exists o, c, rest.
Qed.


(** ** The heap as an arena *)

Lemma alloc_lookup (h : heap) (o : obj) : (h ++ [o]) !! length h = Some o.
Proof. by apply list_lookup_middle. Qed.

Lemma alloc_insert (h : heap) (o o' : obj) : <[length h := o']> (h ++ [o]) = h ++ [o'].
Proof. rewrite insert_app_r_alt by lia. by rewrite Nat.sub_diag. Qed.

(** [H'] agrees with [H] below [l] and is no shorter *)
Definition grows_above (l : loc) (H H' : heap) : Prop :=
  take l H' = take l H ∧ length H ≤ length H'.

Lemma grows_above_refl (l : loc) (H : heap) : grows_above l H H.
Proof. by split. Qed.

Lemma grows_above_trans (l : loc) (H1 H2 H3 : heap) :
  grows_above l H1 H2 → grows_above l H2 H3 → grows_above l H1 H3.
Proof. intros [E1 L1] [E2 L2]. split; [congruence | lia]. Qed.

Lemma grows_above_prefix (l : loc) (H H' : heap) :
  l ≤ length H → H `prefix_of` H' → grows_above l H H'.
Proof.
  intros Hl [k ->]. split; [by apply take_app_le | rewrite length_app; lia].
Qed.

Lemma grows_above_insert (l l' : loc) (H : heap) (o : obj) :
  l ≤ l' → grows_above l H (<[l' := o]> H).
Proof. intros Hl. split; [by apply take_insert_ge | by rewrite length_insert]. Qed.

Lemma grows_above_alloc (h H' : heap) (o : obj) :
  grows_above (length h) (h ++ [o]) H' → h `prefix_of` H'.
Proof.
  intros [E _]. rewrite take_app_length in E. rewrite <- E. apply prefix_take.
Qed.

Lemma Set_add_inv (H : heap) (l : loc) (v : value) (H' : heap) :
  Set_add H l v = Ok H' → ∃ p items ps,
    H !! l = Some (Obj p (SSet items) ps)
    ∧ H' = <[l := Obj p (SSet (set_add items v)) ps]> H.
Proof.
  unfold Set_add. destruct (H !! l) as [[p [] ps]|]; try done.
  intros [= <-]. eauto.
Qed.

Lemma Map_set_inv (H : heap) (l : loc) (k v : value) (H' : heap) :
  Map_set H l k v = Ok H' → ∃ p entries ps,
    H !! l = Some (Obj p (SMap entries) ps)
    ∧ H' = <[l := Obj p (SMap (map_set entries k v)) ps]> H.
Proof.
  unfold Map_set. destruct (H !! l) as [[p [] ps]|]; try done.
  intros [= <-]. eauto.
Qed.

Lemma heap_update_inv (H : heap) (l : loc) (f : obj → obj) (H' : heap) :
  heap_update H l f = Ok H' → ∃ o, H !! l = Some o ∧ H' = <[l := f o]> H.
Proof. unfold heap_update. destruct (H !! l); [|done]. intros [= <-]. eauto. Qed.

Lemma assign_plain_inv (H : heap) (l : loc) (key : string) (v : value) (H' : heap) :
  key ≠ "__proto__" →
  assign_plain H l key v = Ok H' →
  ∃ o, H !! l = Some o ∧ H' = <[l := with_props (λ ps, prop_set ps key v) o]> H.
Proof.
  intros Hk. unfold assign_plain. destruct (H !! l); [|done].
  rewrite decide_False by done. intros [= <-]. eauto.
Qed.

Lemma assign_plain_grows (H : heap) (l : loc) (key : string) (v : value) (H' : heap) :
  assign_plain H l key v = Ok H' → grows_above l H H'.
Proof.
  unfold assign_plain. destruct (H !! l) as [o|]; [|done].
  destruct (decide _); [destruct (proto o), v|]; intros [= <-];
    auto using grows_above_refl, grows_above_insert.
Qed.

(** ** Decoding only appends to the heap *)

Definition heap_step
    (rec : json → refs_table → heap → outcome (value * refs_table * heap)) : Prop :=
  ∀ x refs h v refs' h', rec x refs h = Ok (v, refs', h') → h `prefix_of` h'.

Section decoder_frame.
Variable rec : json → refs_table → heap → outcome (value * refs_table * heap).
Hypothesis Hrec : heap_step rec.

Lemma decode_child_frame x refs h v refs' h' :
  decode_child rec x refs h = Ok (v, refs', h') → h `prefix_of` h'.
Proof using Hrec.
  unfold decode_child. destruct x as [j|], (json_prim _);
    try (by intros [= <- <- <-]). apply Hrec.
Qed.

Lemma decode_values_frame l values refs H refs' H' :
  l < length H →
  decode_values rec l values refs H = Ok (refs', H') → grows_above l H H'.
Proof using Hrec.
  revert refs H. induction values as [|x r IH]; intros refs H Hl E; simpl in E.
  - injection E as <- <-. apply grows_above_refl.
  - inv_bind E. destruct a as [[v refs1] H1]. inv_bind E. rename a into H2.
    apply decode_child_frame in E0.
    apply Set_add_inv in E1 as (p & items & ps & _ & ->).
    pose proof (grows_above_prefix l _ _ (Nat.lt_le_incl _ _ Hl) E0) as G1.
    eapply grows_above_trans; [done|].
    eapply grows_above_trans; [by apply (grows_above_insert l l)|].
    eapply IH; [|done]. rewrite length_insert. destruct G1. lia.
Qed.

Lemma decode_entries_frame l entries refs H refs' H' :
  l < length H →
  decode_entries rec l entries refs H = Ok (refs', H') → grows_above l H H'.
Proof using Hrec.
  revert refs H. induction entries as [|x r IH]; intros refs H Hl E; simpl in E.
  - injection E as <- <-. apply grows_above_refl.
  - inv_bind E. rename a into kv. inv_bind E. destruct a as [[k refs1] H1].
    inv_bind E. destruct a as [[v refs2] H2]. inv_bind E. rename a into H3.
    apply decode_child_frame in E1, E2.
    apply Map_set_inv in E3 as (p & es & ps & _ & ->).
    assert (grows_above l H H2) as G.
    { apply grows_above_prefix; [lia | by etrans]. }
    eapply grows_above_trans; [done|].
    eapply grows_above_trans; [by apply (grows_above_insert l l)|].
    eapply IH; [|done]. rewrite length_insert. destruct G. lia.
Qed.

Lemma decode_props_frame j l ms refs H refs' H' :
  l < length H →
  decode_props rec j l ms refs H = Ok (refs', H') → grows_above l H H'.
Proof using Hrec.
  revert refs H. induction ms as [|[key x] r IH]; intros refs H Hl E; simpl in E.
  - injection E as <- <-. apply grows_above_refl.
  - destruct (has_own (members j) "hasOwnProperty"); [done|].
    destruct (bool_decide (key ≠ "__class") && bool_decide (key ≠ "__id")); [|eauto].
    destruct (H !! l) as [o|]; [|done].
    destruct (defined_on o key); [eauto|].
    inv_bind E. destruct a as [[v refs1] H1]. inv_bind E. rename a into H2.
    apply decode_child_frame in E0.
    apply heap_update_inv in E1 as (o1 & _ & ->).
    pose proof (grows_above_prefix l _ _ (Nat.lt_le_incl _ _ Hl) E0) as G1.
    eapply grows_above_trans; [done|].
    eapply grows_above_trans; [by apply (grows_above_insert l l)|].
    eapply IH; [|done]. rewrite length_insert. destruct G1. lia.
Qed.

Lemma decode_plain_frame j l ms refs H refs' H' :
  l < length H →
  decode_plain rec j l ms refs H = Ok (refs', H') → grows_above l H H'.
Proof using Hrec.
  revert refs H. induction ms as [|[key x] r IH]; intros refs H Hl E; simpl in E.
  - injection E as <- <-. apply grows_above_refl.
  - destruct (has_own (members j) "hasOwnProperty"); [done|].
    destruct (bool_decide (key ≠ "__class") && bool_decide (key ≠ "__id")); [|eauto].
    inv_bind E. destruct a as [[v refs1] H1]. inv_bind E. rename a into H2.
    apply decode_child_frame in E0. apply assign_plain_grows in E1.
    pose proof (grows_above_prefix l _ _ (Nat.lt_le_incl _ _ Hl) E0) as G1.
    eapply grows_above_trans; [done|].
    eapply grows_above_trans; [done|].
    eapply IH; [|done]. destruct G1, E1. lia.
Qed.
End decoder_frame.

Lemma deserializeObject_frame (cm : classMap) (fuel : nat) :
  heap_step (deserializeObject cm fuel).
Proof.
  induction fuel as [|fuel IH]; intros j refs h v refs' h' E; [done|].
  rewrite deserializeObject_S in E.
  destruct (json_isObject j); [|by injection E as <- <- <-].
  destruct (truthy (field j "__ref")); [by injection E as <- <- <-|].
  cbv zeta in E.
  assert (length h < length (h ++ [Obj (Some Object_ctor) SNone []])) as Hlen0.
  { rewrite length_app. simpl. lia. }
  destruct (match field j "__class" with Some (JStr s) => prop_get cm s | _ => None end)
    as [c|].
  - inv_bind E. rename a into shell. unfold alloc in E.
    assert (length h < length (h ++ [Obj (Some c) shell []])) as Hlen.
    { rewrite length_app. simpl. lia. }
    inv_bind E. destruct a as [refs1 H1]. injection E as <- <- <-.
    eapply grows_above_alloc.
    destruct (bool_decide (cbrand c = BSet)).
    { inv_bind E1. by eapply decode_values_frame. }
    destruct (bool_decide (cbrand c = BMap)).
    { inv_bind E1. by eapply decode_entries_frame. }
    by eapply decode_props_frame.
  - unfold alloc in E. inv_bind E. destruct a as [refs1 H1]. injection E as <- <- <-.
    eapply grows_above_alloc. by eapply decode_plain_frame.
Qed.

(** ** Full copies *)

(** The keys of an object are listed in enumeration order: no later key
    would have been placed before an earlier one. *)
Fixpoint canonical_keys (ks : list string) : bool :=
  match ks with
  | [] => true
  | k0 :: r => forallb (λ k, negb (key_before k0 k)) r && canonical_keys r
  end.

(** a primitive, or the address of an object of a heap of size [n] *)
Definition value_valid (n : nat) (v : value) : bool :=
  match v with VRef l => bool_decide (l < n) | _ => true end.

(** The objects [copyObject] copies in full: the object has a constructor,
    its internal slot is the one of its built-in ancestry, no own property
    hides [constructor] or [hasOwnProperty] or has a name that a fresh shell
    of its class already defines, the members of a set and the keys of a map
    are pairwise distinct, a set or map has no own properties, and every
    reference leads to an object of the heap. *)
Definition copyable_obj (n : nat) (o : obj) : bool :=
  match proto o with
  | None => false
  | Some c =>
      negb (has_own (props o) "constructor")
      && negb (has_own (props o) "hasOwnProperty")
      && bool_decide (NoDup (props o).*1)
      && canonical_keys (props o).*1
      && forallb (value_valid n) (props o).*2
      && forallb (λ k, negb (inherited o k)) (props o).*1
      && match cbrand c, oslot o with
         | BObject, SNone | BArray, SArray | BDate, SDate _ => true
         | BSet, SSet items =>
             bool_decide (NoDup items) && forallb (value_valid n) items
             && bool_decide (props o = [])
         | BMap, SMap entries =>
             bool_decide (NoDup entries.*1)
             && forallb (value_valid n) entries.*1
             && forallb (value_valid n) entries.*2
             && bool_decide (props o = [])
         | _, _ => false
         end
  end.

Definition copyable (h : heap) : bool := forallb (copyable_obj (length h)) h.

(** [v'] is what the table makes of [v]: a primitive is kept, a reference
    is replaced by the copy recorded for it. *)
Definition renamed (seen : copy_table) (v v' : value) : Prop :=
  match v with
  | VRef l => copy_get seen l = Some v'
  | _ => v' = v
  end.

Definition slot_renamed (seen : copy_table) (s s' : slot) : Prop :=
  match s, s' with
  | SNone, SNone | SArray, SArray => True
  | SSet items, SSet items' => Forall2 (renamed seen) items items'
  | SMap entries, SMap entries' =>
      Forall2 (λ e e', renamed seen e.1 e'.1 ∧ renamed seen e.2 e'.2) entries entries'
  | SDate t, SDate t' => t = t'
  | _, _ => False
  end.

Definition props_renamed (seen : copy_table) (ps ps' : list (string * value)) : Prop :=
  Forall2 (λ kv kv', kv'.1 = kv.1 ∧ renamed seen kv.2 kv'.2) ps ps'.

(** [o'] has the prototype of [o] and the same slot, elements and own
    properties in the same order, up to the table *)
Definition copy_of (seen : copy_table) (o o' : obj) : Prop :=
  proto o' = proto o
  ∧ slot_renamed seen (oslot o) (oslot o')
  ∧ props_renamed seen (props o) (props o').

(** the object at [l] in [h] has a finished copy in [H] *)
Definition copied (seen : copy_table) (h H : heap) (l : loc) : Prop :=
  ∃ l' o o',
    copy_get seen l = Some (VRef l') ∧ h !! l = Some o ∧ H !! l' = Some o'
    ∧ copy_of seen o o'.

(** The table maps objects of the source heap (addresses below [N]) to
    objects allocated after it, one to one. *)
Definition copy_table_ok (N : nat) (seen : copy_table) (H : heap) : Prop :=
  NoDup seen.*1 ∧ NoDup seen.*2
  ∧ ∀ l c, (l, c) ∈ seen → l < N ∧ ∃ l', c = VRef l' ∧ N ≤ l' < length H.

Lemma copy_get_None (seen : copy_table) (l : loc) :
  copy_get seen l = None ↔ l ∉ seen.*1.
Proof.
  induction seen as [|[l0 c0] r IH]; csimpl.
  - split; [intros _; apply not_elem_of_nil | done].
  - rewrite not_elem_of_cons. destruct (decide (l0 = l)) as [->|Hne].
    + split; [done | intros []; done].
    + rewrite IH. naive_solver.
Qed.

Lemma copy_get_Some (seen : copy_table) (l : loc) (c : value) :
  copy_get seen l = Some c → (l, c) ∈ seen.
Proof.
  induction seen as [|[l0 c0] r IH]; simpl; [done|].
  destruct (decide (l0 = l)) as [->|Hne].
  - intros [= ->]. left.
  - intros H. right. auto.
Qed.

Lemma copy_get_app (seen rest : copy_table) (l : loc) (c : value) :
  copy_get seen l = Some c → copy_get (seen ++ rest) l = Some c.
Proof.
  induction seen as [|[l0 c0] r IH]; simpl; [done|].
  destruct (decide (l0 = l)); auto.
Qed.

Lemma copy_get_snoc (seen : copy_table) (l : loc) (c : value) :
  copy_get seen l = None → copy_get (seen ++ [(l, c)]) l = Some c.
Proof.
  induction seen as [|[l0 c0] r IH]; simpl.
  - by rewrite decide_True.
  - destruct (decide (l0 = l)); [done | auto].
Qed.

Lemma copy_get_prefix (seen seen' : copy_table) (l : loc) (c : value) :
  seen `prefix_of` seen' → copy_get seen l = Some c → copy_get seen' l = Some c.
Proof. intros [k ->]. apply copy_get_app. Qed.

Lemma renamed_prefix (seen seen' : copy_table) (v v' : value) :
  seen `prefix_of` seen' → renamed seen v v' → renamed seen' v v'.
Proof. intros Hp. destruct v; simpl; eauto using copy_get_prefix. Qed.

Lemma renamed_inj (N : nat) (seen : copy_table) (H : heap) (v1 v2 v' : value) :
  copy_table_ok N seen H →
  renamed seen v1 v' → renamed seen v2 v' → v1 = v2.
Proof.
  intros (_ & Hnd & Hval) H1 H2.
  assert (∀ l c, copy_get seen l = Some c → ∃ l', c = VRef l') as Href.
  { intros l c Hl%copy_get_Some. destruct (Hval _ _ Hl) as (_ & l' & -> & _). eauto. }
  destruct v1 as [| | | | |l1], v2 as [| | | | |l2]; simpl in *; subst;
    try done; try (by apply Href in H1 as [? [=]]); try (by apply Href in H2 as [? [=]]).
  apply copy_get_Some, list_elem_of_lookup in H1 as [i Hi].
  apply copy_get_Some, list_elem_of_lookup in H2 as [j Hj].
  assert (i = j) as ->.
  { eapply NoDup_lookup; [done | |]; by rewrite list_lookup_fmap; erewrite ?Hi, ?Hj. }
  congruence.
Qed.

Lemma renamed_valid (N : nat) (seen : copy_table) (H : heap) (v v' : value) :
  copy_table_ok N seen H → renamed seen v v' → value_valid (length H) v' = true.
Proof.
  intros (_ & _ & Hval). destruct v; simpl; try (by intros ->).
  intros Hl%copy_get_Some. destruct (Hval _ _ Hl) as (_ & l' & -> & ?).
  simpl. apply bool_decide_eq_true. lia.
Qed.

(** [H'] is no shorter than [H] and agrees with it except at [cl] *)
Definition frame_except (cl : loc) (H H' : heap) : Prop :=
  length H ≤ length H' ∧ ∀ i, i < length H → i ≠ cl → H' !! i = H !! i.

Lemma frame_except_refl (cl : loc) (H : heap) : frame_except cl H H.
Proof. by split. Qed.

Lemma frame_except_trans (cl : loc) (H1 H2 H3 : heap) :
  frame_except cl H1 H2 → frame_except cl H2 H3 → frame_except cl H1 H3.
Proof.
  intros [L1 E1] [L2 E2]. split; [lia|]. intros i Hi Hne.
  rewrite E2, E1 by (done || lia). done.
Qed.

Lemma frame_except_prefix (cl : loc) (H H' : heap) :
  H `prefix_of` H' → frame_except cl H H'.
Proof.
  intros Hp. split; [by apply prefix_length|]. intros i Hi _.
  symmetry. by apply prefix_lookup_lt.
Qed.

Lemma frame_except_insert (cl : loc) (H : heap) (o : obj) :
  frame_except cl H (<[cl := o]> H).
Proof.
  split; [by rewrite length_insert|]. intros i _ Hne. by apply list_lookup_insert_ne.
Qed.

Lemma frame_except_below (cl : loc) (h H H' : heap) :
  length h ≤ cl → h `prefix_of` H → frame_except cl H H' → h `prefix_of` H'.
Proof.
  intros Hcl Hp [L E].
  assert (take (length h) H' = h) as <-; [|apply prefix_take].
  apply list_eq. intros i. destruct (decide (i < length h)) as [Hi|Hi].
  - rewrite lookup_take_lt by done. pose proof (prefix_length _ _ Hp).
    rewrite E by lia. symmetry. by apply prefix_lookup_lt.
  - rewrite lookup_take_ge by lia. symmetry. apply lookup_ge_None. lia.
Qed.

Lemma copied_mono (seen seen' : copy_table) (h H H' : heap) (cl l : loc) :
  seen `prefix_of` seen' → frame_except cl H H' →
  copy_get seen l ≠ Some (VRef cl) →
  copied seen h H l → copied seen' h H' l.
Proof.
  intros Hp [L E] Hne (l' & o & o' & Hl & Ho & Ho' & Hproto & Hslot & Hprops).
  exists l', o, o'. unfold copy_of.
  split_and!; [by eapply copy_get_prefix | done | | done | |].
  - rewrite E; [done | by eapply lookup_lt_Some | congruence].
  - destruct (oslot o), (oslot o'); simpl in *; try done.
    + eapply Forall2_impl; [done|]. eauto using renamed_prefix.
    + eapply Forall2_impl; [done|]. intros ? ? []. eauto using renamed_prefix.
  - eapply Forall2_impl; [done|]. intros ? ? []. eauto using renamed_prefix.
Qed.

Lemma canonical_keys_app_cons (a : list string) (k : string) (b : list string) :
  canonical_keys (a ++ k :: b) = true → Forall (λ k0, key_before k0 k = false) a.
Proof.
  induction a as [|k0 a IH]; simpl; [by constructor|].
  intros [Hk0 Hr]%andb_true_iff. constructor; [|auto].
  rewrite forallb_app in Hk0. apply andb_true_iff in Hk0 as [_ Hk0]. simpl in Hk0.
  apply andb_true_iff in Hk0 as [Hk0 _]. by apply negb_true_iff.
Qed.

Lemma prop_insert_snoc {A} (ps : list (string * A)) (k : string) (v : A) :
  Forall (λ k0, key_before k0 k = false) ps.*1 → prop_insert ps k v = ps ++ [(k, v)].
Proof.
  induction ps as [|[k0 v0] r IH]; csimpl; [done|].
  intros [Hk0 Hr]%Forall_cons. rewrite Hk0. by rewrite IH.
Qed.

Lemma prop_set_snoc {A} (ps : list (string * A)) (k : string) (v : A) :
  k ∉ ps.*1 → Forall (λ k0, key_before k0 k = false) ps.*1 →
  prop_set ps k v = ps ++ [(k, v)].
Proof.
  intros Hk Hc. unfold prop_set. apply has_own_false in Hk. rewrite Hk.
  by apply prop_insert_snoc.
Qed.

Lemma set_add_snoc (items : list value) (v : value) :
  v ∉ items → set_add items v = items ++ [v].
Proof. intros Hv. unfold set_add. by rewrite bool_decide_eq_false_2. Qed.

Lemma map_set_snoc (entries : list (value * value)) (k v : value) :
  k ∉ entries.*1 → map_set entries k v = entries ++ [(k, v)].
Proof.
  induction entries as [|[k0 v0] r IH]; csimpl; [done|].
  intros [Hk0 Hr]%not_elem_of_cons. rewrite decide_False by done. by rewrite IH.
Qed.

Lemma NoDup_bounded_length (N : nat) (ls : list nat) :
  NoDup ls → (∀ l, l ∈ ls → l < N) → length ls ≤ N.
Proof.
  intros Hnd Hb. rewrite <- (length_seq N 0). apply submseteq_length.
  apply NoDup_submseteq; [done|]. intros l Hl. apply elem_of_seq. specialize (Hb l Hl). lia.
Qed.

Lemma copy_table_ok_length (N : nat) (seen : copy_table) (H : heap) :
  copy_table_ok N seen H → length seen ≤ N.
Proof.
  intros (Hnd & _ & Hval). rewrite <- (length_fmap fst). apply NoDup_bounded_length; [done|].
  intros l ([l0 c] & -> & Hin)%list_elem_of_fmap. by apply Hval in Hin as [? _].
Qed.

Lemma copy_table_ok_heap (N : nat) (seen : copy_table) (H H' : heap) :
  length H ≤ length H' → copy_table_ok N seen H → copy_table_ok N seen H'.
Proof.
  intros HL (Hk & Hv & Hval). split_and!; [done..|].
  intros l c Hin. destruct (Hval l c Hin) as (? & l' & -> & ?).
  split; [done|]. exists l'. split; [done | lia].
Qed.

Lemma copy_table_ok_snoc (N : nat) (seen : copy_table) (H : heap) (l : loc) (o : obj) :
  copy_table_ok N seen H → copy_get seen l = None → l < N → N ≤ length H →
  copy_table_ok N (seen ++ [(l, VRef (length H))]) (H ++ [o]).
Proof.
  intros (Hk & Hv & Hval) Hl HlN HN. split_and!.
  - rewrite fmap_app. apply NoDup_app. split_and!; [done| |apply NoDup_singleton].
    intros x Hx Hin. csimpl in Hin. apply list_elem_of_singleton in Hin as ->.
    by apply copy_get_None in Hl.
  - rewrite fmap_app. apply NoDup_app. split_and!; [done| |apply NoDup_singleton].
    intros x ([l0 c] & -> & Hin)%list_elem_of_fmap Hx. csimpl in Hx.
    apply list_elem_of_singleton in Hx. simpl in Hx. subst c.
    destruct (Hval _ _ Hin) as (_ & l' & [= <-] & ?). lia.
  - intros l0 c [Hin|Hin]%elem_of_app.
    + destruct (Hval _ _ Hin) as (? & l' & -> & ?). split; [done|].
      exists l'. split; [done|]. rewrite length_app. simpl. lia.
    + apply list_elem_of_singleton in Hin as [= -> ->]. split; [done|].
      exists (length H). split; [done|]. rewrite length_app. simpl. lia.
Qed.

Lemma copy_table_ok_nil (N : nat) (H : heap) : copy_table_ok N [] H.
Proof. split_and!; [constructor | constructor | by intros ? ? ?%elem_of_nil]. Qed.

Section copier_correct.
Variable h : heap.
Hypothesis Hh : copyable h = true.

Lemma copyable_lookup (l : loc) (o : obj) :
  h !! l = Some o → copyable_obj (length h) o = true.
Proof using Hh.
  intros Hl. unfold copyable in Hh. rewrite forallb_forall in Hh.
  apply Hh, list_elem_of_In, list_elem_of_lookup. eauto.
Qed.

(** what a call on [v] from the table [seen] and the heap [H] returns *)
Definition copy_post (seen : copy_table) (H : heap) (v : value)
    (r : value * copy_table * heap) : Prop :=
  let '(v', seen', H') := r in
  seen `prefix_of` seen' ∧ H `prefix_of` H'
  ∧ copy_table_ok (length h) seen' H'
  ∧ renamed seen' v v'
  ∧ ∀ l, l ∈ seen'.*1 → l ∉ seen.*1 → copied seen' h H' l.

Definition copy_step (f : nat)
    (rec : value → copy_table → heap → outcome (value * copy_table * heap)) : Prop :=
  ∀ v seen H,
    copy_table_ok (length h) seen H → h `prefix_of` H →
    value_valid (length h) v = true → isObject v = true →
    length h < f + length seen →
    ∃ r, rec v seen H = Ok r ∧ copy_post seen H v r.

Variable f : nat.
Variable rec : value → copy_table → heap → outcome (value * copy_table * heap).
Hypothesis Hrec : copy_step f rec.

Lemma copy_child_spec v seen H :
  copy_table_ok (length h) seen H → h `prefix_of` H →
  value_valid (length h) v = true →
  length h < f + length seen →
  ∃ r, copy_child rec v seen H = Ok r ∧ copy_post seen H v r.
Proof using Hrec.
  intros Hok Hp Hv Hf. unfold copy_child. destruct (isObject v) eqn:Hobj; [by apply Hrec|].
  eexists. split; [done|]. split_and!; [done | done | done | by destruct v | done].
Qed.

(** the copy [cl] of [l] is in the table, so no later entry has [cl] *)
Lemma new_entry_not_cl seen H l cl l0 :
  copy_table_ok (length h) seen H →
  copy_get seen l = Some (VRef cl) → l0 ≠ l →
  copy_get seen l0 ≠ Some (VRef cl).
Proof using.
  intros Hok Hl Hne Hl0. apply Hne.
  assert (VRef l0 = VRef l) as [= ->]; [|done].
  by eapply (renamed_inj _ _ _ (VRef l0) (VRef l)).
Qed.

Lemma copy_props_spec o c s l cl ps dps seen H :
  proto o = Some c → has_own (props o) "hasOwnProperty" = false →
  (∀ kv, kv ∈ ps → kv.1 ∈ (props o).*1) →
  copy_table_ok (length h) seen H → h `prefix_of` H → length h ≤ cl →
  H !! cl = Some (Obj (Some c) s dps) →
  (∀ k, k ∈ ps.*1 → inherited (Obj (Some c) s []) k = false) →
  NoDup (dps.*1 ++ ps.*1) → canonical_keys (dps.*1 ++ ps.*1) = true →
  forallb (value_valid (length h)) ps.*2 = true →
  copy_get seen l = Some (VRef cl) →
  length h < f + length seen →
  ∃ seen' H' ps',
    copy_props rec o cl ps seen H = Ok (seen', H')
    ∧ seen `prefix_of` seen' ∧ frame_except cl H H'
    ∧ copy_table_ok (length h) seen' H'
    ∧ H' !! cl = Some (Obj (Some c) s (dps ++ ps'))
    ∧ props_renamed seen' ps ps'
    ∧ ∀ l0, l0 ∈ seen'.*1 → l0 ∉ seen.*1 → copied seen' h H' l0.
Proof using Hrec.
  intros Hproto Hhas. revert dps seen H.
  induction ps as [|[key x] r IH]; intros dps seen H Hsub Hok Hp Hcl Hcopy Hinh Hnd Hcan Hval Hl Hf.
  - exists seen, H, []. simpl. rewrite app_nil_r.
    split_and!; [done | done | apply frame_except_refl | done | done | constructor | done].
  - csimpl in *. apply andb_true_iff in Hval as [Hx Hval].
    unfold hasOwnProperty. rewrite Hhas, Hproto. simpl.
    assert (has_own (props o) key = true) as ->.
    { apply has_own_true. apply (Hsub (key, x)). left. }
    rewrite Hcopy.
    assert (key ∉ dps.*1) as Hkey.
    { apply NoDup_app in Hnd as (_ & Hnd & _). intros Hin. apply (Hnd _ Hin). left. }
    assert (defined_on (Obj (Some c) s dps) key = false) as ->.
    { unfold defined_on. simpl. apply prop_get_None in Hkey. rewrite Hkey.
      rewrite <- (Hinh key) by left. done. }
    destruct (copy_child_spec x seen H) as ([[v seen1] H1] & Ex & Hp1 & HpH1 & Hok1 & Hren & Hnew1);
      [done..|].
    rewrite Ex. simpl. unfold heap_update.
    assert (H1 !! cl = Some (Obj (Some c) s dps)) as ->.
    { by eapply prefix_lookup_Some. }
    simpl. unfold with_props. simpl.
    rewrite prop_set_snoc; [|done | by eapply canonical_keys_app_cons].
    set (H2 := <[cl:=Obj (Some c) s (dps ++ [(key, v)])]> H1).
    assert (cl < length H1) as HclH1.
    { eapply lookup_lt_Some, prefix_lookup_Some; done. }
    assert (frame_except cl H H2) as Hfr2.
    { eapply frame_except_trans; [by apply frame_except_prefix | apply frame_except_insert]. }
    destruct (IH (dps ++ [(key, v)]) seen1 H2)
      as (seen' & H' & r' & E & Hp' & Hfr' & Hok' & Hcl' & Hren' & Hnew').
    + intros kv Hkv. apply Hsub. by right.
    + eapply copy_table_ok_heap; [|done]. unfold H2. by rewrite length_insert.
    + by eapply frame_except_below.
    + done.
    + unfold H2. by apply list_lookup_insert_eq.
    + intros k Hk. apply Hinh. by right.
    + rewrite fmap_app, <- app_assoc. done.
    + rewrite fmap_app, <- app_assoc. done.
    + done.
    + by eapply copy_get_prefix.
    + apply prefix_length in Hp1. lia.
    + exists seen', H', ((key, v) :: r'). rewrite E.
      split_and!; [done | by etrans | by eapply frame_except_trans | done | | |].
      * by rewrite <- app_assoc in Hcl'.
      * constructor; [|done]. split; [done|]. by eapply renamed_prefix.
      * intros l0 Hin Hnin. destruct (decide (l0 ∈ seen1.*1)) as [Hin1|Hnin1]; [|auto].
        eapply copied_mono; [done | | | by apply Hnew1].
        -- eapply frame_except_trans; [apply frame_except_insert | done].
        -- eapply new_entry_not_cl; [done | by eapply copy_get_prefix |].
           intros ->. apply Hnin. apply copy_get_Some in Hl.
           apply list_elem_of_fmap. by exists (l, VRef cl).
Qed.

Lemma renamed_elem_of seen (src dst : list value) (v' : value) :
  Forall2 (renamed seen) src dst → v' ∈ dst → ∃ v, v ∈ src ∧ renamed seen v v'.
Proof using.
  intros HF [i Hi]%list_elem_of_lookup.
  destruct (Forall2_lookup_r _ _ _ _ _ HF Hi) as (v & Hv & Hren).
  exists v. split; [|done]. apply list_elem_of_lookup. eauto.
Qed.

Lemma copy_items_spec p l cl items dsrc ditems seen H :
  copy_table_ok (length h) seen H → h `prefix_of` H → length h ≤ cl →
  H !! cl = Some (Obj p (SSet ditems) []) →
  Forall2 (renamed seen) dsrc ditems →
  NoDup (dsrc ++ items) →
  forallb (value_valid (length h)) items = true →
  copy_get seen l = Some (VRef cl) →
  length h < f + length seen →
  ∃ seen' H' items',
    copy_items rec cl items seen H = Ok (seen', H')
    ∧ seen `prefix_of` seen' ∧ frame_except cl H H'
    ∧ copy_table_ok (length h) seen' H'
    ∧ H' !! cl = Some (Obj p (SSet (ditems ++ items')) [])
    ∧ Forall2 (renamed seen') items items'
    ∧ ∀ l0, l0 ∈ seen'.*1 → l0 ∉ seen.*1 → copied seen' h H' l0.
Proof using Hrec.
  revert dsrc ditems seen H.
  induction items as [|x r IH]; intros dsrc ditems seen H Hok Hp Hcl Hcopy Hdone Hnd Hval Hl Hf.
  - exists seen, H, []. simpl. rewrite app_nil_r.
    split_and!; [done | done | apply frame_except_refl | done | done | constructor | done].
  - simpl in *. apply andb_true_iff in Hval as [Hx Hval].
    destruct (copy_child_spec x seen H) as ([[v seen1] H1] & Ex & Hp1 & HpH1 & Hok1 & Hren & Hnew1);
      [done..|].
    rewrite Ex. simpl. unfold Set_add.
    assert (H1 !! cl = Some (Obj p (SSet ditems) [])) as ->.
    { by eapply prefix_lookup_Some. }
    simpl.
    assert (v ∉ ditems) as Hv.
    { intros Hin. destruct (renamed_elem_of _ _ _ _ Hdone Hin) as (x0 & Hx0 & Hren0).
      assert (x0 = x) as ->.
      { eapply renamed_inj; [done | by eapply renamed_prefix | done]. }
      apply NoDup_app in Hnd as (_ & Hnd & _). apply (Hnd _ Hx0). left. }
    rewrite set_add_snoc by done.
    set (H2 := <[cl:=Obj p (SSet (ditems ++ [v])) []]> H1).
    assert (cl < length H1) as HclH1.
    { eapply lookup_lt_Some, prefix_lookup_Some; done. }
    destruct (IH (dsrc ++ [x]) (ditems ++ [v]) seen1 H2)
      as (seen' & H' & r' & E & Hp' & Hfr' & Hok' & Hcl' & Hren' & Hnew').
    + eapply copy_table_ok_heap; [|done]. unfold H2. by rewrite length_insert.
    + eapply frame_except_below; [done | done |].
      eapply frame_except_trans; [by apply frame_except_prefix | apply frame_except_insert].
    + done.
    + unfold H2. by apply list_lookup_insert_eq.
    + apply Forall2_app; [|by repeat constructor].
      eapply Forall2_impl; [done|]. eauto using renamed_prefix.
    + by rewrite <- app_assoc.
    + done.
    + by eapply copy_get_prefix.
    + apply prefix_length in Hp1. lia.
    + exists seen', H', (v :: r'). rewrite E.
      split_and!; [done | by etrans | | done | | |].
      * eapply frame_except_trans; [by apply frame_except_prefix|].
        eapply frame_except_trans; [apply frame_except_insert | done].
      * by rewrite <- app_assoc in Hcl'.
      * constructor; [|done]. by eapply renamed_prefix.
      * intros l0 Hin Hnin. destruct (decide (l0 ∈ seen1.*1)) as [Hin1|Hnin1]; [|auto].
        eapply copied_mono; [done | | | by apply Hnew1].
        -- eapply frame_except_trans; [apply frame_except_insert | done].
        -- eapply new_entry_not_cl; [done | by eapply copy_get_prefix |].
           intros ->. apply Hnin. apply copy_get_Some in Hl.
           apply list_elem_of_fmap. by exists (l, VRef cl).
Qed.

Definition entry_renamed (seen : copy_table) (e e' : value * value) : Prop :=
  renamed seen e.1 e'.1 ∧ renamed seen e.2 e'.2.

Lemma copy_entries_spec p l cl entries dsrc dentries seen H :
  copy_table_ok (length h) seen H → h `prefix_of` H → length h ≤ cl →
  H !! cl = Some (Obj p (SMap dentries) []) →
  Forall2 (entry_renamed seen) dsrc dentries →
  NoDup (dsrc.*1 ++ entries.*1) →
  forallb (value_valid (length h)) entries.*1 = true →
  forallb (value_valid (length h)) entries.*2 = true →
  copy_get seen l = Some (VRef cl) →
  length h < f + length seen →
  ∃ seen' H' entries',
    copy_entries rec cl entries seen H = Ok (seen', H')
    ∧ seen `prefix_of` seen' ∧ frame_except cl H H'
    ∧ copy_table_ok (length h) seen' H'
    ∧ H' !! cl = Some (Obj p (SMap (dentries ++ entries')) [])
    ∧ Forall2 (entry_renamed seen') entries entries'
    ∧ ∀ l0, l0 ∈ seen'.*1 → l0 ∉ seen.*1 → copied seen' h H' l0.
Proof using Hrec.
  revert dsrc dentries seen H.
  induction entries as [|[k x] r IH];
    intros dsrc dentries seen H Hok Hp Hcl Hcopy Hdone Hnd Hvk Hvx Hl Hf.
  - exists seen, H, []. simpl. rewrite app_nil_r.
    split_and!; [done | done | apply frame_except_refl | done | done | constructor | done].
  - csimpl in *. apply andb_true_iff in Hvk as [Hk Hvk].
    apply andb_true_iff in Hvx as [Hx Hvx].
    destruct (copy_child_spec k seen H)
      as ([[k' seen1] H1] & Ek & Hp1 & HpH1 & Hok1 & Hrenk & Hnew1); [done..|].
    rewrite Ek. simpl.
    destruct (copy_child_spec x seen1 H1)
      as ([[v seen2] H2] & Ex & Hp2 & HpH2 & Hok2 & Hrenx & Hnew2);
      [done | by etrans | done | apply prefix_length in Hp1; lia |].
    rewrite Ex. simpl. unfold Map_set.
    assert (H2 !! cl = Some (Obj p (SMap dentries) [])) as ->.
    { eapply prefix_lookup_Some; [|done]. by eapply prefix_lookup_Some. }
    simpl.
    assert (seen `prefix_of` seen2) as Hp12 by (by etrans).
    assert (k' ∉ dentries.*1) as Hk'.
    { intros ([k0 v0] & -> & Hin)%list_elem_of_fmap.
      apply list_elem_of_lookup in Hin as [i Hi].
      destruct (Forall2_lookup_r _ _ _ _ _ Hdone Hi) as ([ks vs] & Hs & Hrk & _).
      simpl in *. assert (ks = k) as ->.
      { eapply (renamed_inj _ seen2 H2); [done | |].
        - exact (renamed_prefix _ _ _ _ Hp12 Hrk).
        - exact (renamed_prefix _ _ _ _ Hp2 Hrenk). }
      apply NoDup_app in Hnd as (_ & Hnd & _). apply (Hnd k); [|left].
      apply list_elem_of_fmap. exists (k, vs). split; [done|].
      apply list_elem_of_lookup. eauto. }
    rewrite map_set_snoc by done.
    set (H3 := <[cl:=Obj p (SMap (dentries ++ [(k', v)])) []]> H2).
    assert (cl < length H2) as HclH2.
    { eapply lookup_lt_Some, prefix_lookup_Some; [|done]. by eapply prefix_lookup_Some. }
    assert (frame_except cl H H3) as Hfr3.
    { eapply frame_except_trans; [apply frame_except_prefix; by etrans|].
      apply frame_except_insert. }
    destruct (IH (dsrc ++ [(k, x)]) (dentries ++ [(k', v)]) seen2 H3)
      as (seen' & H' & r' & E & Hp' & Hfr' & Hok' & Hcl' & Hren' & Hnew').
    + eapply copy_table_ok_heap; [|done]. unfold H3. by rewrite length_insert.
    + by eapply frame_except_below.
    + done.
    + unfold H3. by apply list_lookup_insert_eq.
    + apply Forall2_app.
      * eapply Forall2_impl; [done|]. intros ? ? []. split; by eapply renamed_prefix.
      * constructor; [|constructor].
        split; simpl; [exact (renamed_prefix _ _ _ _ Hp2 Hrenk) | done].
    + rewrite fmap_app, <- app_assoc. done.
    + done.
    + done.
    + by eapply copy_get_prefix.
    + apply prefix_length in Hp12. lia.
    + exists seen', H', ((k', v) :: r'). rewrite E.
      assert (copy_get seen2 l = Some (VRef cl)) as Hl2 by (by eapply copy_get_prefix).
      assert (l ∈ seen.*1) as Hlin.
      { apply copy_get_Some in Hl. apply list_elem_of_fmap. by exists (l, VRef cl). }
      split_and!; [done | by etrans | by eapply frame_except_trans | done | | |].
      * by rewrite <- app_assoc in Hcl'.
      * constructor; [|done]. split; simpl.
        -- eapply renamed_prefix; [|exact Hrenk]. by etrans.
        -- exact (renamed_prefix _ _ _ _ Hp' Hrenx).
      * intros l0 Hin Hnin. destruct (decide (l0 ∈ seen2.*1)) as [Hin2|Hnin2]; [|auto].
        destruct (decide (l0 ∈ seen1.*1)) as [Hin1|Hnin1].
        -- eapply (copied_mono seen1 seen' h H1 H' cl l0); [by etrans | | | by apply Hnew1].
           ++ eapply frame_except_trans; [by apply frame_except_prefix|].
              eapply frame_except_trans; [apply frame_except_insert | done].
           ++ eapply (new_entry_not_cl seen1 H1 l); [done | by eapply copy_get_prefix |].
              by intros ->.
        -- eapply (copied_mono seen2 seen' h H2 H' cl l0); [done | | | by apply Hnew2].
           ++ eapply frame_except_trans; [apply frame_except_insert | done].
           ++ eapply (new_entry_not_cl seen2 H2 l); [done | done |]. by intros ->.
Qed.

End copier_correct.

(** the empty shell [copyObject] allocates for [o] *)
Definition shell_slot (o : obj) : slot :=
  match oslot o with
  | SSet _ => SSet []
  | SMap _ => SMap []
  | s => s
  end.

Lemma copyObject_spec (h : heap) (fuel : nat) :
  copyable h = true →
  ∀ level, (level < 0)%Z →
    copy_step h fuel (λ v seen H, copyObject fuel v seen level H).
Proof.
  intros Hh. induction fuel as [|fuel IH]; intros level Hlevel v seen H Hok Hp Hv Hobj Hf.
  { apply copy_table_ok_length in Hok. lia. }
  destruct v as [| | | | |l]; try done. rewrite copyObject_S.
  destruct (copy_get seen l) as [c0|] eqn:Hget.
  { eexists. split; [done|]. split_and!; [done | done | done | done | done]. }
  rewrite bool_decide_eq_false_2 by lia.
  simpl in Hv. apply bool_decide_eq_true in Hv.
  destruct (lookup_lt_is_Some_2 h l Hv) as [o Ho].
  rewrite (prefix_lookup_Some _ _ _ _ Ho Hp).
  pose proof (copyable_lookup h Hh l o Ho) as Hwf. unfold copyable_obj in Hwf.
  destruct (proto o) as [c|] eqn:Hproto; [|done].
  repeat (apply andb_true_iff in Hwf as [Hwf ?]).
  apply negb_true_iff in Hwf.
  match goal with H : negb _ = true |- _ => apply negb_true_iff in H; rename H into Hhas end.
  match goal with H : bool_decide (NoDup _) = true |- _ =>
    apply bool_decide_eq_true in H; rename H into Hnd end.
  match goal with H : canonical_keys _ = true |- _ => rename H into Hcan end.
  match goal with H : forallb (value_valid _) _ = true |- _ => rename H into Hvals end.
  match goal with H : forallb _ (props o).*1 = true |- _ => rename H into Hinh end.
  match goal with H : match cbrand c with _ => _ end = true |- _ => rename H into Hslot end.
  unfold constructor_of. rewrite Hwf, Hproto. simpl.
  assert (∀ b, instanceof o b = bool_decide (cbrand c = b)) as Hinst.
  { intros b. unfold instanceof. by rewrite Hproto. }
  rewrite !Hinst.
  set (next := if bool_decide (level = (-1)%Z) then (-1)%Z else (level - 1)%Z).
  assert (next < 0)%Z as Hnext.
  { unfold next. destruct (bool_decide (level = (-1)%Z)); lia. }
  pose proof (IH next Hnext) as Hrec.
  set (cl := length H).
  assert (length h ≤ cl) as Hcl by (by apply prefix_length).
  assert ((if bool_decide (c = Array_ctor) || bool_decide (cbrand c = BArray)
           then Ok SArray
           else if bool_decide (cbrand c = BSet) then Ok (SSet [])
           else if bool_decide (cbrand c = BMap) then Ok (SMap [])
           else if bool_decide (cbrand c = BDate)
                then match oslot o with
                     | SDate t => Ok (SDate t)
                     | _ => Throw TypeError
                     end
           else Ok SNone) = Ok (shell_slot o)) as ->.
  { unfold shell_slot.
    destruct (cbrand c) eqn:Hb, (oslot o); try done;
      (destruct (bool_decide (c = Array_ctor)) eqn:Hc;
       [apply bool_decide_eq_true in Hc; subst c; first [discriminate Hb | done] | done]). }
  simpl. unfold alloc. fold cl.
  set (shell := Obj (Some c) (shell_slot o) []).
  set (seen1 := seen ++ [(l, VRef cl)]).
  set (H1 := H ++ [shell]).
  assert (copy_table_ok (length h) seen1 H1) as Hok1 by (by apply copy_table_ok_snoc).
  assert (h `prefix_of` H1) as Hp1 by (by apply prefix_app_r).
  assert (H1 !! cl = Some shell) as Hshell by apply alloc_lookup.
  assert (copy_get seen1 l = Some (VRef cl)) as Hl1 by (by apply copy_get_snoc).
  assert (length h < fuel + length seen1) as Hf1.
  { unfold seen1. rewrite length_app. simpl. lia. }
  assert (∃ seen2 H2 o',
            (if bool_decide (cbrand c = BSet)
             then match oslot o with
                  | SSet items =>
                      copy_items (λ x seen, copyObject fuel x seen next) cl items seen1 H1
                  | _ => Throw TypeError
                  end
             else if bool_decide (cbrand c = BMap)
             then match oslot o with
                  | SMap entries =>
                      copy_entries (λ x seen, copyObject fuel x seen next) cl entries seen1 H1
                  | _ => Throw TypeError
                  end
             else copy_props (λ x seen, copyObject fuel x seen next) o cl (props o) seen1 H1)
            = Ok (seen2, H2)
            ∧ seen1 `prefix_of` seen2 ∧ frame_except cl H1 H2
            ∧ copy_table_ok (length h) seen2 H2
            ∧ H2 !! cl = Some o' ∧ copy_of seen2 o o'
            ∧ ∀ l0, l0 ∈ seen2.*1 → l0 ∉ seen1.*1 → copied seen2 h H2 l0)
    as (seen2 & H2 & o' & -> & Hp2 & Hfr2 & Hok2 & Ho' & Hcopy & Hnew).
  { assert (∀ k, k ∈ (props o).*1 → inherited (Obj (Some c) (oslot o) []) k = false)
      as Hinh'.
    { intros k Hk. rewrite forallb_forall in Hinh.
      apply list_elem_of_In, Hinh, negb_true_iff in Hk.
      unfold inherited in *. by rewrite Hproto in Hk. }
    assert (∀ kv, kv ∈ props o → kv.1 ∈ (props o).*1) as Hsub.
    { intros kv Hkv. apply list_elem_of_fmap. by exists kv. }
    unfold shell, shell_slot in Hshell.
    destruct (cbrand c) eqn:Hb, (oslot o) as [| |items|entries|t] eqn:Hs; try done; simpl.
    - (* plain instance *)
      destruct (copy_props_spec h fuel _ Hrec o c SNone l cl (props o) [] seen1 H1)
        as (seen2 & H2 & ps' & E & ? & ? & ? & Hcl2 & Hren & ?);
        [done | done | done | done | done | done | done | done | done | done | done
        | done | done |].
      exists seen2, H2, (Obj (Some c) SNone ps'). split; [exact E|].
      split_and!; try done. split_and!; [by rewrite Hproto | by rewrite Hs | done].
    - (* array *)
      destruct (copy_props_spec h fuel _ Hrec o c SArray l cl (props o) [] seen1 H1)
        as (seen2 & H2 & ps' & E & ? & ? & ? & Hcl2 & Hren & ?);
        [done | done | done | done | done | done | done | done | done | done | done
        | done | done |].
      exists seen2, H2, (Obj (Some c) SArray ps'). split; [exact E|].
      split_and!; try done. split_and!; [by rewrite Hproto | by rewrite Hs | done].
    - (* set *)
      apply andb_true_iff in Hslot as [Hslot Hnil%bool_decide_eq_true].
      apply andb_true_iff in Hslot as [Hndi%bool_decide_eq_true Hvi].
      destruct (copy_items_spec h fuel _ Hrec (Some c) l cl items [] [] seen1 H1)
        as (seen2 & H2 & items' & E & ? & ? & ? & Hcl2 & Hren & ?);
        [done | done | done | done | constructor | done | done | done | done |].
      exists seen2, H2, (Obj (Some c) (SSet items') []). split; [exact E|].
      split_and!; try done.
      split_and!; [by rewrite Hproto | by rewrite Hs | rewrite Hnil; constructor].
    - (* map *)
      apply andb_true_iff in Hslot as [Hslot Hnil%bool_decide_eq_true].
      apply andb_true_iff in Hslot as [Hslot Hvx].
      apply andb_true_iff in Hslot as [Hndk%bool_decide_eq_true Hvk].
      destruct (copy_entries_spec h fuel _ Hrec (Some c) l cl entries [] [] seen1 H1)
        as (seen2 & H2 & entries' & E & ? & ? & ? & Hcl2 & Hren & ?);
        [done | done | done | done | constructor | done | done | done | done | done |].
      exists seen2, H2, (Obj (Some c) (SMap entries') []). split; [exact E|].
      split_and!; try done.
      split_and!; [by rewrite Hproto | by rewrite Hs | rewrite Hnil; constructor].
    - (* date *)
      destruct (copy_props_spec h fuel _ Hrec o c (SDate t) l cl (props o) [] seen1 H1)
        as (seen2 & H2 & ps' & E & ? & ? & ? & Hcl2 & Hren & ?);
        [done | done | done | done | done | done | done | done | done | done | done
        | done | done |].
      exists seen2, H2, (Obj (Some c) (SDate t) ps'). split; [exact E|].
      split_and!; try done. split_and!; [by rewrite Hproto | by rewrite Hs | done]. }
  simpl. eexists. split; [done|].
  assert (seen `prefix_of` seen2) as Hps.
  { etrans; [|done]. by apply prefix_app_r. }
  assert (H `prefix_of` H2) as HpH.
  { eapply (frame_except_below cl H H1 H2); [done | by apply prefix_app_r | done]. }
  unfold copy_post, renamed.
  split_and!; [done | done | done | exact (copy_get_prefix _ _ _ _ Hp2 Hl1) |].
  intros l0 Hin Hnin. destruct (decide (l0 = l)) as [->|Hne].
  - exists cl, o, o'.
    split_and!; [exact (copy_get_prefix _ _ _ _ Hp2 Hl1) | done | done | done].
  - apply Hnew; [done|]. unfold seen1. rewrite fmap_app. csimpl.
    intros [?|?%list_elem_of_singleton]%elem_of_app; done.
Qed.

(** C8 (amended): on a heap of copyable objects, [copy(v, unlimited)]
    (any negative level) returns, with any fuel above the size of the heap,
    a graph of freshly allocated objects: the source objects are untouched,
    every object of the table has a copy at an address the source heap did
    not have, the copy has the same prototype, kind, elements and own
    properties up to the table, the children of a copied object are in the
    table too, and the table is one to one, so an object reachable twice is
    represented by one copy and distinct objects by distinct copies. *)
Theorem full_copy_is_isomorphic (h : heap) (v : value) (level : Z) (fuel : nat) :
  copyable h = true →
  value_valid (length h) v = true →
  (level < 0)%Z →
  length h < fuel →
  ∃ v' seen h',
    copyObject fuel v [] level h = Ok (v', seen, h')
    ∧ deepCopy fuel v level h = Ok (v', h')
    ∧ h `prefix_of` h'
    ∧ renamed seen v v'
    ∧ copy_table_ok (length h) seen h'
    ∧ ∀ l, l ∈ seen.*1 → copied seen h h' l.
Proof.
  intros Hh Hv Hlevel Hfuel. unfold deepCopy.
  destruct (isObject v) eqn:Hobj.
  - destruct (copyObject_spec h fuel Hh level Hlevel v [] h)
      as ([[v' seen] h'] & E & _ & Hp & Hok & Hren & Hnew); try done.
    { apply copy_table_ok_nil. }
    { simpl. lia. }
    exists v', seen, h'. rewrite E. split_and!; try done.
    intros l Hl. apply Hnew; [done|]. apply not_elem_of_nil.
  - destruct fuel as [|fuel]; [lia|]. rewrite copyObject_S.
    exists v, [], h. pose proof (copy_table_ok_nil (length h) h).
    destruct v; try done; simpl;
      (split_and!; [done | done | done | done | done | by intros ? ?%elem_of_nil]).
Qed.

(** ** Composites of an unregistered kind *)

(** The keys under which decoding [j] can enter an object in the references
    table: [undefined] for a node without [__id], and the primitive values
    of the [__id] members of the nodes of [j]. *)
Fixpoint json_ids (j : json) : list value :=
  match j with
  | JObj ms =>
      VUndef :: flat_map (λ kv,
        (if decide (kv.1 = "__id") then option_list (json_prim (Some kv.2)) else [])
        ++ json_ids kv.2) ms
  | JArr xs => VUndef :: flat_map json_ids xs
  | _ => []
  end.

Lemma json_ids_obj (ms : list (string * json)) (k : value) :
  k ∈ json_ids (JObj ms) ↔
  k = VUndef ∨ ∃ key x, (key, x) ∈ ms ∧
    ((key = "__id" ∧ json_prim (Some x) = Some k) ∨ k ∈ json_ids x).
Proof.
  cbn [json_ids]. rewrite elem_of_cons, list_elem_of_In, in_flat_map.
  split; (intros [->|H]; [by left | right]).
  - destruct H as ([key x] & Hin%list_elem_of_In & Hk%list_elem_of_In). exists key, x.
    split; [done|]. cbn [fst snd] in Hk.
    apply elem_of_app in Hk as [Hk|Hk]; [left | by right].
    destruct (decide (key = "__id")); [|by apply elem_of_nil in Hk].
    split; [done|]. destruct (json_prim (Some x)); cbn [option_list] in Hk.
    + by apply list_elem_of_singleton in Hk as ->.
    + by apply elem_of_nil in Hk.
  - destruct H as (key & x & Hin & Hk). exists (key, x).
    split; [by apply list_elem_of_In|]. apply list_elem_of_In. cbn [fst snd].
    apply elem_of_app. destruct Hk as [[-> Hk]|Hk]; [left | by right].
    rewrite decide_True by done. rewrite Hk. cbn [option_list]. left.
Qed.

Lemma json_ids_arr (xs : list json) (k : value) :
  k ∈ json_ids (JArr xs) ↔ k = VUndef ∨ ∃ x, x ∈ xs ∧ k ∈ json_ids x.
Proof.
  cbn [json_ids]. rewrite elem_of_cons, list_elem_of_In, in_flat_map.
  split; (intros [->|H]; [by left | right]).
  - destruct H as (x & Hin%list_elem_of_In & Hk%list_elem_of_In). eauto.
  - destruct H as (x & Hin & Hk). exists x. by rewrite <- !list_elem_of_In.
Qed.

Lemma json_ids_member (j : json) (key : string) (x : json) (k : value) :
  (key, x) ∈ members j → k ∈ json_ids x → k ∈ json_ids j.
Proof.
  destruct j as [| | | |xs|ms]; simpl; try by intros ?%elem_of_nil.
  - intros Hin%elem_of_zip_r Hk. apply json_ids_arr. eauto.
  - intros Hin Hk. apply json_ids_obj. right. exists key, x. auto.
Qed.

Lemma members_digits (xs : list json) (key : string) :
  key ∈ (members (JArr xs)).*1 → all_digits key = true.
Proof.
  simpl. intros ([k x] & -> & Hin)%list_elem_of_fmap.
  apply elem_of_zip_l, list_elem_of_fmap in Hin as (i & -> & _). apply show_nat_digits.
Qed.

(** the key of the node itself *)
Lemma json_ids_node (j : json) (k : value) :
  json_isObject j = true → json_prim (field j "__id") = Some k → k ∈ json_ids j.
Proof.
  intros Hobj Hk. unfold field in Hk.
  destruct (prop_get (members j) "__id") as [x|] eqn:Hx.
  - destruct j as [| | | |xs|ms]; try done.
    + assert ("__id" ∈ (members (JArr xs)).*1) as Hin by (apply prop_get_is_Some; eauto).
      by apply members_digits in Hin.
    + apply json_ids_obj. right. exists "__id", x.
      split; [by apply prop_get_Some_elem | by left].
  - injection Hk as <-. destruct j; try done; left.
Qed.

Lemma field_elem (j : json) (key : string) (x : json) :
  field j key = Some x → (key, x) ∈ members j.
Proof. apply prop_get_Some_elem. Qed.

(** every key of the table satisfies [P] *)
Definition refs_sat (P : value → Prop) (references : refs_table) : Prop :=
  ∀ k v, map_get references k = Some v → P k.

Lemma map_get_set (references : refs_table) (k v k' : value) :
  map_get (map_set references k v) k' =
  if decide (k = k') then Some v else map_get references k'.
Proof.
  induction references as [|[k0 v0] r IH]; simpl.
  - destruct (decide (k = k')); done.
  - destruct (decide (k0 = k)) as [->|Hne]; simpl.
    + destruct (decide (k = k')); done.
    + rewrite IH. destruct (decide (k0 = k')) as [->|]; [|done].
      by rewrite decide_False.
Qed.

Lemma refs_sat_set (P : value → Prop) (references : refs_table) (j : json)
    (instance : value) :
  json_isObject j = true → (∀ k, k ∈ json_ids j → P k) →
  refs_sat P references → refs_sat P (refs_set references (field j "__id") instance).
Proof.
  intros Hobj Hj Hsat. unfold refs_set.
  destruct (json_prim (field j "__id")) as [k|] eqn:Hk; [|done].
  intros k' v. rewrite map_get_set. destruct (decide (k = k')) as [<-|]; [|apply Hsat].
  intros _. by apply Hj, json_ids_node.
Qed.

Definition refs_step (P : value → Prop)
    (rec : json → refs_table → heap → outcome (value * refs_table * heap)) : Prop :=
  ∀ j refs H v refs' H',
    rec j refs H = Ok (v, refs', H') →
    (∀ k, k ∈ json_ids j → P k) → refs_sat P refs → refs_sat P refs'.

Section decoder_refs.
Variable P : value → Prop.
Variable rec : json → refs_table → heap → outcome (value * refs_table * heap).
Hypothesis Hrec : refs_step P rec.

Lemma decode_child_refs x refs H v refs' H' :
  decode_child rec x refs H = Ok (v, refs', H') →
  (∀ j k, x = Some j → k ∈ json_ids j → P k) → refs_sat P refs → refs_sat P refs'.
Proof using Hrec.
  unfold decode_child. destruct x as [j|], (json_prim _);
    try (by intros [= <- <- <-]). intros E Hj. eapply Hrec; eauto.
Qed.

Lemma decode_values_refs l values refs H refs' H' :
  decode_values rec l values refs H = Ok (refs', H') →
  (∀ x k, x ∈ values → k ∈ json_ids x → P k) → refs_sat P refs → refs_sat P refs'.
Proof using Hrec.
  revert refs H. induction values as [|x r IH]; intros refs H E Hids Hsat; simpl in E.
  - by injection E as <- <-.
  - inv_bind E. destruct a as [[v refs1] H1]. inv_bind E.
    eapply IH; [done | |].
    + intros. eapply Hids; [by right | done].
    + eapply decode_child_refs; [done | | done].
      intros j k [= <-]. apply Hids. left.
Qed.

Lemma iterate_ids e kv i x k :
  iterate (Some e) = Ok kv → kv !! i = Some x → k ∈ json_ids x → k ∈ json_ids e.
Proof using.
  destruct e as [| | |s|xs|]; simpl; try done; intros [= <-] Hi Hk.
  - apply list_elem_of_lookup_2 in Hi.
    assert (∀ s, x ∈ chars s → json_ids x = []) as Hc.
    { clear. intros s. induction s as [|c s IH]; simpl; [by intros ?%elem_of_nil|].
      intros [->|?]%elem_of_cons; auto. }
    rewrite (Hc _ Hi) in Hk. by apply elem_of_nil in Hk.
  - apply json_ids_arr. right. exists x. split; [|done]. by eapply list_elem_of_lookup_2.
Qed.

Lemma decode_entries_refs l entries refs H refs' H' :
  decode_entries rec l entries refs H = Ok (refs', H') →
  (∀ x k, x ∈ entries → k ∈ json_ids x → P k) → refs_sat P refs → refs_sat P refs'.
Proof using Hrec.
  revert refs H. induction entries as [|e r IH]; intros refs H E Hids Hsat; simpl in E.
  - by injection E as <- <-.
  - inv_bind E. rename a into kv. inv_bind E. destruct a as [[k refs1] H1].
    inv_bind E. destruct a as [[v refs2] H2]. inv_bind E.
    eapply IH; [done | |].
    + intros. eapply Hids; [by right | done].
    + eapply decode_child_refs; [done | |].
      * intros j k0 Hj Hk0. apply (Hids e); [left|]. by eapply iterate_ids.
      * eapply decode_child_refs; [done | | done].
        intros j k0 Hj Hk0. apply (Hids e); [left|]. by eapply iterate_ids.
Qed.

Lemma decode_props_refs j l ms refs H refs' H' :
  decode_props rec j l ms refs H = Ok (refs', H') →
  (∀ kv k, kv ∈ ms → k ∈ json_ids kv.2 → P k) → refs_sat P refs → refs_sat P refs'.
Proof using Hrec.
  revert refs H. induction ms as [|[key x] r IH]; intros refs H E Hids Hsat; simpl in E.
  - by injection E as <- <-.
  - assert (∀ kv k, kv ∈ r → k ∈ json_ids kv.2 → P k) as Hids'.
    { intros. eapply Hids; [by right | done]. }
    destruct (has_own (members j) "hasOwnProperty"); [done|].
    destruct (bool_decide (key ≠ "__class") && bool_decide (key ≠ "__id")); [|eauto].
    destruct (H !! l) as [o|]; [|done].
    destruct (defined_on o key); [eauto|].
    inv_bind E. destruct a as [[v refs1] H1]. inv_bind E.
    eapply IH; [done | done |].
    eapply decode_child_refs; [done | | done].
    intros j0 k [= <-]. apply (Hids (key, x)). left.
Qed.

Lemma decode_plain_refs j l ms refs H refs' H' :
  decode_plain rec j l ms refs H = Ok (refs', H') →
  (∀ kv k, kv ∈ ms → k ∈ json_ids kv.2 → P k) → refs_sat P refs → refs_sat P refs'.
Proof using Hrec.
  revert refs H. induction ms as [|[key x] r IH]; intros refs H E Hids Hsat; simpl in E.
  - by injection E as <- <-.
  - assert (∀ kv k, kv ∈ r → k ∈ json_ids kv.2 → P k) as Hids'.
    { intros. eapply Hids; [by right | done]. }
    destruct (has_own (members j) "hasOwnProperty"); [done|].
    destruct (bool_decide (key ≠ "__class") && bool_decide (key ≠ "__id")); [|eauto].
    inv_bind E. destruct a as [[v refs1] H1]. inv_bind E.
    eapply IH; [done | done |].
    eapply decode_child_refs; [done | | done].
    intros j0 k [= <-]. apply (Hids (key, x)). left.
Qed.
End decoder_refs.

(** The decoder enters objects into the table only under the [__id]s of
    the text. *)
Lemma deserializeObject_refs (cm : classMap) (P : value → Prop) (fuel : nat) :
  refs_step P (deserializeObject cm fuel).
Proof.
  induction fuel as [|fuel IH]; intros j refs H v refs' H' E Hids Hsat; [done|].
  rewrite deserializeObject_S in E.
  destruct (json_isObject j) eqn:Hobj; [|by injection E as <- <- <-].
  destruct (truthy (field j "__ref")); [by injection E as <- <- <-|].
  cbv zeta in E.
  assert (∀ kv k, kv ∈ members j → k ∈ json_ids kv.2 → P k) as Hmem.
  { intros [key x] k Hin Hk. eapply Hids, json_ids_member; done. }
  assert (∀ key xs x k, iterate (field j key) = Ok xs → x ∈ xs → k ∈ json_ids x → P k)
    as Hiter.
  { intros key xs x k Hit Hx Hk. destruct (field j key) as [e|] eqn:He; [|done].
    apply list_elem_of_lookup in Hx as [i Hi].
    apply (Hmem (key, e)); [by apply field_elem | by eapply iterate_ids]. }
  destruct (match field j "__class" with Some (JStr s) => prop_get cm s | _ => None end)
    as [c|].
  - inv_bind E. rename a into shell. unfold alloc in E.
    inv_bind E. destruct a as [refs1 H1]. injection E as <- <- <-.
    pose proof (refs_sat_set P refs j (VRef (length H)) Hobj Hids Hsat) as Hsat1.
    destruct (bool_decide (cbrand c = BSet)).
    { inv_bind E1. eapply decode_values_refs; [done | done | | done]. eauto. }
    destruct (bool_decide (cbrand c = BMap)).
    { inv_bind E1. eapply decode_entries_refs; [done | done | | done]. eauto. }
    by eapply decode_props_refs.
  - unfold alloc in E. inv_bind E. destruct a as [refs1 H1]. injection E as <- <- <-.
    pose proof (refs_sat_set P refs j (VRef (length H)) Hobj Hids Hsat) as Hsat1.
    by eapply decode_plain_refs.
Qed.

Lemma json_ind' (P : json → Prop) :
  P JNull → (∀ b, P (JBool b)) → (∀ n, P (JNum n)) → (∀ s, P (JStr s)) →
  (∀ xs, Forall P xs → P (JArr xs)) →
  (∀ ms, Forall (λ kv, P kv.2) ms → P (JObj ms)) →
  ∀ j, P j.
Proof.
  intros Hnull Hbool Hnum Hstr Harr Hobj. fix IH 1.
  intros [|b|n|s|xs|ms]; [exact Hnull | apply Hbool | apply Hnum | apply Hstr | |].
  - apply Harr. induction xs as [|x xs IHxs]; constructor; [apply IH | apply IHxs].
  - apply Hobj. induction ms as [|[k x] ms IHms]; constructor; [apply IH | apply IHms].
Qed.

Lemma prop_set_elem {A} (ps : list (string * A)) (k : string) (v : A) (kv : string * A) :
  kv ∈ prop_set ps k v → kv = (k, v) ∨ kv ∈ ps.
Proof.
  unfold prop_set. destruct (has_own ps k).
  - induction ps as [|[k0 v0] r IH]; simpl; [by intros ?%elem_of_nil|].
    destruct (decide (k0 = k)) as [->|].
    + intros [->|?]%elem_of_cons; [by left | right; by right].
    + intros [->|?]%elem_of_cons; [right; left|]. destruct IH; [done | by left | right; by right].
  - induction ps as [|[k0 v0] r IH]; simpl.
    + intros ->%list_elem_of_singleton. by left.
    + destruct (key_before k0 k).
      * intros [->|?]%elem_of_cons; [by left | by right].
      * intros [->|?]%elem_of_cons; [right; left|].
        destruct IH; [done | by left | right; by right].
Qed.

Lemma JSON_parse_members (ms acc : list (string * json)) (kv : string * json) :
  kv ∈ fold_left (λ acc kv, prop_set acc kv.1 (JSON_parse kv.2)) ms acc →
  kv ∈ acc ∨ ∃ x, (kv.1, x) ∈ ms ∧ kv.2 = JSON_parse x.
Proof.
  revert acc. induction ms as [|[k x] r IH]; intros acc; simpl; [by left|].
  intros [Hin|(y & Hy & E)]%IH.
  - apply prop_set_elem in Hin as [->|Hin]; [|by left].
    right. exists x. split; [left | done].
  - right. exists y. split; [by right | done].
Qed.

Lemma json_prim_parse (x : json) : json_prim (Some (JSON_parse x)) = json_prim (Some x).
Proof. by destruct x. Qed.

(** Parsing brings no new key. *)
Lemma json_ids_parse (j : json) (k : value) :
  k ∈ json_ids (JSON_parse j) → k ∈ json_ids j.
Proof.
  revert k. induction j as [| | | |xs IH|ms IH] using json_ind'; intros k; try done.
  - cbn [JSON_parse]. rewrite !json_ids_arr. intros [->|(y & Hy & Hk)]; [by left | right].
    apply list_elem_of_fmap in Hy as (x & -> & Hx). exists x. split; [done|].
    rewrite Forall_forall in IH. by apply IH.
  - cbn [JSON_parse]. rewrite !json_ids_obj.
    intros [->|(key & y & Hy & Hk)]; [by left | right].
    apply JSON_parse_members in Hy as [?%elem_of_nil|(x & Hx & E)]; [done|].
    cbn [fst snd] in *. subst y. exists key, x. split; [done|].
    destruct Hk as [[-> Hk]|Hk]; [left | right].
    + by rewrite json_prim_parse in Hk.
    + rewrite Forall_forall in IH. by apply (IH (key, x)).
Qed.

(** The [__id] members of an encoder result are ids that satisfy [P]. *)
Inductive sval_ids_ok (P : string → Prop) : sval → Prop :=
  | ids_live v : sval_ids_ok P (SLive v)
  | ids_node ps :
      Forall (λ kv, sval_ids_ok P kv.2
                    ∧ (kv.1 = "__id" → ∃ id, kv.2 = SLive (VStr id) ∧ P id)) ps →
      sval_ids_ok P (SNode ps)
  | ids_list xs : Forall (sval_ids_ok P) xs → sval_ids_ok P (SList xs).

Definition member_ids_ok (P : string → Prop) (kv : string * sval) : Prop :=
  sval_ids_ok P kv.2 ∧ (kv.1 = "__id" → ∃ id, kv.2 = SLive (VStr id) ∧ P id).

Lemma prop_set_Forall {A} (Q : string * A → Prop) (ps : list (string * A))
    (k : string) (v : A) :
  Forall Q ps → Q (k, v) → Forall Q (prop_set ps k v).
Proof.
  rewrite !Forall_forall. intros Hps Hkv kv [->|Hin]%prop_set_elem; auto.
Qed.

Lemma stringify_members_elem {X} (rec : X → outcome (option json))
    (ps : list (string * X)) (ms : list (string * json)) (key : string) (y : json) :
  stringify_members rec ps = Ok ms → (key, y) ∈ ms →
  ∃ x, (key, x) ∈ ps ∧ rec x = Ok (Some y).
Proof.
  revert ms. induction ps as [|[k x] r IH]; intros ms E Hin; simpl in E.
  - injection E as <-. by apply elem_of_nil in Hin.
  - inv_bind E. rename a into j. inv_bind E. rename a into ms'. injection E as <-.
    destruct j as [j|].
    + apply elem_of_cons in Hin as [[= -> ->]|Hin].
      * exists x. split; [left | done].
      * destruct (IH _ E1 Hin) as (x' & ? & ?). exists x'. split; [by right | done].
    + destruct (IH _ E1 Hin) as (x' & ? & ?). exists x'. split; [by right | done].
Qed.

Lemma stringify_elements_elem {X} (rec : X → outcome (option json))
    (xs : list X) (js : list json) (y : json) :
  stringify_elements rec xs = Ok js → y ∈ js →
  y = JNull ∨ ∃ x, x ∈ xs ∧ rec x = Ok (Some y).
Proof.
  revert js. induction xs as [|x r IH]; intros js E Hin; simpl in E.
  - injection E as <-. by apply elem_of_nil in Hin.
  - inv_bind E. rename a into j. inv_bind E. rename a into js'. injection E as <-.
    apply elem_of_cons in Hin as [->|Hin].
    + destruct j as [j|]; [right | by left]. exists x. split; [left | done].
    + destruct (IH _ E1 Hin) as [->|(x' & ? & ?)]; [by left | right].
      exists x'. split; [by right | done].
Qed.

(** what [Date.prototype.toJSON] returns is [null] or a string *)
Lemma Date_toJSON_prim (o : obj) (t : time) (j : json) :
  Date_toJSON o t = Ok (Some j) → j = JNull ∨ ∃ iso, j = JStr iso.
Proof.
  unfold Date_toJSON, invoke_toISOString.
  destruct (has_own (props o) "valueOf"), (has_own (props o) "toString"),
    (has_own (props o) "toISOString"), (toISOString t); simpl; intros [= <-]; eauto.
Qed.

Section unregistered.
Variable cm : classMap.
Variable h : heap.
Hypothesis Hno_id : ∀ o, o ∈ h → has_own (props o) "__id" = false.

(** the rendering of a live value holds no [__id] member *)
Lemma stringify_live_ids (fuel : nat) (stack : list loc) (v : value) (j : json) (k : value) :
  stringify_live fuel h stack v = Ok (Some j) → k ∈ json_ids j → k = VUndef.
Proof using Hno_id.
  revert stack v j k. induction fuel as [|fuel IH]; intros stack v j k E Hk; [done|].
  rewrite stringify_live_S in E.
  destruct v as [| | | | |l]; try done;
    try (injection E as <-; by apply elem_of_nil in Hk).
  destruct (h !! l) as [o|] eqn:Ho; [|done].
  destruct (has_own (props o) "toJSON"); [done|].
  destruct (instanceof o BDate).
  { destruct (oslot o); try done.
    apply Date_toJSON_prim in E as [->|[iso ->]]; by apply elem_of_nil in Hk. }
  destruct (match proto o with Some c => _ | None => _ end); [done|].
  destruct (bool_decide (l ∈ stack)); [done|].
  destruct (oslot o).
  all: inv_bind E; injection E as <-.
  all: try (apply json_ids_obj in Hk as [->|(key & y & Hy & Hk)]; [done|];
            eapply stringify_members_elem in Hy as (x & Hx & Hy); [|done];
            destruct Hk as [[-> _]|Hk]; [|by eapply IH];
            apply list_elem_of_lookup_2 in Ho; apply Hno_id, has_own_false in Ho;
            destruct Ho; apply list_elem_of_fmap; by exists ("__id", x)).
  apply json_ids_arr in Hk as [->|(y & Hy & Hk)]; [done|].
  eapply stringify_elements_elem in Hy as [->|(x & Hx & Hy)]; [| |done].
  - by apply elem_of_nil in Hk.
  - by eapply IH.
Qed.

Lemma stringify_ids (P : string → Prop) (fuel : nat) (s : sval) (j : json) (k : value) :
  sval_ids_ok P s → stringify fuel h s = Ok (Some j) → k ∈ json_ids j →
  k = VUndef ∨ ∃ id, k = VStr id ∧ P id.
Proof using Hno_id.
  revert s j k. induction fuel as [|fuel IH]; intros s j k Hs E Hk; [done|].
  rewrite stringify_S in E. destruct Hs as [v|ps Hps|xs Hxs].
  - left. by eapply stringify_live_ids.
  - inv_bind E. injection E as <-. rename a into ms.
    apply json_ids_obj in Hk as [->|(key & y & Hy & Hk)]; [by left|].
    eapply stringify_members_elem in Hy as (x & Hx & Hy); [|done].
    rewrite Forall_forall in Hps. destruct (Hps _ Hx) as [Hok Hid]. simpl in *.
    destruct Hk as [[-> Hk]|Hk]; [|by eapply IH].
    destruct (Hid eq_refl) as (id & -> & HP). right. exists id. split; [|done].
    destruct fuel as [|fuel]; [done|]. rewrite stringify_S in Hy.
    destruct fuel as [|fuel]; [done|]. rewrite stringify_live_S in Hy.
    injection Hy as <-. by injection Hk as <-.
  - inv_bind E. injection E as <-. rename a into js.
    apply json_ids_arr in Hk as [->|(y & Hy & Hk)]; [by left|].
    eapply stringify_elements_elem in Hy as [->|(x & Hx & Hy)]; [| |done].
    + by apply elem_of_nil in Hk.
    + rewrite Forall_forall in Hxs. eapply IH; [by apply Hxs | done | done].
Qed.

(** ids that the final table [seen_F] gives to objects of a registered kind *)
Variable seen_F : seen_table.

Definition registered_id (id : string) : Prop :=
  ∃ l o c, (l, id) ∈ seen_F ∧ h !! l = Some o ∧ constructor_of o = Ok c
           ∧ is_Some (prop_get cm (getClassName (cname c))).

Definition ids_step (rec : value → seen_table → outcome (sval * seen_table)) : Prop :=
  ∀ v seen s seen',
    seen_ok h seen → rec v seen = Ok (s, seen') → seen' `prefix_of` seen_F →
    sval_ids_ok registered_id s.

Section loops.
Variable rec : value → seen_table → outcome (sval * seen_table).
Hypothesis Htable : table_step h rec.
Hypothesis Hrec : ids_step rec.

Lemma serialize_child_ids v seen s seen' :
  seen_ok h seen → serialize_child rec v seen = Ok (s, seen') →
  seen' `prefix_of` seen_F → sval_ids_ok registered_id s.
Proof using Hrec.
  unfold serialize_child. destruct (isObject v); [by apply Hrec|].
  intros _ [= <- <-] _. constructor.
Qed.

Lemma serialize_items_ids items seen ss seen' :
  seen_ok h seen → serialize_items rec items seen = Ok (ss, seen') →
  seen' `prefix_of` seen_F → Forall (sval_ids_ok registered_id) ss.
Proof using Hrec Htable.
  revert seen ss. induction items as [|x r IH]; intros seen ss Hok E HF; simpl in E.
  - injection E as <- <-. constructor.
  - inv_bind E. destruct a as [s1 seen1]. inv_bind E. destruct a as [s2 seen2].
    injection E as <- <-.
    pose proof (serialize_child_table _ _ Htable _ _ _ _ Hok E0) as [Hok1 Hp1].
    pose proof (serialize_items_table _ _ Htable _ _ _ _ Hok1 E1) as [Hok2 Hp2].
    constructor; [|exact (IH _ _ Hok1 E1 HF)].
    exact (serialize_child_ids _ _ _ _ Hok E0 (transitivity Hp2 HF)).
Qed.

Lemma serialize_entries_ids entries seen ss seen' :
  seen_ok h seen → serialize_entries rec entries seen = Ok (ss, seen') →
  seen' `prefix_of` seen_F → Forall (sval_ids_ok registered_id) ss.
Proof using Hrec Htable.
  revert seen ss. induction entries as [|[k x] r IH]; intros seen ss Hok E HF; simpl in E.
  - injection E as <- <-. constructor.
  - inv_bind E. destruct a as [s1 seen1]. inv_bind E. destruct a as [s2 seen2].
    inv_bind E. destruct a as [s3 seen3]. injection E as <- <-.
    pose proof (serialize_child_table _ _ Htable _ _ _ _ Hok E0) as [Hok1 Hp1].
    pose proof (serialize_child_table _ _ Htable _ _ _ _ Hok1 E1) as [Hok2 Hp2].
    pose proof (serialize_entries_table _ _ Htable _ _ _ _ Hok2 E2) as [Hok3 Hp3].
    constructor; [|exact (IH _ _ Hok2 E2 HF)].
    constructor. constructor; [|constructor; [|constructor]].
    + exact (serialize_child_ids _ _ _ _ Hok E0 (transitivity Hp2 (transitivity Hp3 HF))).
    + exact (serialize_child_ids _ _ _ _ Hok1 E1 (transitivity Hp3 HF)).
Qed.

Lemma serialize_props_ids keys o jo seen jo' seen' :
  has_own (props o) "__id" = false →
  seen_ok h seen → serialize_props rec keys o jo seen = Ok (jo', seen') →
  seen' `prefix_of` seen_F →
  Forall (member_ids_ok registered_id) jo → Forall (member_ids_ok registered_id) jo'.
Proof using Hrec Htable.
  intros Hid. revert jo seen. induction keys as [|k r IH]; intros jo seen Hok E HF Hjo;
    simpl in E.
  - by injection E as <- <-.
  - inv_bind E. rename a into own.
    assert (own = has_own (props o) k) as ->.
    { unfold hasOwnProperty in E0. destruct (has_own (props o) "hasOwnProperty"); [done|].
      destruct (proto o); [|done]. by injection E0. }
    destruct (has_own (props o) k) eqn:Hown; [|exact (IH _ _ Hok E HF Hjo)].
    inv_bind E. destruct a as [s1 seen1].
    pose proof (serialize_child_table _ _ Htable _ _ _ _ Hok E1) as [Hok1 Hp1].
    pose proof (serialize_props_table _ _ Htable _ _ _ _ _ _ Hok1 E) as [Hok2 Hp2].
    apply (IH _ _ Hok1 E HF).
    apply prop_set_Forall; [done|]. split; simpl.
    + exact (serialize_child_ids _ _ _ _ Hok E1 (transitivity Hp2 HF)).
    + intros ->. congruence.
Qed.
End loops.

Lemma serializeObject_ids (fuel : nat) : ids_step (serializeObject cm fuel h).
Proof using Hno_id.
  induction fuel as [|fuel IH]; intros v seen s seen' Hok E HF; [done|].
  assert (table_step h (serializeObject cm fuel h)) as Htable.
  { intros ? ? ? ? ? ?. by eapply serializeObject_table. }
  pose proof E as Hrun. apply serializeObject_table in Hrun as [_ Hroot]; [|done].
  rewrite serializeObject_S in E.
  destruct v as [| | | | |l]; try (injection E as <- <-; constructor).
  unfold root_entry in Hroot.
  destruct (seen_get seen l) as [id|] eqn:Hget.
  { injection E as <- <-. constructor. constructor; [|constructor].
    split; [constructor | done]. }
  destruct Hroot as (o & c & rest & Ho & Hc & Hseen').
  rewrite Ho, Hc in E. simpl in E.
  set (cn := getClassName (cname c)) in *.
  set (id := cn +:+ "_" +:+ show_nat (length seen)) in *.
  destruct (prop_get cm cn) as [c'|] eqn:Hreg; [|injection E as <- <-; constructor].
  inv_bind E. destruct a as [jo seen2]. injection E as <- <-.
  assert (has_own (props o) "__id" = false) as Hoid.
  { apply Hno_id. by eapply list_elem_of_lookup_2. }
  assert (seen_ok h (seen ++ [(l, id)])) as Hok1 by (by eapply seen_ok_snoc).
  assert (registered_id id) as Hid.
  { exists l, o, c. split_and!; [|done | done | fold cn; rewrite Hreg; by eexists].
    destruct HF as [k ->]. rewrite Hseen'. apply elem_of_app. left.
    apply elem_of_app. right. left. }
  assert (Forall (member_ids_ok registered_id)
            [("__class", SLive (VStr cn)); ("__id", SLive (VStr id))]) as Hbase.
  { constructor; [split; [constructor | done]|].
    constructor; [|constructor]. split; [constructor|]. intros _. by exists id. }
  constructor.
  assert (Forall (member_ids_ok registered_id) jo) as Hjo.
  { destruct (instanceof o BSet).
    { destruct (oslot o); try done. inv_bind E0. destruct a as [vs seen3].
      injection E0 as <- <-.
      repeat apply prop_set_Forall; [done | | by split; [constructor|]].
      split; [|done]. constructor. by eapply serialize_items_ids. }
    destruct (instanceof o BMap).
    { destruct (oslot o); try done. inv_bind E0. destruct a as [vs seen3].
      injection E0 as <- <-.
      repeat apply prop_set_Forall; [done | | by split; [constructor|]].
      split; [|done]. constructor. by eapply serialize_entries_ids. }
    destruct (instanceof o BDate).
    { destruct (oslot o); try done. inv_bind E0. injection E0 as <- <-.
      repeat apply prop_set_Forall; [done | | ]; by split; [constructor|]. }
    destruct (has_own (props o) "__proto__"); [done|].
    eapply serialize_props_ids; [done | done | done | done | done | done |].
    unfold object_assign. apply has_own_false in Hoid. revert Hoid Hbase.
    generalize (props o) as ps.
    generalize [("__class", SLive (VStr cn)); ("__id", SLive (VStr id))] as base.
    intros base ps. revert base. induction ps as [|[k v] r IHr]; intros base Hk Hbase;
      simpl; [done|].
    csimpl in Hk. apply not_elem_of_cons in Hk as [Hk Hr].
    apply IHr; [done|]. apply prop_set_Forall; [done|]. split; [constructor | done]. }
  destruct (cmarked c); [|done].
  apply prop_set_Forall; [done|]. by split; [constructor|].
Qed.

End unregistered.

(** C9 (amended): let no object of the heap have an own property named
    [__id], and let a serialize traversal that produced the text [t] have
    reached the composite [l0] whose class name is not registered.  Then
    [l0] has an id in the visited table; a first visit enters it in the
    table and returns it unchanged; every later visit is answered by the
    back-reference [{__ref: id}]; no [__id] field of the text holds that id;
    decoding the text never enters an object under that id in the references
    table; and a back-reference to an id the table does not hold decodes to
    [undefined]. *)
Theorem unregistered_composite_dangles (cm : classMap) (h : heap) (fuel : nat)
    (root : value) (s : sval) (seen : seen_table) (t : json)
    (l0 : loc) (o0 : obj) (c0 : ctor) :
  (∀ o, o ∈ h → has_own (props o) "__id" = false) →
  serializeObject cm fuel h root [] = Ok (s, seen) →
  stringify fuel h s = Ok (Some t) →
  h !! l0 = Some o0 → constructor_of o0 = Ok c0 →
  prop_get cm (getClassName (cname c0)) = None →
  l0 ∈ seen.*1 →
  ∃ id,
    seen_get seen l0 = Some id
    ∧ (∀ fuel' seen0, seen_get seen0 l0 = None →
         serializeObject cm (S fuel') h (VRef l0) seen0
         = Ok (SLive (VRef l0),
               seen0 ++ [(l0, (getClassName (cname c0) +:+ "_" +:+ show_nat (length seen0)))]))
    ∧ (∀ fuel' seen1 id1, seen_get seen1 l0 = Some id1 →
         serializeObject cm (S fuel') h (VRef l0) seen1
         = Ok (SNode [("__ref", SLive (VStr id1))], seen1))
    ∧ (VStr id ∉ json_ids t)
    ∧ (∀ fuel' H v references' H',
         deserializeObject cm fuel' (JSON_parse t) [] H = Ok (v, references', H') →
         map_get references' (VStr id) = None)
    ∧ (∀ fuel' references H,
         map_get references (VStr id) = None →
         deserializeObject cm (S fuel') (JObj [("__ref", JStr id)]) references H
         = Ok (VUndef, references, H)).
Proof.
  intros Hno_id Hrun Hstr Ho Hc Hreg Hin.
  pose proof (serializeObject_table _ _ _ _ _ _ _ (seen_ok_nil h) Hrun) as [[Hok _] _].
  destruct (seen_get seen l0) as [id|] eqn:Hget; [|by apply seen_get_None in Hget].
  assert (¬ registered_id cm h seen id) as Hnot.
  { intros (l & o & c & Hl & Ho' & Hc' & Hreg').
    assert (l = l0) as ->.
    { apply seen_get_Some in Hget. apply seen_ok_ids_NoDup in Hok.
      apply list_elem_of_lookup in Hl as [i Hi]. apply list_elem_of_lookup in Hget as [j Hj].
      assert (i = j) as ->; [|congruence].
      eapply NoDup_lookup; [done | |]; rewrite list_lookup_fmap; by erewrite ?Hi, ?Hj. }
    rewrite Ho in Ho'. injection Ho' as <-. rewrite Hc in Hc'. injection Hc' as <-.
    rewrite Hreg in Hreg'. by destruct Hreg'. }
  assert (VStr id ∉ json_ids t) as Hids.
  { intros Hk. eapply stringify_ids in Hk as [?|(id' & [= <-] & ?)]; [done | done | done | | done].
    by eapply serializeObject_ids; [| apply seen_ok_nil | |]. }
  assert (id ≠ "") as Hne.
  { destruct Hok as [_ Hid]. apply seen_get_Some, list_elem_of_lookup in Hget as [i Hi].
    destruct (Hid _ _ _ Hi) as (? & c & _ & _ & ->).
    destruct (getClassName (cname c)); discriminate. }
  exists id. split_and!; [done | | | done | |].
  - intros fuel' seen0 Hs0. by rewrite serializeObject_S, Hs0, Ho, Hc; simpl; rewrite Hreg.
  - intros fuel' seen1 id1 Hs1. by rewrite serializeObject_S, Hs1.
  - intros fuel' H v refs' H' E.
    destruct (map_get refs' (VStr id)) as [x|] eqn:Hx; [|done]. exfalso.
    pose proof (deserializeObject_refs cm (λ k, k ≠ VStr id) fuel' _ _ _ _ _ _ E) as Hsat.
    eapply Hsat; [| |exact Hx|done].
    + intros k Hk%json_ids_parse ->. done.
    + by intros ? ? ?.
  - intros fuel' refs H Hnone. rewrite deserializeObject_S. simpl.
    rewrite bool_decide_eq_false_2 by done. simpl.
    unfold refs_get, field. simpl. by rewrite Hnone.
Qed.

(** ** A map that contains itself *)

(** the map built by [m = new Map(); m.set("self", m)], placed at [l] *)
Definition self_map (l : loc) : obj :=
  Obj (Some Map_ctor) (SMap [(VStr "self", VRef l)]) [].

Definition self_map_text : json :=
  JObj [ ("__class", JStr "Map"); ("__id", JStr "Map_0");
         ("entries", JArr [JArr [JStr "self"; JObj [("__ref", JStr "Map_0")]]]);
         ("__map", JBool true) ].

(** C4: for a map [m] with [m.set("self", m)], [serialize(m)],
    [deserialize(serialize(m))] and [copy(m)] all return (with any fuel from
    six on); the text holds the map once and one back-reference to it, and
    decoding or copying allocates exactly one new map, whose entry [self] is
    that new map. *)
Theorem self_map_terminates (cm : classMap) (h : heap) (l : loc) (fuel : nat) :
  h !! l = Some (self_map l) →
  prop_get cm "Map" = Some Map_ctor →
  serialize cm (6 + fuel) h (VRef l) = Ok (Some self_map_text)
  ∧ (∀ h', deserialize cm (6 + fuel) self_map_text h'
           = Ok (VRef (length h'), h' ++ [self_map (length h')]))
  ∧ deepCopy (6 + fuel) (VRef l) (-1) h
    = Ok (VRef (length h), h ++ [self_map (length h)]).
Proof.
  intros Hl Hcm. split_and!.
  - unfold serialize. change (6 + fuel) with (S (S (4 + fuel))).
    rewrite serializeObject_S. simpl. rewrite Hl. simpl. rewrite Hcm. simpl.
    unfold serialize_child. simpl.
    rewrite serializeObject_S. simpl. rewrite decide_True by done. simpl.
    reflexivity.
  - intros h'. unfold deserialize. change (6 + fuel) with (S (S (4 + fuel))).
    change (JSON_parse self_map_text) with self_map_text. unfold self_map_text.
    rewrite deserializeObject_S. simpl. rewrite Hcm. simpl.
    unfold decode_child. simpl.
    unfold Map_set. rewrite alloc_lookup. simpl. rewrite alloc_insert.
    reflexivity.
  - unfold deepCopy. change (6 + fuel) with (S (S (4 + fuel))).
    rewrite copyObject_S. simpl. rewrite Hl. simpl.
    unfold copy_child. simpl.
    rewrite copyObject_S. simpl. rewrite decide_True by done. simpl.
    unfold Map_set. rewrite alloc_lookup. simpl. by rewrite alloc_insert.
Qed.

(** ** Depth-0 copy *)

(** C3 (amended): [copy(v, 0)] allocates nothing and returns [v] itself,
    for every value [v] and every heap; the guard [level === 0] answers
    before any shell is built. *)
Theorem copy_level0_returns_instance (fuel : nat) (v : value) (h : heap) :
  deepCopy (S fuel) v 0 h = Ok (v, h).
Proof.
  unfold deepCopy. rewrite copyObject_S. by destruct v.
Qed.

(** ** Objects without a constructor *)

(** C10: on an object whose prototype is null (and that has no own
    [constructor] property) both [serialize] and [deepCopy] raise a
    TypeError when they reach for [instance.constructor]. *)
Theorem null_prototype_throws (cm : classMap) (fuel : nat) (h : heap)
    (l : loc) (o : obj) (level : Z) :
  h !! l = Some o ->
  proto o = None ->
  has_own (props o) "constructor" = false ->
  level ≠ 0%Z ->
  serialize cm (S fuel) h (VRef l) = Throw TypeError
  ∧ deepCopy (S fuel) (VRef l) level h = Throw TypeError.
Proof.
  intros Hl Hp Hc Hlev. unfold serialize, deepCopy.
  rewrite serializeObject_S, copyObject_S. simpl.
  rewrite (bool_decide_eq_false_2 (level = 0%Z)) by done.
  rewrite Hl. unfold constructor_of. rewrite Hc, Hp. done.
Qed.

(** ** Unresolved back-references *)

(** C2 (amended): a back-reference whose id has no entry in the references
    table decodes to [undefined]; nothing is raised and neither the table
    nor the heap changes. *)
Theorem dangling_reference_is_undefined (cm : classMap) (fuel : nat)
    (jsonObject : json) (references : refs_table) (h : heap) :
  json_isObject jsonObject = true ->
  truthy (field jsonObject "__ref") = true ->
  (∀ k, json_prim (field jsonObject "__ref") = Some k -> map_get references k = None) ->
  deserializeObject cm (S fuel) jsonObject references h = Ok (VUndef, references, h).
Proof.
  intros Hobj Href Hnone. rewrite deserializeObject_S, Hobj, Href.
  unfold refs_get. destruct (json_prim _) as [k|] eqn:Hk; [|done].
  by rewrite (Hnone k).
Qed.

(** ** Round trips through the text *)

Definition is_index (k : string) : bool :=
  match array_index k with Some _ => true | None => false end.

Lemma key_before_name (k0 k : string) : is_index k = false → key_before k0 k = false.
Proof. unfold is_index, key_before. by destruct (array_index k). Qed.

Lemma key_before_index_name (k0 k : string) :
  is_index k = true → is_index k0 = false → key_before k0 k = true.
Proof. unfold is_index, key_before. by destruct (array_index k), (array_index k0). Qed.

(** In enumeration order the array indices come first. *)
Lemma canonical_split (ks : list string) :
  canonical_keys ks = true →
  ∃ n, forallb is_index (take n ks) = true
       ∧ forallb (λ k, negb (is_index k)) (drop n ks) = true.
Proof.
  induction ks as [|k0 r IH]; [by exists 0|].
  simpl. intros [Hk0 Hr]%andb_true_iff. destruct (is_index k0) eqn:Hi.
  - destruct (IH Hr) as (n & Hidx & Hstr). exists (S n). simpl. by rewrite Hi.
  - exists 0. split; [done|]. simpl. rewrite Hi. simpl.
    apply forallb_forall. intros k Hk. rewrite forallb_forall in Hk0.
    specialize (Hk0 k Hk). apply negb_true_iff in Hk0.
    destruct (is_index k) eqn:Hik; [|done].
    by rewrite key_before_index_name in Hk0.
Qed.

Lemma canonical_keys_app_l (a b : list string) :
  canonical_keys (a ++ b) = true → canonical_keys a = true.
Proof.
  induction a as [|k a IH]; [done|]. simpl.
  intros [Hk Hr]%andb_true_iff. rewrite forallb_app in Hk.
  apply andb_true_iff in Hk as [Hk _]. rewrite Hk. auto.
Qed.

Lemma canonical_keys_app_r (a b : list string) :
  canonical_keys (a ++ b) = true → canonical_keys b = true.
Proof. induction a as [|k a IH]; [done|]. simpl. intros [_ Hr]%andb_true_iff. auto. Qed.

Lemma prop_insert_app {A} (ps1 ps2 : list (string * A)) (k : string) (v : A) :
  Forall (λ k0, key_before k0 k = false) ps1.*1 →
  prop_insert (ps1 ++ ps2) k v = ps1 ++ prop_insert ps2 k v.
Proof.
  induction ps1 as [|[k0 v0] r IH]; csimpl; [done|].
  intros [Hk0 Hr]%Forall_cons. rewrite Hk0. by rewrite IH.
Qed.

(** assigning to the property in the middle of the list *)
Lemma prop_set_middle {A} (pre post : list (string * A)) (k : string) (x s : A) :
  k ∉ pre.*1 → prop_set (pre ++ (k, x) :: post) k s = pre ++ (k, s) :: post.
Proof.
  intros Hk. unfold prop_set.
  assert (has_own (pre ++ (k, x) :: post) k = true) as ->.
  { apply has_own_true. rewrite fmap_app, elem_of_app. right. left. }
  induction pre as [|[k0 v0] r IH]; csimpl.
  - by rewrite decide_True.
  - apply not_elem_of_cons in Hk as [Hne Hk]. rewrite decide_False by done.
    by rewrite IH.
Qed.

(** defining the members of a list in enumeration order rebuilds the list *)
Lemma fold_prop_set_canonical {A B} (f : A → B) (ps : list (string * A))
    (acc : list (string * B)) :
  NoDup (acc.*1 ++ ps.*1) → canonical_keys (acc.*1 ++ ps.*1) = true →
  fold_left (λ acc kv, prop_set acc kv.1 (f kv.2)) ps acc
  = acc ++ (prod_map id f <$> ps).
Proof.
  revert acc. induction ps as [|[k x] r IH]; intros acc Hnd Hcan; csimpl.
  - by rewrite app_nil_r.
  - rewrite prop_set_snoc.
    + rewrite IH; rewrite ?fmap_app, <- ?app_assoc; done.
    + apply NoDup_app in Hnd as (_ & Hnd & _). intros Hin. apply (Hnd _ Hin). left.
    + by eapply canonical_keys_app_cons.
Qed.


Lemma canonical_keys_names (a b : list string) :
  forallb (λ k, negb (is_index k)) b = true →
  canonical_keys (a ++ b) = canonical_keys a.
Proof.
  intros Hb. rewrite forallb_forall in Hb. induction a as [|k0 a IH]; simpl.
  - induction b as [|k b IHb]; simpl; [done|].
    rewrite IHb by (intros ? ?; apply Hb; by right). rewrite andb_true_r.
    apply forallb_forall. intros k' Hk'. apply negb_true_iff, key_before_name.
    apply negb_true_iff, Hb. by right.
  - rewrite IH, forallb_app. f_equal.
    assert (forallb (λ k, negb (key_before k0 k)) b = true) as ->; [|apply andb_true_r].
    apply forallb_forall. intros k' Hk'. by apply negb_true_iff, key_before_name, negb_true_iff, Hb.
Qed.

(** [Object.assign] of index properties into an object that has only named
    properties: they are enumerated before the names *)
Lemma fold_index_before {A B} (f : A → B) (idx : list (string * A))
    (pre meta : list (string * B)) :
  forallb is_index idx.*1 = true →
  forallb (λ k, negb (is_index k)) meta.*1 = true →
  NoDup (pre.*1 ++ idx.*1) → (∀ k, k ∈ idx.*1 → k ∉ meta.*1) →
  canonical_keys (pre.*1 ++ idx.*1) = true →
  fold_left (λ acc kv, prop_set acc kv.1 (f kv.2)) idx (pre ++ meta)
  = pre ++ (prod_map id f <$> idx) ++ meta.
Proof.
  revert pre. induction idx as [|[k x] r IH]; intros pre Hidx Hmeta Hnd Hdis Hcan; [done|].
  csimpl in *. apply andb_true_iff in Hidx as [Hk Hidx].
  assert (prop_set (pre ++ meta) k (f x) = (pre ++ [(k, f x)]) ++ meta) as ->.
  { unfold prop_set. rewrite (proj2 (has_own_false _ _)).
    - rewrite prop_insert_app by (by eapply canonical_keys_app_cons).
      rewrite <- app_assoc. f_equal. destruct meta as [|[m0 y0] meta]; [done|].
      csimpl in *. apply andb_true_iff in Hmeta as [Hm0%negb_true_iff _].
      by rewrite key_before_index_name.
    - rewrite fmap_app, elem_of_app. intros [Hin|Hin].
      + apply NoDup_app in Hnd as (_ & Hnd & _). apply (Hnd _ Hin). left.
      + apply (Hdis k); [left | done]. }
  rewrite IH; rewrite ?fmap_app, <- ?app_assoc; try done.
  intros k' Hk'. apply Hdis. by right.
Qed.

Lemma object_assign_shape (o : obj) (idx strs : list (string * value))
    (meta : list (string * sval)) :
  props o = idx ++ strs →
  forallb is_index idx.*1 = true →
  forallb (λ k, negb (is_index k)) strs.*1 = true →
  forallb (λ k, negb (is_index k)) meta.*1 = true →
  NoDup (props o).*1 → NoDup meta.*1 → (∀ k, k ∈ (props o).*1 → k ∉ meta.*1) →
  canonical_keys (props o).*1 = true →
  object_assign meta o
  = (prod_map id SLive <$> idx) ++ meta ++ (prod_map id SLive <$> strs).
Proof.
  intros Hps Hidx Hstrs Hmeta Hnd Hndm Hdis Hcan. unfold object_assign.
  rewrite Hps in *. rewrite fmap_app in *. rewrite fold_left_app.
  pose proof (fold_index_before SLive idx [] meta) as Hfold. simpl in Hfold.
  rewrite Hfold; try done.
  - rewrite app_assoc.
    assert ((prod_map id SLive <$> idx).*1 = idx.*1) as Hkeys.
    { rewrite <- list_fmap_compose. by apply list_fmap_ext. }
    rewrite (fold_prop_set_canonical SLive); [by rewrite <- app_assoc|..].
    + rewrite fmap_app, Hkeys, <- app_assoc. apply NoDup_app in Hnd as (Hn1 & Hn12 & Hn2).
      apply NoDup_app. split_and!; [done| |].
      * intros k Hk [Hin|Hin]%elem_of_app; [|by eapply Hn12].
        eapply Hdis; [|done]. apply elem_of_app. by left.
      * apply NoDup_app. split_and!; [done| |done].
        intros k Hk Hin. eapply Hdis; [|done]. apply elem_of_app. by right.
    + rewrite fmap_app, Hkeys, <- app_assoc. rewrite canonical_keys_names.
      * by eapply canonical_keys_app_l.
      * by rewrite forallb_app, Hmeta, Hstrs.
  - simpl. by apply NoDup_app in Hnd as (? & _).
  - intros k Hk. apply Hdis. apply elem_of_app. by left.
  - simpl. by eapply canonical_keys_app_l.
Qed.

Section encoder_normal_form.
Variable rec : value → seen_table → outcome (sval * seen_table).

(** the payload of a list of properties: each value encoded in turn *)
Fixpoint encode_props (ps : list (string * value)) (seen : seen_table)
  : outcome (list (string * sval) * seen_table) :=
  match ps with
  | [] => Ok ([], seen)
  | (k, x) :: r =>
      '(s, seen) ← serialize_child rec x seen;
      '(ss, seen) ← encode_props r seen;
      Ok ((k, s) :: ss, seen)
  end.

Lemma serialize_props_segment (o : obj) (seg : list (string * value))
    (pre post : list (string * sval)) (rest : list string) (seen : seen_table) :
  has_own (props o) "hasOwnProperty" = false → is_Some (proto o) →
  NoDup (pre.*1 ++ seg.*1) →
  (∀ kv, kv ∈ seg → prop_get (props o) kv.1 = Some kv.2) →
  serialize_props rec (seg.*1 ++ rest) o (pre ++ (prod_map id SLive <$> seg) ++ post) seen
  = '(ss, seen1) ← encode_props seg seen;
    serialize_props rec rest o (pre ++ ss ++ post) seen1.
Proof using.
  intros Hhas [c Hproto]. revert pre seen.
  induction seg as [|[k x] r IH]; intros pre seen Hnd Hown; [done|].
  csimpl. unfold hasOwnProperty. rewrite Hhas, Hproto. simpl.
  pose proof (Hown (k, x) ltac:(left)) as Hk. simpl in Hk.
  rewrite (proj2 (has_own_true _ _)) by (apply prop_get_is_Some; eauto).
  rewrite Hk. simpl.
  destruct (serialize_child rec x seen) as [[s seen1]| | |]; simpl; try done.
  rewrite prop_set_middle.
  2:{ apply NoDup_app in Hnd as (_ & Hnd & _). intros Hin. apply (Hnd _ Hin). left. }
  rewrite (cons_middle (k, s)), app_assoc. rewrite IH.
  - destruct (encode_props r seen1) as [[ss seen2]| | |]; simpl; try done.
    by rewrite <- app_assoc.
  - rewrite fmap_app, <- app_assoc. done.
  - intros kv Hkv. apply Hown. by right.
Qed.

Lemma serialize_props_skip (o : obj) (k : string) (rest : list string)
    (jo : list (string * sval)) (seen : seen_table) :
  has_own (props o) "hasOwnProperty" = false → is_Some (proto o) →
  has_own (props o) k = false →
  serialize_props rec (k :: rest) o jo seen = serialize_props rec rest o jo seen.
Proof using.
  intros Hhas [c Hproto] Hk. simpl. unfold hasOwnProperty. by rewrite Hhas, Hproto, Hk.
Qed.
End encoder_normal_form.

Lemma stringify_members_app {X} (rec : X → outcome (option json))
    (xs ys : list (string * X)) (ma mb : list (string * json)) :
  stringify_members rec xs = Ok ma → stringify_members rec ys = Ok mb →
  stringify_members rec (xs ++ ys) = Ok (ma ++ mb).
Proof.
  revert ma. induction xs as [|[k x] r IH]; intros ma Ha Hb; simpl in *.
  - by injection Ha as <-.
  - inv_bind Ha. inv_bind Ha. injection Ha as <-. rewrite E. simpl.
    erewrite IH by done. simpl. by destruct a.
Qed.

Lemma decode_props_app
    (rec : json → refs_table → heap → outcome (value * refs_table * heap))
    (jo : json) (l : loc) (xs ys : list (string * json)) (refs : refs_table) (H : heap) :
  decode_props rec jo l (xs ++ ys) refs H
  = '(refs1, H1) ← decode_props rec jo l xs refs H; decode_props rec jo l ys refs1 H1.
Proof.
  revert refs H. induction xs as [|[key x] r IH]; intros refs H; simpl; [done|].
  destruct (has_own (members jo) "hasOwnProperty"); [done|].
  destruct (bool_decide (key ≠ "__class") && bool_decide (key ≠ "__id")); [|apply IH].
  destruct (H !! l); [|done]. destruct (defined_on o key); [apply IH|].
  destruct (decode_child rec (Some x) refs H) as [[[v refs1] H1]| | |]; simpl; try done.
  destruct (heap_update H1 l _); simpl; [apply IH | done..].
Qed.


(** *** Graphs that survive the round trip *)

Definition defined (v : value) : bool := negb (bool_decide (v = VUndef)).

(** the property names the encoder and the decoder give a meaning to *)
Definition metadata_names : list string :=
  ["__class"; "__id"; "__ref"; "__set"; "__map"; "__date"].

(** An object the round trip reproduces: it is copyable, the registry maps
    the name of its class back to that class, the class is neither marked
    nor a timestamp, no own property has a metadata name, and no property,
    member, key or entry is [undefined]. *)
Definition roundtrippable_obj (cm : classMap) (n : nat) (o : obj) : bool :=
  copyable_obj n o
  && match proto o with
     | None => false
     | Some c =>
         bool_decide (prop_get cm (getClassName (cname c)) = Some c)
         && negb (cmarked c)
         && negb (bool_decide (cbrand c = BDate))
         && forallb (λ k, negb (bool_decide (k ∈ metadata_names))) (props o).*1
         && forallb defined (props o).*2
         && match oslot o with
            | SSet items => forallb defined items
            | SMap entries => forallb defined entries.*1 && forallb defined entries.*2
            | _ => true
            end
     end.

Definition roundtrippable (cm : classMap) (h : heap) : bool :=
  forallb (roundtrippable_obj cm (length h)) h.

(** The objects met so far: the source object, the id the encoder gave it
    and what the decoder built for it.  The visited table of the encoder and
    the references table of the decoder are two projections of this list. *)
Definition trail := list (loc * string * value).

Definition seen_of (tr : trail) : seen_table := (λ t, (t.1.1, t.1.2)) <$> tr.
Definition refs_of (tr : trail) : refs_table := (λ t, (VStr t.1.2, t.2)) <$> tr.
Definition table_of (tr : trail) : copy_table := (λ t, (t.1.1, t.2)) <$> tr.

Lemma table_of_keys (tr : trail) : (table_of tr).*1 = (seen_of tr).*1.
Proof. unfold table_of, seen_of. rewrite <- !list_fmap_compose. by apply list_fmap_ext. Qed.

Lemma refs_of_keys (tr : trail) : (refs_of tr).*1 = VStr <$> (seen_of tr).*2.
Proof. unfold refs_of, seen_of. rewrite <- !list_fmap_compose. by apply list_fmap_ext. Qed.

Lemma seen_of_length (tr : trail) : length (seen_of tr) = length tr.
Proof. apply length_fmap. Qed.

Lemma seen_of_prefix (tr tr' : trail) : tr `prefix_of` tr' → seen_of tr `prefix_of` seen_of tr'.
Proof. intros [k ->]. unfold seen_of. rewrite fmap_app. by eexists. Qed.

Lemma table_of_prefix (tr tr' : trail) :
  tr `prefix_of` tr' → table_of tr `prefix_of` table_of tr'.
Proof. intros [k ->]. unfold table_of. rewrite fmap_app. by eexists. Qed.

Lemma table_of_get_None (tr : trail) (l : loc) :
  seen_get (seen_of tr) l = None → copy_get (table_of tr) l = None.
Proof. rewrite seen_get_None, copy_get_None. by rewrite table_of_keys. Qed.

(** an id of the trail leads the decoder to the copy of the object *)
Lemma trail_get (tr : trail) (l : loc) (id : string) :
  NoDup (seen_of tr).*2 → seen_get (seen_of tr) l = Some id →
  map_get (refs_of tr) (VStr id) = copy_get (table_of tr) l.
Proof.
  induction tr as [|[[l0 id0] c0] r IH]; csimpl; [done|].
  intros [Hid0 Hnd]%NoDup_cons. destruct (decide (l0 = l)) as [->|Hne].
  - intros [= ->]. by rewrite decide_True.
  - intros Hget. rewrite decide_False; [by apply IH|].
    intros [= ->]. apply Hid0. apply seen_get_Some in Hget.
    apply list_elem_of_fmap. by exists (l, id).
Qed.

(** the text of a primitive *)
Definition json_of_prim (v : value) : json :=
  match v with
  | VBool b => JBool b
  | VNum n => JNum n
  | VStr s => JStr s
  | _ => JNull
  end.

Section roundtrip_correct.
Variable cm : classMap.
Variable h : heap.
Hypothesis Hh : roundtrippable cm h = true.

Lemma roundtrippable_lookup (l : loc) (o : obj) :
  h !! l = Some o → roundtrippable_obj cm (length h) o = true.
Proof using Hh.
  intros Hl. unfold roundtrippable in Hh. rewrite forallb_forall in Hh.
  apply Hh, list_elem_of_In, list_elem_of_lookup. eauto.
Qed.

Lemma roundtrippable_copyable : copyable h = true.
Proof using Hh.
  unfold roundtrippable, copyable in *. rewrite forallb_forall in *.
  intros o Ho. by apply Hh, andb_true_iff in Ho as [? _].
Qed.

(** what the decoder returns for the text of [v], the encoder having ended
    with the table [seen'] *)
Definition rt_post (tr : trail) (H : heap) (v : value) (seen' : seen_table)
    (r : value * refs_table * heap) : Prop :=
  let '(v', refs', H') := r in
  ∃ tr',
    tr `prefix_of` tr' ∧ seen' = seen_of tr' ∧ refs' = refs_of tr'
    ∧ seen_ok h seen'
    ∧ H `prefix_of` H'
    ∧ copy_table_ok (length h) (table_of tr') H'
    ∧ renamed (table_of tr') v v'
    ∧ ∀ l, l ∈ (table_of tr').*1 → l ∉ (table_of tr).*1 → copied (table_of tr') h H' l.

(** one call of the encoder on an object, the text of its result, and one
    call of the decoder on that text *)
Definition rt_step (f : nat)
    (rec_e : value → seen_table → outcome (sval * seen_table))
    (rec_d : json → refs_table → heap → outcome (value * refs_table * heap)) : Prop :=
  ∀ v tr H,
    seen_ok h (seen_of tr) → copy_table_ok (length h) (table_of tr) H → h `prefix_of` H →
    value_valid (length h) v = true → isObject v = true →
    length h < f + length tr →
    ∃ s seen' j r,
      rec_e v (seen_of tr) = Ok (s, seen')
      ∧ (∀ k, 3 * length seen' + 3 ≤ k + 3 * length tr → stringify k h s = Ok (Some j))
      ∧ JSON_parse j = j ∧ json_isObject j = true
      ∧ rec_d j (refs_of tr) H = Ok r
      ∧ rt_post tr H v seen' r.

Variable f : nat.
Variable rec_e : value → seen_table → outcome (sval * seen_table).
Variable rec_d : json → refs_table → heap → outcome (value * refs_table * heap).
Hypothesis Hrec : rt_step f rec_e rec_d.

Lemma rt_child v tr H :
  seen_ok h (seen_of tr) → copy_table_ok (length h) (table_of tr) H → h `prefix_of` H →
  value_valid (length h) v = true → defined v = true →
  length h < f + length tr →
  ∃ s seen' j r,
    serialize_child rec_e v (seen_of tr) = Ok (s, seen')
    ∧ (∀ k, 3 * length seen' + 3 ≤ k + 3 * length tr → stringify k h s = Ok (Some j))
    ∧ JSON_parse j = j
    ∧ decode_child rec_d (Some j) (refs_of tr) H = Ok r
    ∧ rt_post tr H v seen' r.
Proof using Hrec.
  intros Hsok Hok Hp Hv Hdef Hf. unfold serialize_child.
  destruct (isObject v) eqn:Hobj.
  - destruct (Hrec v tr H) as (s & seen' & j & r & E & Hstr & Hparse & Hj & Ed & Hpost);
      [done..|].
    exists s, seen', j, r. split_and!; [done | done | done | | done].
    unfold decode_child. by destruct j.
  - exists (SLive v), (seen_of tr), (json_of_prim v), (v, refs_of tr, H).
    split_and!; [done | | by destruct v | by destruct v |].
    + intros k Hk. rewrite seen_of_length in Hk.
      destruct k as [|[|k]]; [lia | lia |].
      rewrite stringify_S, stringify_live_S. by destruct v.
    + exists tr. split_and!; [done | done | done | done | done | done | by destruct v | done].
Qed.


Lemma rt_props c s l cl ps dps tr H :
  seen_ok h (seen_of tr) →
  copy_table_ok (length h) (table_of tr) H → h `prefix_of` H → length h ≤ cl →
  H !! cl = Some (Obj (Some c) s dps) →
  (∀ k, k ∈ ps.*1 → inherited (Obj (Some c) s []) k = false) →
  (∀ k, k ∈ ps.*1 → k ∉ metadata_names) →
  NoDup (dps.*1 ++ ps.*1) → canonical_keys (dps.*1 ++ ps.*1) = true →
  forallb (value_valid (length h)) ps.*2 = true →
  forallb defined ps.*2 = true →
  copy_get (table_of tr) l = Some (VRef cl) →
  length h < f + length tr →
  ∃ ss ms tr' H' ps',
    encode_props rec_e ps (seen_of tr) = Ok (ss, seen_of tr')
    ∧ (∀ k, 3 * length tr' + 3 ≤ k + 3 * length tr →
         stringify_members (stringify k h) ss = Ok ms)
    ∧ ms.*1 = ps.*1 ∧ Forall (λ m, JSON_parse m.2 = m.2) ms
    ∧ (∀ jo, has_own (members jo) "hasOwnProperty" = false →
         decode_props rec_d jo cl ms (refs_of tr) H = Ok (refs_of tr', H'))
    ∧ tr `prefix_of` tr' ∧ seen_ok h (seen_of tr')
    ∧ frame_except cl H H'
    ∧ copy_table_ok (length h) (table_of tr') H'
    ∧ H' !! cl = Some (Obj (Some c) s (dps ++ ps'))
    ∧ props_renamed (table_of tr') ps ps'
    ∧ ∀ l0, l0 ∈ (table_of tr').*1 → l0 ∉ (table_of tr).*1 → copied (table_of tr') h H' l0.
Proof using Hrec.
  revert dps tr H.
  induction ps as [|[key x] r IH];
    intros dps tr H Hsok Hok Hp Hcl Hcopy Hinh Hmeta Hnd Hcan Hval Hdef Hl Hf.
  - exists [], [], tr, H, []. simpl. rewrite app_nil_r.
    split_and!; [done | done | done | constructor | done | done | done
                | apply frame_except_refl | done | done | constructor | done].
  - csimpl in *. apply andb_true_iff in Hval as [Hx Hval].
    apply andb_true_iff in Hdef as [Hdx Hdef].
    assert (key ∉ dps.*1) as Hkey.
    { apply NoDup_app in Hnd as (_ & Hnd & _). intros Hin. apply (Hnd _ Hin). left. }
    destruct (rt_child x tr H)
      as (s1 & seen1 & j1 & [[v refs1] H1] & Ee & Hstr1 & Hparse1 & Ed & Hpost1); [done..|].
    destruct Hpost1 as (tr1 & Hp1 & -> & -> & Hsok1 & HpH1 & Hok1 & Hren & Hnew1).
    set (H2 := <[cl:=Obj (Some c) s (dps ++ [(key, v)])]> H1).
    assert (H1 !! cl = Some (Obj (Some c) s dps)) as Hcopy1.
    { by eapply prefix_lookup_Some. }
    assert (cl < length H1) as HclH1 by (by eapply lookup_lt_Some).
    assert (frame_except cl H H2) as Hfr2.
    { eapply frame_except_trans; [by apply frame_except_prefix | apply frame_except_insert]. }
    pose proof (table_of_prefix _ _ Hp1) as Hpt1.
    pose proof (prefix_length _ _ Hp1) as HL1.
    destruct (IH (dps ++ [(key, v)]) tr1 H2)
      as (ss & ms & tr' & H' & ps' & Ee' & Hstr' & Hkeys' & Hparse' & Ed' & Hp' & Hsok'
          & Hfr' & Hok' & Hcl' & Hren' & Hnew').
    + done.
    + eapply copy_table_ok_heap; [|done]. unfold H2. by rewrite length_insert.
    + by eapply frame_except_below.
    + done.
    + unfold H2. by apply list_lookup_insert_eq.
    + intros k Hk. apply Hinh. by right.
    + intros k Hk. apply Hmeta. by right.
    + rewrite fmap_app, <- app_assoc. done.
    + rewrite fmap_app, <- app_assoc. done.
    + done.
    + done.
    + by eapply copy_get_prefix.
    + lia.
    + exists ((key, s1) :: ss), ((key, j1) :: ms), tr', H', ((key, v) :: ps').
      pose proof (prefix_length _ _ Hp') as HL'.
      pose proof (table_of_prefix _ _ Hp') as Hpt'.
      split_and!.
      * simpl. rewrite Ee. simpl. by rewrite Ee'.
      * intros k Hk. simpl. rewrite Hstr1 by (rewrite seen_of_length; lia). simpl.
        by rewrite Hstr' by lia.
      * csimpl. by rewrite Hkeys'.
      * by constructor.
      * intros jo Hjo. simpl. rewrite Hjo.
        rewrite !bool_decide_eq_true_2;
          [|intros ->; apply (Hmeta "__id"); [left | by repeat constructor]
           |intros ->; apply (Hmeta "__class"); [left | by repeat constructor]].
        simpl. rewrite Hcopy.
        assert (defined_on (Obj (Some c) s dps) key = false) as ->.
        { unfold defined_on. simpl. apply prop_get_None in Hkey. rewrite Hkey.
          rewrite <- (Hinh key) by left. done. }
        rewrite Ed. simpl. unfold heap_update. rewrite Hcopy1. simpl.
        unfold with_props. simpl.
        rewrite prop_set_snoc; [|done | by eapply canonical_keys_app_cons].
        by apply Ed'.
      * by etrans.
      * done.
      * by eapply frame_except_trans.
      * done.
      * by rewrite <- app_assoc in Hcl'.
      * constructor; [|done]. split; [done|]. by eapply renamed_prefix.
      * intros l0 Hin Hnin.
        destruct (decide (l0 ∈ (table_of tr1).*1)) as [Hin1|Hnin1]; [|auto].
        eapply copied_mono; [done | | | by apply Hnew1].
        -- eapply frame_except_trans; [apply frame_except_insert | done].
        -- eapply (new_entry_not_cl h); [done | by eapply copy_get_prefix |].
           intros ->. apply Hnin. apply copy_get_Some in Hl.
           apply list_elem_of_fmap. by exists (l, VRef cl).
Qed.

Lemma rt_items p l cl items dsrc ditems tr H :
  seen_ok h (seen_of tr) →
  copy_table_ok (length h) (table_of tr) H → h `prefix_of` H → length h ≤ cl →
  H !! cl = Some (Obj p (SSet ditems) []) →
  Forall2 (renamed (table_of tr)) dsrc ditems →
  NoDup (dsrc ++ items) →
  forallb (value_valid (length h)) items = true →
  forallb defined items = true →
  copy_get (table_of tr) l = Some (VRef cl) →
  length h < f + length tr →
  ∃ ss js tr' H' items',
    serialize_items rec_e items (seen_of tr) = Ok (ss, seen_of tr')
    ∧ (∀ k, 3 * length tr' + 3 ≤ k + 3 * length tr →
         stringify_elements (stringify k h) ss = Ok js)
    ∧ Forall (λ j, JSON_parse j = j) js
    ∧ decode_values rec_d cl js (refs_of tr) H = Ok (refs_of tr', H')
    ∧ tr `prefix_of` tr' ∧ seen_ok h (seen_of tr')
    ∧ frame_except cl H H'
    ∧ copy_table_ok (length h) (table_of tr') H'
    ∧ H' !! cl = Some (Obj p (SSet (ditems ++ items')) [])
    ∧ Forall2 (renamed (table_of tr')) items items'
    ∧ ∀ l0, l0 ∈ (table_of tr').*1 → l0 ∉ (table_of tr).*1 → copied (table_of tr') h H' l0.
Proof using Hrec.
  revert dsrc ditems tr H.
  induction items as [|x r IH];
    intros dsrc ditems tr H Hsok Hok Hp Hcl Hcopy Hdone Hnd Hval Hdef Hl Hf.
  - exists [], [], tr, H, []. simpl. rewrite app_nil_r.
    split_and!; [done | done | constructor | done | done | done
                | apply frame_except_refl | done | done | constructor | done].
  - simpl in *. apply andb_true_iff in Hval as [Hx Hval].
    apply andb_true_iff in Hdef as [Hdx Hdef].
    destruct (rt_child x tr H)
      as (s1 & seen1 & j1 & [[v refs1] H1] & Ee & Hstr1 & Hparse1 & Ed & Hpost1); [done..|].
    destruct Hpost1 as (tr1 & Hp1 & -> & -> & Hsok1 & HpH1 & Hok1 & Hren & Hnew1).
    pose proof (table_of_prefix _ _ Hp1) as Hpt1.
    pose proof (prefix_length _ _ Hp1) as HL1.
    assert (H1 !! cl = Some (Obj p (SSet ditems) [])) as Hcopy1.
    { by eapply prefix_lookup_Some. }
    assert (v ∉ ditems) as Hv.
    { intros Hin. destruct (renamed_elem_of _ _ _ _ Hdone Hin) as (x0 & Hx0 & Hren0).
      assert (x0 = x) as ->.
      { eapply renamed_inj; [done | by eapply renamed_prefix | done]. }
      apply NoDup_app in Hnd as (_ & Hnd & _). apply (Hnd _ Hx0). left. }
    set (H2 := <[cl:=Obj p (SSet (ditems ++ [v])) []]> H1).
    assert (cl < length H1) as HclH1 by (by eapply lookup_lt_Some).
    destruct (IH (dsrc ++ [x]) (ditems ++ [v]) tr1 H2)
      as (ss & js & tr' & H' & r' & Ee' & Hstr' & Hparse' & Ed' & Hp' & Hsok' & Hfr' & Hok'
          & Hcl' & Hren' & Hnew').
    + done.
    + eapply copy_table_ok_heap; [|done]. unfold H2. by rewrite length_insert.
    + eapply frame_except_below; [done | done |].
      eapply frame_except_trans; [by apply frame_except_prefix | apply frame_except_insert].
    + done.
    + unfold H2. by apply list_lookup_insert_eq.
    + apply Forall2_app; [|by repeat constructor].
      eapply Forall2_impl; [done|]. eauto using renamed_prefix.
    + by rewrite <- app_assoc.
    + done.
    + done.
    + by eapply copy_get_prefix.
    + lia.
    + exists (s1 :: ss), (j1 :: js), tr', H', (v :: r').
      pose proof (prefix_length _ _ Hp') as HL'.
      pose proof (table_of_prefix _ _ Hp') as Hpt'.
      split_and!.
      * simpl. rewrite Ee. simpl. by rewrite Ee'.
      * intros k Hk. simpl. rewrite Hstr1 by (rewrite seen_of_length; lia). simpl.
        by rewrite Hstr' by lia.
      * by constructor.
      * simpl. rewrite Ed. simpl. unfold Set_add. rewrite Hcopy1. simpl.
        rewrite set_add_snoc by done. by apply Ed'.
      * by etrans.
      * done.
      * eapply frame_except_trans; [by apply frame_except_prefix|].
        eapply frame_except_trans; [apply frame_except_insert | done].
      * done.
      * by rewrite <- app_assoc in Hcl'.
      * constructor; [|done]. by eapply renamed_prefix.
      * intros l0 Hin Hnin.
        destruct (decide (l0 ∈ (table_of tr1).*1)) as [Hin1|Hnin1]; [|auto].
        eapply copied_mono; [done | | | by apply Hnew1].
        -- eapply frame_except_trans; [apply frame_except_insert | done].
        -- eapply (new_entry_not_cl h); [done | by eapply copy_get_prefix |].
           intros ->. apply Hnin. apply copy_get_Some in Hl.
           apply list_elem_of_fmap. by exists (l, VRef cl).
Qed.


Lemma rt_entries p l cl entries dsrc dentries tr H :
  seen_ok h (seen_of tr) →
  copy_table_ok (length h) (table_of tr) H → h `prefix_of` H → length h ≤ cl →
  H !! cl = Some (Obj p (SMap dentries) []) →
  Forall2 (entry_renamed (table_of tr)) dsrc dentries →
  NoDup (dsrc.*1 ++ entries.*1) →
  forallb (value_valid (length h)) entries.*1 = true →
  forallb (value_valid (length h)) entries.*2 = true →
  forallb defined entries.*1 = true →
  forallb defined entries.*2 = true →
  copy_get (table_of tr) l = Some (VRef cl) →
  length h < f + length tr →
  ∃ ss js tr' H' entries',
    serialize_entries rec_e entries (seen_of tr) = Ok (ss, seen_of tr')
    ∧ (∀ n, 3 * length tr' + 3 ≤ n + 3 * length tr →
         stringify_elements (stringify (S n) h) ss = Ok js)
    ∧ Forall (λ j, JSON_parse j = j) js
    ∧ decode_entries rec_d cl js (refs_of tr) H = Ok (refs_of tr', H')
    ∧ tr `prefix_of` tr' ∧ seen_ok h (seen_of tr')
    ∧ frame_except cl H H'
    ∧ copy_table_ok (length h) (table_of tr') H'
    ∧ H' !! cl = Some (Obj p (SMap (dentries ++ entries')) [])
    ∧ Forall2 (entry_renamed (table_of tr')) entries entries'
    ∧ ∀ l0, l0 ∈ (table_of tr').*1 → l0 ∉ (table_of tr).*1 → copied (table_of tr') h H' l0.
Proof using Hrec.
  revert dsrc dentries tr H.
  induction entries as [|[k x] r IH];
    intros dsrc dentries tr H Hsok Hok Hp Hcl Hcopy Hdone Hnd Hvk Hvx Hdk Hdx Hl Hf.
  - exists [], [], tr, H, []. simpl. rewrite app_nil_r.
    split_and!; [done | done | constructor | done | done | done
                | apply frame_except_refl | done | done | constructor | done].
  - csimpl in *. apply andb_true_iff in Hvk as [Hk Hvk].
    apply andb_true_iff in Hvx as [Hx Hvx].
    apply andb_true_iff in Hdk as [Hk' Hdk].
    apply andb_true_iff in Hdx as [Hx' Hdx].
    destruct (rt_child k tr H)
      as (s1 & seen1 & j1 & [[k' refs1] H1] & Ee1 & Hstr1 & Hparse1 & Ed1 & Hpost1);
      [done..|].
    destruct Hpost1 as (tr1 & Hp1 & -> & -> & Hsok1 & HpH1 & Hok1 & Hrenk & Hnew1).
    pose proof (table_of_prefix _ _ Hp1) as Hpt1.
    pose proof (prefix_length _ _ Hp1) as HL1.
    destruct (rt_child x tr1 H1)
      as (s2 & seen2 & j2 & [[v refs2] H2] & Ee2 & Hstr2 & Hparse2 & Ed2 & Hpost2);
      [done | done | by etrans | done | done | lia |].
    destruct Hpost2 as (tr2 & Hp2 & -> & -> & Hsok2 & HpH2 & Hok2 & Hrenx & Hnew2).
    pose proof (table_of_prefix _ _ Hp2) as Hpt2.
    pose proof (prefix_length _ _ Hp2) as HL2.
    assert (H2 !! cl = Some (Obj p (SMap dentries) [])) as Hcopy2.
    { eapply prefix_lookup_Some; [|done]. by eapply prefix_lookup_Some. }
    assert (table_of tr `prefix_of` table_of tr2) as Hp12 by (by etrans).
    assert (k' ∉ dentries.*1) as Hknew.
    { intros ([k0 v0] & -> & Hin)%list_elem_of_fmap.
      apply list_elem_of_lookup in Hin as [i Hi].
      destruct (Forall2_lookup_r _ _ _ _ _ Hdone Hi) as ([ks vs] & Hs & Hrk & _).
      simpl in *. assert (ks = k) as ->.
      { eapply (renamed_inj _ (table_of tr2) H2); [done | |].
        - exact (renamed_prefix _ _ _ _ Hp12 Hrk).
        - exact (renamed_prefix _ _ _ _ Hpt2 Hrenk). }
      apply NoDup_app in Hnd as (_ & Hnd & _). apply (Hnd k); [|left].
      apply list_elem_of_fmap. exists (k, vs). split; [done|].
      apply list_elem_of_lookup. eauto. }
    set (H3 := <[cl:=Obj p (SMap (dentries ++ [(k', v)])) []]> H2).
    assert (cl < length H2) as HclH2 by (by eapply lookup_lt_Some).
    assert (frame_except cl H H3) as Hfr3.
    { eapply frame_except_trans; [apply frame_except_prefix; by etrans|].
      apply frame_except_insert. }
    destruct (IH (dsrc ++ [(k, x)]) (dentries ++ [(k', v)]) tr2 H3)
      as (ss & js & tr' & H' & r' & Ee' & Hstr' & Hparse' & Ed' & Hp' & Hsok' & Hfr' & Hok'
          & Hcl' & Hren' & Hnew').
    + done.
    + eapply copy_table_ok_heap; [|done]. unfold H3. by rewrite length_insert.
    + by eapply frame_except_below.
    + done.
    + unfold H3. by apply list_lookup_insert_eq.
    + apply Forall2_app.
      * eapply Forall2_impl; [done|]. intros ? ? []. split; by eapply renamed_prefix.
      * constructor; [|constructor].
        split; simpl; [exact (renamed_prefix _ _ _ _ Hpt2 Hrenk) | done].
    + rewrite fmap_app, <- app_assoc. done.
    + done.
    + done.
    + done.
    + done.
    + by eapply copy_get_prefix.
    + lia.
    + exists (SList [s1; s2] :: ss), (JArr [j1; j2] :: js), tr', H', ((k', v) :: r').
      pose proof (prefix_length _ _ Hp') as HL'.
      pose proof (table_of_prefix _ _ Hp') as Hpt'.
      assert (copy_get (table_of tr2) l = Some (VRef cl)) as Hl2
        by (by eapply copy_get_prefix).
      assert (l ∈ (table_of tr).*1) as Hlin.
      { apply copy_get_Some in Hl. apply list_elem_of_fmap. by exists (l, VRef cl). }
      split_and!.
      * simpl. rewrite Ee1. simpl. rewrite Ee2. simpl. by rewrite Ee'.
      * intros n Hn. simpl. rewrite stringify_S. simpl.
        rewrite Hstr1 by (rewrite seen_of_length; lia). simpl.
        rewrite Hstr2 by (rewrite seen_of_length; lia). simpl.
        by rewrite Hstr' by lia.
      * constructor; [|done]. simpl. by rewrite Hparse1, Hparse2.
      * simpl. rewrite Ed1. simpl. rewrite Ed2. simpl. unfold Map_set. rewrite Hcopy2.
        simpl. rewrite map_set_snoc by done. by apply Ed'.
      * by do 2 etrans.
      * done.
      * by eapply frame_except_trans.
      * done.
      * by rewrite <- app_assoc in Hcl'.
      * constructor; [|done]. split; simpl.
        -- eapply renamed_prefix; [|exact Hrenk]. by etrans.
        -- exact (renamed_prefix _ _ _ _ Hpt' Hrenx).
      * intros l0 Hin Hnin.
        destruct (decide (l0 ∈ (table_of tr2).*1)) as [Hin2|Hnin2]; [|auto].
        destruct (decide (l0 ∈ (table_of tr1).*1)) as [Hin1|Hnin1].
        -- eapply (copied_mono (table_of tr1) (table_of tr') h H1 H' cl l0);
             [by etrans | | | by apply Hnew1].
           ++ eapply frame_except_trans; [by apply frame_except_prefix|].
              eapply frame_except_trans; [apply frame_except_insert | done].
           ++ eapply (new_entry_not_cl h (table_of tr1) H1 l);
                [done | by eapply copy_get_prefix |].
              by intros ->.
        -- eapply (copied_mono (table_of tr2) (table_of tr') h H2 H' cl l0);
             [done | | | by apply Hnew2].
           ++ eapply frame_except_trans; [apply frame_except_insert | done].
           ++ eapply (new_entry_not_cl h (table_of tr2) H2 l); [done | done |].
              by intros ->.
Qed.

End roundtrip_correct.


Lemma encode_props_keys (rec : value → seen_table → outcome (sval * seen_table))
    (ps : list (string * value)) (seen : seen_table)
    (ss : list (string * sval)) (seen' : seen_table) :
  encode_props rec ps seen = Ok (ss, seen') → ss.*1 = ps.*1.
Proof.
  revert seen ss. induction ps as [|[k x] r IH]; intros seen ss E; simpl in E.
  - by injection E as <- <-.
  - inv_bind E. destruct a as [s seen1]. inv_bind E. destruct a as [ss' seen2].
    injection E as <- <-. csimpl. f_equal. eauto.
Qed.

(** the names of a payload: the indices, the two metadata names, the other
    names *)
Lemma payload_keys_tags (ks : list string) (n : nat) :
  NoDup ks → canonical_keys ks = true →
  forallb is_index (take n ks) = true →
  forallb (λ k, negb (is_index k)) (drop n ks) = true →
  (∀ k, k ∈ ks → k ≠ "__class" ∧ k ≠ "__id") →
  NoDup (take n ks ++ ["__class"; "__id"] ++ drop n ks)
  ∧ canonical_keys (take n ks ++ ["__class"; "__id"] ++ drop n ks) = true.
Proof.
  intros Hnd Hcan Hidx Hstr Htags.
  rewrite <- (take_drop n ks) in Hnd, Hcan.
  assert (∀ k, k ∈ take n ks ++ drop n ks → k ≠ "__class" ∧ k ≠ "__id") as Hne.
  { intros k Hk. rewrite take_drop in Hk. by apply Htags. }
  split.
  - apply NoDup_app in Hnd as (Hn1 & Hn12 & Hn2). apply NoDup_app. split_and!; [done| |].
    + intros k Hk [Hin|Hin]%elem_of_app; [|by eapply Hn12].
      destruct (Hne k) as [? ?]; [apply elem_of_app; by left|].
      apply elem_of_cons in Hin as [->|Hin]; [done|].
      by apply list_elem_of_singleton in Hin as ->.
    + apply NoDup_app. split_and!; [|intros k Hk Hin|done].
      * apply NoDup_cons. split; [|apply NoDup_singleton].
        by intros ?%list_elem_of_singleton.
      * destruct (Hne k) as [? ?]; [apply elem_of_app; by right|].
        apply elem_of_cons in Hk as [->|Hk]; [done|].
        by apply list_elem_of_singleton in Hk as ->.
  - rewrite canonical_keys_names; [by eapply canonical_keys_app_l|].
    simpl. done.
Qed.

Lemma payload_keys_ok (ks : list string) (n : nat) :
  NoDup ks → canonical_keys ks = true →
  forallb is_index (take n ks) = true →
  forallb (λ k, negb (is_index k)) (drop n ks) = true →
  (∀ k, k ∈ ks → k ∉ metadata_names) →
  NoDup (take n ks ++ ["__class"; "__id"] ++ drop n ks)
  ∧ canonical_keys (take n ks ++ ["__class"; "__id"] ++ drop n ks) = true.
Proof.
  intros Hnd Hcan Hidx Hstr Hmeta. apply payload_keys_tags; try done.
  intros k Hk. apply Hmeta in Hk. split; intros ->; apply Hk; by repeat constructor.
Qed.

Lemma prop_get_app_r {A} (ps1 ps2 : list (string * A)) (k : string) :
  k ∉ ps1.*1 → prop_get (ps1 ++ ps2) k = prop_get ps2 k.
Proof.
  induction ps1 as [|[k0 v0] r IH]; csimpl; [done|].
  intros [Hne Hk]%not_elem_of_cons. rewrite decide_False by done. auto.
Qed.

Lemma prop_get_app_l {A} (ps1 ps2 : list (string * A)) (k : string) (v : A) :
  prop_get ps1 k = Some v → prop_get (ps1 ++ ps2) k = Some v.
Proof.
  induction ps1 as [|[k0 v0] r IH]; csimpl; [done|]. destruct (decide (k0 = k)); auto.
Qed.

(** a parsed object whose members are in enumeration order is rebuilt as it
    is *)
Lemma parse_fixed_obj (ms : list (string * json)) :
  NoDup ms.*1 → canonical_keys ms.*1 = true →
  Forall (λ m, JSON_parse m.2 = m.2) ms →
  JSON_parse (JObj ms) = JObj ms.
Proof.
  intros Hnd Hcan Hfix. simpl. f_equal.
  rewrite (fold_prop_set_canonical JSON_parse ms []) by done. simpl.
  rewrite <- (list_fmap_id ms) at 2. apply Forall_fmap_ext_1.
  eapply Forall_impl; [done|]. intros [k x] Hx. simpl in *. unfold prod_map. simpl.
  by rewrite Hx.
Qed.

Lemma parse_fixed_arr (js : list json) :
  Forall (λ j, JSON_parse j = j) js → JSON_parse (JArr js) = JArr js.
Proof.
  intros Hfix. simpl. f_equal. rewrite <- (list_fmap_id js) at 2.
  by apply Forall_fmap_ext_1.
Qed.

(** the payload of a tagged instance or array, property by property *)
Lemma serialize_props_tags (rec : value → seen_table → outcome (sval * seen_table))
    (o : obj) (n : nat) (m1 m2 : sval) (seen : seen_table) :
  has_own (props o) "hasOwnProperty" = false → is_Some (proto o) →
  NoDup (props o).*1 → canonical_keys (props o).*1 = true →
  forallb is_index (take n (props o).*1) = true →
  forallb (λ k, negb (is_index k)) (drop n (props o).*1) = true →
  (∀ k, k ∈ (props o).*1 → k ≠ "__class" ∧ k ≠ "__id") →
  serialize_props rec (object_assign [("__class", m1); ("__id", m2)] o).*1 o
    (object_assign [("__class", m1); ("__id", m2)] o) seen
  = '(ss1, seen1) ← encode_props rec (take n (props o)) seen;
    '(ss2, seen2) ← encode_props rec (drop n (props o)) seen1;
    Ok (ss1 ++ [("__class", m1); ("__id", m2)] ++ ss2, seen2).
Proof.
  intros Hhas Hproto Hnd Hcan Hidx Hstr Hne.
  set (jo := object_assign _ o).
  set (idx := take n (props o)). set (strs := drop n (props o)).
  assert (props o = idx ++ strs) as Hps by (symmetry; apply take_drop).
  assert (idx.*1 = take n (props o).*1) as Hik by apply fmap_take.
  assert (strs.*1 = drop n (props o).*1) as Hsk by apply fmap_drop.
  assert (∀ (g : value → sval) (ps : list (string * value)),
            (prod_map id g <$> ps).*1 = ps.*1) as Hlive.
  { intros g ps. rewrite <- list_fmap_compose. by apply list_fmap_ext. }
  assert (jo = (prod_map id SLive <$> idx) ++ [("__class", m1); ("__id", m2)]
               ++ (prod_map id SLive <$> strs)) as ->.
  { unfold jo. apply object_assign_shape; try done; try congruence.
    - apply NoDup_cons. split; [|apply NoDup_singleton]. by intros ?%list_elem_of_singleton.
    - intros k Hk Hin. destruct (Hne k Hk). csimpl in Hin.
      apply elem_of_cons in Hin as [->|Hin]; [done|].
      by apply list_elem_of_singleton in Hin as ->. }
  assert (∀ kv, kv ∈ props o → prop_get (props o) kv.1 = Some kv.2) as Hown.
  { intros [k x] Hkv. simpl. destruct (prop_get (props o) k) as [y|] eqn:Hy.
    - apply prop_get_Some_elem in Hy. f_equal.
      apply list_elem_of_lookup in Hkv as [i Hi]. apply list_elem_of_lookup in Hy as [j Hj].
      assert (i = j) as ->; [|congruence].
      eapply NoDup_lookup; [exact Hnd| |]; by rewrite list_lookup_fmap; erewrite ?Hi, ?Hj.
    - apply prop_get_None in Hy. exfalso. apply Hy. apply list_elem_of_fmap. by exists (k, x). }
  rewrite !fmap_app, !Hlive. csimpl.
  pose proof (serialize_props_segment rec o idx []
                ([("__class", m1); ("__id", m2)] ++ (prod_map id SLive <$> strs))
                ("__class" :: "__id" :: strs.*1) seen Hhas Hproto) as Hseg1.
  cbn [app] in Hseg1. rewrite Hseg1; cycle 1.
  { rewrite Hik. rewrite <- (take_drop n (props o).*1) in Hnd.
    by apply NoDup_app in Hnd as (? & _). }
  { intros kv Hkv. apply Hown. rewrite Hps. apply elem_of_app. by left. }
  destruct (encode_props rec idx seen) as [[ss1 seen1]| | |] eqn:E1; simpl; try done.
  assert (∀ k, k ∈ ["__class"; "__id"] → has_own (props o) k = false) as Hskip.
  { intros k Hk. apply has_own_false. intros Hin. destruct (Hne k Hin).
    apply elem_of_cons in Hk as [->|Hk]; [done|].
    by apply list_elem_of_singleton in Hk as ->. }
  pose proof Hproto as [c Hc]. unfold hasOwnProperty.
  rewrite Hhas, Hc, !Hskip by (by repeat constructor). simpl.
  pose proof (serialize_props_segment rec o strs (ss1 ++ [("__class", m1); ("__id", m2)])
                [] [] seen1 Hhas Hproto) as Hseg2.
  rewrite !app_nil_r in Hseg2. rewrite <- app_assoc in Hseg2. cbn [app] in Hseg2.
  rewrite Hseg2; cycle 1.
  { rewrite fmap_app, (encode_props_keys _ _ _ _ _ E1), <- app_assoc, Hik, Hsk. csimpl.
    by apply payload_keys_tags. }
  { intros kv Hkv. apply Hown. rewrite Hps. apply elem_of_app. by right. }
  destruct (encode_props rec strs seen1) as [[ss2 seen2]| | |]; simpl; try done.
  by rewrite app_nil_r, <- app_assoc.
Qed.

Lemma serialize_props_normal (rec : value → seen_table → outcome (sval * seen_table))
    (o : obj) (n : nat) (m1 m2 : sval) (seen : seen_table) :
  has_own (props o) "hasOwnProperty" = false → is_Some (proto o) →
  NoDup (props o).*1 → canonical_keys (props o).*1 = true →
  forallb is_index (take n (props o).*1) = true →
  forallb (λ k, negb (is_index k)) (drop n (props o).*1) = true →
  (∀ k, k ∈ (props o).*1 → k ∉ metadata_names) →
  serialize_props rec (object_assign [("__class", m1); ("__id", m2)] o).*1 o
    (object_assign [("__class", m1); ("__id", m2)] o) seen
  = '(ss1, seen1) ← encode_props rec (take n (props o)) seen;
    '(ss2, seen2) ← encode_props rec (drop n (props o)) seen1;
    Ok (ss1 ++ [("__class", m1); ("__id", m2)] ++ ss2, seen2).
Proof.
  intros Hhas Hproto Hnd Hcan Hidx Hstr Hmeta. apply serialize_props_tags; try done.
  intros k Hk. apply Hmeta in Hk. split; intros ->; apply Hk; by repeat constructor.
Qed.


(** ** The payload of arrays and tagged instances *)

Lemma encode_props_app (rec : value → seen_table → outcome (sval * seen_table))
    (ps qs : list (string * value)) (seen : seen_table) :
  encode_props rec (ps ++ qs) seen
  = '(ss1, seen1) ← encode_props rec ps seen;
    '(ss2, seen2) ← encode_props rec qs seen1;
    Ok (ss1 ++ ss2, seen2).
Proof.
  revert seen. induction ps as [|[k x] r IH]; intros seen; simpl.
  - by destruct (encode_props rec qs seen) as [[ss2 seen2]| | |].
  - destruct (serialize_child rec x seen) as [[s seen1]| | |]; simpl; try done.
    rewrite IH. destruct (encode_props rec r seen1) as [[ss1 seen2]| | |]; simpl; try done.
    by destruct (encode_props rec qs seen2) as [[ss2 seen3]| | |].
Qed.

Lemma filter_all {A} (P : A → Prop) `{∀ x, Decision (P x)} (l : list A) :
  Forall P l → filter P l = l.
Proof.
  induction 1 as [|x r Hx Hr IH]; [done|]. by rewrite filter_cons_True, IH.
Qed.

Lemma filter_none {A} (P : A → Prop) `{∀ x, Decision (P x)} (l : list A) :
  Forall (λ x, ¬ P x) l → filter P l = [].
Proof.
  induction 1 as [|x r Hx Hr IH]; [done|]. by rewrite filter_cons_False.
Qed.

(** The payload of an array or a tagged instance whose own properties
    encode to [ss]: the indices, the tag and the id, then the other names. *)
Definition payload (className id : string) (ss : list (string * sval))
  : list (string * sval) :=
  filter (λ kv, is_index kv.1 = true) ss
  ++ [("__class", SLive (VStr className)); ("__id", SLive (VStr id))]
  ++ filter (λ kv, is_index kv.1 = false) ss.

Lemma payload_split (cn id : string) (ss : list (string * sval)) (n : nat) :
  forallb is_index (take n ss.*1) = true →
  forallb (λ k, negb (is_index k)) (drop n ss.*1) = true →
  payload cn id ss
  = take n ss ++ [("__class", SLive (VStr cn)); ("__id", SLive (VStr id))] ++ drop n ss.
Proof.
  intros Hidx Hstr. unfold payload.
  rewrite <- fmap_take in Hidx. rewrite <- fmap_drop in Hstr.
  assert (Forall (λ kv : string * sval, is_index kv.1 = true) (take n ss)) as H1.
  { apply Forall_forall. intros kv Hkv. rewrite forallb_forall in Hidx.
    apply Hidx, list_elem_of_In, list_elem_of_fmap. by exists kv. }
  assert (Forall (λ kv : string * sval, is_index kv.1 = false) (drop n ss)) as H2.
  { apply Forall_forall. intros kv Hkv. rewrite forallb_forall in Hstr.
    apply negb_true_iff, Hstr, list_elem_of_In, list_elem_of_fmap. by exists kv. }
  rewrite <- (take_drop n ss) at 1 2. rewrite !filter_app.
  rewrite (filter_all _ _ H1), (filter_all _ _ H2).
  rewrite !filter_none, app_nil_r; [done|..].
  - eapply Forall_impl; [exact H1|]. intros kv Hkv. simpl in *. congruence.
  - eapply Forall_impl; [exact H2|]. intros kv Hkv. simpl in *. congruence.
Qed.

(** C6 (amended): for an array or an instance of a registered class (a
    registered kind that is not a set, a map or a timestamp) that has no own
    property named [hasOwnProperty], [__proto__], [__class] or [__id], the
    payload is the tag, the id and, under every own property name, the
    result of [encodeNode] on the value of that property: the values are
    encoded one after the other in enumeration order, the first against the
    visited table that already holds the id of the object, each next one
    against the table the previous one left, and the call fails exactly when
    one of these encodings fails (a marked class adds [SERIALIZED_CLASS]);
    an object whose class name is not registered is returned as it is, with
    no payload built and nothing but its own id added to the table. *)
Theorem payload_encodes_own_properties (cm : classMap) (h : heap) (fuel : nat)
    (l : loc) (o : obj) (c : ctor) (seen : seen_table) :
  h !! l = Some o →
  seen_get seen l = None →
  constructor_of o = Ok c →
  let cn := getClassName (cname c) in
  let id := cn +:+ "_" +:+ show_nat (length seen) in
  (is_Some (prop_get cm cn) →
   cbrand c ∉ [BSet; BMap; BDate] →
   has_own (props o) "hasOwnProperty" = false →
   has_own (props o) "__proto__" = false →
   "__class" ∉ (props o).*1 → "__id" ∉ (props o).*1 →
   NoDup (props o).*1 → canonical_keys (props o).*1 = true →
   serializeObject cm (S fuel) h (VRef l) seen
   = '(ss, seen') ← encode_props (serializeObject cm fuel h) (props o) (seen ++ [(l, id)]);
     Ok (SNode (if cmarked c
                then prop_set (payload cn id ss) "SERIALIZED_CLASS" (SLive (VBool true))
                else payload cn id ss), seen'))
  ∧ (prop_get cm cn = None →
     serializeObject cm (S fuel) h (VRef l) seen = Ok (SLive (VRef l), seen ++ [(l, id)])).
Proof.
  intros Ho Hget Hc cn id. rewrite serializeObject_S, Hget, Ho, Hc. simpl.
  fold cn. fold id. split.
  - intros [c' Hreg] Hbrand Hhas Hpr Hclass Hid Hnd Hcan. rewrite Hreg.
    assert (proto o = Some c) as Hproto.
    { unfold constructor_of in Hc. destruct (has_own _ _); [done|].
      destruct (proto o); by inversion Hc. }
    assert (∀ b, b ∈ [BSet; BMap; BDate] → instanceof o b = false) as Hinst.
    { intros b Hb. unfold instanceof. rewrite Hproto. apply bool_decide_eq_false.
      by intros <-. }
    rewrite !Hinst by repeat constructor. rewrite Hpr.
    destruct (canonical_split _ Hcan) as (n & Hidx & Hstr).
    rewrite (serialize_props_tags _ o n); [|done | by rewrite Hproto | done..|]; cycle 1.
    { intros k Hk. split; by intros ->. }
    pose proof (encode_props_app (serializeObject cm fuel h) (take n (props o))
                  (drop n (props o)) (seen ++ [(l, id)])) as Happ.
    rewrite take_drop in Happ. rewrite Happ. clear Happ.
    destruct (encode_props _ (take n (props o)) _) as [[ss1 seen1]| | |] eqn:E1;
      simpl; try done.
    destruct (encode_props _ (drop n (props o)) _) as [[ss2 seen2]| | |] eqn:E2;
      simpl; try done.
    apply encode_props_keys in E1, E2.
    assert (length ss1 = n `min` length (props o)) as Hlen.
    { rewrite <- (length_fmap fst ss1), E1, length_fmap. apply length_take. }
    assert (take n (ss1 ++ ss2) = ss1 ∧ drop n (ss1 ++ ss2) = ss2) as [Ht Hd].
    { destruct (decide (n ≤ length (props o))) as [Hle|Hgt].
      - assert (n = length ss1) as Hn by lia.
        rewrite Hn. by rewrite take_app_length, drop_app_length.
      - assert (ss2 = []) as ->.
        { apply (fmap_nil_inv fst). rewrite E2, fmap_drop. apply drop_ge.
          rewrite length_fmap. lia. }
        rewrite app_nil_r. split; [apply take_ge | apply drop_ge]; lia. }
    rewrite (payload_split cn id (ss1 ++ ss2) n), Ht, Hd; [done|..].
    + by rewrite fmap_app, E1, E2, <- fmap_app, take_drop.
    + by rewrite fmap_app, E1, E2, <- fmap_app, take_drop.
  - intros Hreg. by rewrite Hreg.
Qed.

Lemma payload_field {A} (ms1 ms2 : list (string * A)) (x y : A) (k : string) :
  k ∉ ms1.*1 → k ∉ ms2.*1 →
  prop_get (ms1 ++ [("__class", x); ("__id", y)] ++ ms2) k
  = prop_get [("__class", x); ("__id", y)] k.
Proof.
  intros Hk1 Hk2. rewrite prop_get_app_r by done. simpl.
  destruct (decide ("__class" = k)); [done|]. destruct (decide ("__id" = k)); [done|].
  by apply prop_get_None.
Qed.

Lemma decode_props_meta
    (rec : json → refs_table → heap → outcome (value * refs_table * heap))
    (jo : json) (l : loc) (x y : json) (ms : list (string * json))
    (refs : refs_table) (H : heap) :
  has_own (members jo) "hasOwnProperty" = false →
  decode_props rec jo l (("__class", x) :: ("__id", y) :: ms) refs H
  = decode_props rec jo l ms refs H.
Proof.
  intros Hjo. simpl. by rewrite Hjo.
Qed.

(** the decoder on a node that is tagged with a registered class, up to the
    loops *)
Lemma deserializeObject_node (cm : classMap) (fuel : nat) (j : json)
    (refs : refs_table) (H : heap) (c : ctor) (cn id : string) (sh : slot) :
  json_isObject j = true →
  field j "__ref" = None →
  field j "__class" = Some (JStr cn) → prop_get cm cn = Some c →
  field j "__id" = Some (JStr id) →
  field j "__date" = None →
  (if bool_decide (c = Array_ctor) || bool_decide (cbrand c = BArray) then SArray
   else if truthy (field j "__set") then SSet []
   else if truthy (field j "__map") then SMap []
   else SNone) = sh →
  deserializeObject cm (S fuel) j refs H
  = '(references, h) ←
      (if bool_decide (cbrand c = BSet) then
         values ← iterate (field j "values");
         decode_values (deserializeObject cm fuel) (length H) values
           (map_set refs (VStr id) (VRef (length H))) (H ++ [Obj (Some c) sh []])
       else if bool_decide (cbrand c = BMap) then
         entries ← iterate (field j "entries");
         decode_entries (deserializeObject cm fuel) (length H) entries
           (map_set refs (VStr id) (VRef (length H))) (H ++ [Obj (Some c) sh []])
       else
         decode_props (deserializeObject cm fuel) j (length H) (members j)
           (map_set refs (VStr id) (VRef (length H))) (H ++ [Obj (Some c) sh []]));
    Ok (VRef (length H), references, h).
Proof.
  intros Hobj Href Hclass Hreg Hid Hdate <-.
  rewrite deserializeObject_S, Hobj, Href, Hclass, Hreg, Hid, Hdate. simpl.
  destruct (bool_decide (c = Array_ctor) || bool_decide (cbrand c = BArray)); [done|].
  destruct (truthy (field j "__set")); [done|].
  by destruct (truthy (field j "__map")).
Qed.


Lemma props_renamed_keys (seen : copy_table) (ps ps' : list (string * value)) :
  props_renamed seen ps ps' → ps'.*1 = ps.*1.
Proof. induction 1 as [|? ? ? ? [? _]]; csimpl; congruence. Qed.

Lemma inherited_proto (c : ctor) (s : slot) (ps : list (string * value)) :
  inherited (Obj (Some c) s ps) "__proto__" = true.
Proof.
  unfold inherited. simpl. by destruct s.
Qed.

Lemma roundtrip_spec (cm : classMap) (h : heap) (fuel : nat) :
  roundtrippable cm h = true →
  rt_step h fuel (serializeObject cm fuel h) (deserializeObject cm fuel).
Proof.
  intros Hh. induction fuel as [|fuel IH]; intros v tr H Hsok Hok Hp Hv Hobj Hf.
  { apply copy_table_ok_length in Hok. unfold table_of in Hok.
    rewrite length_fmap in Hok. lia. }
  destruct v as [| | | | |l]; try done. rewrite serializeObject_S.
  pose proof (seen_ok_ids_NoDup _ _ Hsok) as Hids.
  destruct (seen_get (seen_of tr) l) as [id|] eqn:Hget.
  { (* a back-reference *)
    assert (id ≠ "") as Hne.
    { destruct Hsok as [_ Hid]. apply seen_get_Some, list_elem_of_lookup in Hget as [i Hi].
      destruct (Hid _ _ _ Hi) as (? & c & _ & _ & ->).
      destruct (getClassName (cname c)); discriminate. }
    pose proof (trail_get tr l id Hids Hget) as Hlink.
    destruct (copy_get (table_of tr) l) as [c0|] eqn:Hc0; cycle 1.
    { apply copy_get_None in Hc0. rewrite table_of_keys in Hc0.
      apply seen_get_None in Hc0. congruence. }
    exists (SNode [("__ref", SLive (VStr id))]), (seen_of tr),
           (JObj [("__ref", JStr id)]), (c0, refs_of tr, H).
    split_and!; [done | | done | done | |].
    - intros k Hk. rewrite seen_of_length in Hk. destruct k as [|[|[|k]]]; [lia..|].
      rewrite stringify_S. simpl. by rewrite ?stringify_S, ?stringify_live_S.
    - rewrite deserializeObject_S. simpl. unfold field. simpl.
      rewrite bool_decide_eq_false_2 by done. simpl. unfold refs_get. simpl.
      by rewrite Hlink.
    - exists tr. split_and!; done. }
  simpl in Hv. apply bool_decide_eq_true in Hv.
  destruct (lookup_lt_is_Some_2 h l Hv) as [o Ho]. rewrite Ho.
  pose proof (roundtrippable_lookup cm h Hh l o Ho) as Hwf.
  unfold roundtrippable_obj in Hwf. apply andb_true_iff in Hwf as [Hcp Hwf].
  unfold copyable_obj in Hcp.
  destruct (proto o) as [c|] eqn:Hproto; [|done].
  repeat (apply andb_true_iff in Hcp as [Hcp ?]).
  apply negb_true_iff in Hcp.
  match goal with H : negb _ = true |- _ => apply negb_true_iff in H; rename H into Hhas end.
  match goal with H : bool_decide (NoDup _) = true |- _ =>
    apply bool_decide_eq_true in H; rename H into Hnd end.
  match goal with H : canonical_keys _ = true |- _ => rename H into Hcan end.
  match goal with H : forallb (value_valid _) _ = true |- _ => rename H into Hvals end.
  match goal with H : forallb _ (props o).*1 = true |- _ => rename H into Hinh end.
  match goal with H : match cbrand c with _ => _ end = true |- _ => rename H into Hslot end.
  repeat (apply andb_true_iff in Hwf as [Hwf ?]).
  apply bool_decide_eq_true in Hwf. rename Hwf into Hreg.
  match goal with H : negb (cmarked c) = true |- _ =>
    apply negb_true_iff in H; rename H into Hmark end.
  match goal with H : negb (bool_decide (cbrand c = BDate)) = true |- _ =>
    apply negb_true_iff, bool_decide_eq_false in H; rename H into Hdate end.
  match goal with H : forallb defined (props o).*2 = true |- _ => rename H into Hdefs end.
  match goal with H : match oslot o with _ => _ end = true |- _ => rename H into Hsdef end.
  match goal with H : forallb (λ k, negb (bool_decide (k ∈ metadata_names))) _ = true |- _ =>
    rename H into Hmeta end.
  assert (∀ k, k ∈ (props o).*1 → k ∉ metadata_names) as Hmeta'.
  { intros k Hk. rewrite forallb_forall in Hmeta.
    by apply list_elem_of_In, Hmeta, negb_true_iff, bool_decide_eq_false in Hk. }
  assert (∀ k, k ∈ (props o).*1 → inherited (Obj (Some c) (oslot o) []) k = false) as Hinh'.
  { intros k Hk. rewrite forallb_forall in Hinh.
    apply list_elem_of_In, Hinh, negb_true_iff in Hk.
    unfold inherited in *. by rewrite Hproto in Hk. }
  assert (constructor_of o = Ok c) as Hctor.
  { unfold constructor_of. by rewrite Hcp, Hproto. }
  rewrite Hctor. simpl. rewrite Hreg, Hmark.
  assert (∀ b, instanceof o b = bool_decide (cbrand c = b)) as Hinst.
  { intros b. unfold instanceof. by rewrite Hproto. }
  rewrite !Hinst.
  set (cn := getClassName (cname c)) in *.
  set (id := cn +:+ "_" +:+ show_nat (length (seen_of tr))).
  set (cl := length H).
  set (tr1 := tr ++ [(l, id, VRef cl)]).
  assert (seen_of tr ++ [(l, id)] = seen_of tr1) as Hseen1.
  { unfold tr1, seen_of. by rewrite fmap_app. }
  rewrite Hseen1.
  assert (seen_ok h (seen_of tr1)) as Hsok1.
  { rewrite <- Hseen1. by apply (seen_ok_snoc h (seen_of tr) l o c). }
  assert (VStr id ∉ (refs_of tr).*1) as Hfresh.
  { rewrite refs_of_keys. intros (x & [= <-] & Hx)%list_elem_of_fmap.
    pose proof (seen_ok_ids_NoDup _ _ Hsok1) as Hnd1.
    rewrite <- Hseen1, fmap_app in Hnd1.
    apply NoDup_app in Hnd1 as (_ & Hnd1 & _). apply (Hnd1 _ Hx). left. }
  assert (map_set (refs_of tr) (VStr id) (VRef cl) = refs_of tr1) as Hrefs1.
  { rewrite map_set_snoc by done. unfold tr1, refs_of. by rewrite fmap_app. }
  set (shell := Obj (Some c) (shell_slot o) []).
  set (H1 := H ++ [shell]).
  assert (table_of tr1 = table_of tr ++ [(l, VRef cl)]) as Htab1.
  { unfold tr1, table_of. by rewrite fmap_app. }
  assert (length h ≤ cl) as Hcl by (by apply prefix_length).
  assert (copy_table_ok (length h) (table_of tr1) H1) as Hok1.
  { rewrite Htab1. apply copy_table_ok_snoc; [done | by apply table_of_get_None | done | done]. }
  assert (h `prefix_of` H1) as Hp1 by (by apply prefix_app_r).
  assert (H1 !! cl = Some shell) as Hshell by apply alloc_lookup.
  assert (copy_get (table_of tr1) l = Some (VRef cl)) as Hl1.
  { rewrite Htab1. apply copy_get_snoc. by apply table_of_get_None. }
  assert (length h < fuel + length tr1) as Hf1.
  { unfold tr1. rewrite length_app. simpl. lia. }
  assert (length tr1 = S (length tr)) as HLtr1.
  { unfold tr1. rewrite length_app. simpl. lia. }
  assert (tr `prefix_of` tr1) as Hptr1 by (by apply prefix_app_r).
  destruct (decide (cbrand c = BSet)) as [Hb|Hnset].
  { (* a set *)
    rewrite Hb in Hslot. destruct (oslot o) as [| |items| |] eqn:Hs; try done.
    apply andb_true_iff in Hslot as [Hslot Hnil%bool_decide_eq_true].
    apply andb_true_iff in Hslot as [Hndi%bool_decide_eq_true Hvi].
    rewrite (bool_decide_eq_true_2 _ Hb).
    assert (shell_slot o = SSet []) as Hss by (unfold shell_slot; by rewrite Hs).
    assert (bool_decide (c = Array_ctor) || bool_decide (cbrand c = BArray) = false)
      as Hnarr.
    { rewrite Hb. destruct (bool_decide (c = Array_ctor)) eqn:Hc; [|done].
      apply bool_decide_eq_true in Hc. subst c. discriminate Hb. }
    unfold shell in Hshell. rewrite Hss in Hshell.
    destruct (rt_items h fuel _ _ IH (Some c) l cl items [] [] tr1 H1)
      as (ss & js & tr' & H' & items' & Ee & Hstr & Hfix & Ed & Hp' & Hsok' & Hfr' & Hok'
          & Hcl' & Hren' & Hnew');
      [done | done | done | done | done | constructor | done | done | done | done | done |].
    pose proof (prefix_length _ _ Hp') as HL'.
    rewrite Ee. simpl.
    set (j := JObj [("__class", JStr cn); ("__id", JStr id); ("values", JArr js);
                    ("__set", JBool true)]).
    exists (SNode [("__class", SLive (VStr cn)); ("__id", SLive (VStr id));
                   ("values", SList ss); ("__set", SLive (VBool true))]),
           (seen_of tr'), j, (VRef cl, refs_of tr', H').
    split_and!; [done | | | done | |].
    - intros k Hk. rewrite seen_of_length in Hk. destruct k as [|[|[|k]]]; [lia..|].
      rewrite stringify_S. simpl. rewrite ?stringify_S, ?stringify_live_S. simpl.
      by rewrite Hstr by lia.
    - apply parse_fixed_obj.
      + apply (bool_decide_unpack _). by vm_compute.
      + done.
      + repeat constructor. by apply parse_fixed_arr.
    - rewrite (deserializeObject_node cm fuel j (refs_of tr) H c cn id (shell_slot o));
        [|done..|by rewrite Hnarr, Hss].
      rewrite (bool_decide_eq_true_2 _ Hb). simpl. fold cl. rewrite Hrefs1.
      change (H ++ [Obj (Some c) (shell_slot o) []]) with H1. by rewrite Ed.
    - exists tr'.
      assert (copy_get (table_of tr') l = Some (VRef cl)) as Hl'.
      { eapply copy_get_prefix; [|done]. by apply table_of_prefix. }
      split_and!; [by etrans | done | done | done | | done | done |].
      + eapply (frame_except_below cl H H1 H'); [done | by apply prefix_app_r | done].
      + intros l0 Hin Hnin. destruct (decide (l0 = l)) as [->|Hne].
        * exists cl, o, (Obj (Some c) (SSet ([] ++ items')) []).
          split_and!; [done | done | done |].
          split_and!; simpl; [done | by rewrite Hs | rewrite Hnil; constructor].
        * apply Hnew'; [done|]. rewrite Htab1, fmap_app. csimpl.
          intros [?|?%list_elem_of_singleton]%elem_of_app; done. }
  destruct (decide (cbrand c = BMap)) as [Hb|Hnmap].
  { (* a map *)
    rewrite Hb in Hslot, Hnset. destruct (oslot o) as [| | |entries|] eqn:Hs; try done.
    apply andb_true_iff in Hslot as [Hslot Hnil%bool_decide_eq_true].
    apply andb_true_iff in Hslot as [Hslot Hvx].
    apply andb_true_iff in Hslot as [Hndk%bool_decide_eq_true Hvk].
    apply andb_true_iff in Hsdef as [Hdk Hdx].
    rewrite Hb. simpl.
    assert (shell_slot o = SMap []) as Hss by (unfold shell_slot; by rewrite Hs).
    assert (bool_decide (c = Array_ctor) || bool_decide (cbrand c = BArray) = false)
      as Hnarr.
    { rewrite Hb. destruct (bool_decide (c = Array_ctor)) eqn:Hc; [|done].
      apply bool_decide_eq_true in Hc. subst c. discriminate Hb. }
    unfold shell in Hshell. rewrite Hss in Hshell.
    destruct (rt_entries h fuel _ _ IH (Some c) l cl entries [] [] tr1 H1)
      as (ss & js & tr' & H' & entries' & Ee & Hstr & Hfix & Ed & Hp' & Hsok' & Hfr' & Hok'
          & Hcl' & Hren' & Hnew');
      [done | done | done | done | done | constructor | done | done | done | done | done
      | done | done |].
    pose proof (prefix_length _ _ Hp') as HL'.
    rewrite Ee. simpl.
    set (j := JObj [("__class", JStr cn); ("__id", JStr id); ("entries", JArr js);
                    ("__map", JBool true)]).
    exists (SNode [("__class", SLive (VStr cn)); ("__id", SLive (VStr id));
                   ("entries", SList ss); ("__map", SLive (VBool true))]),
           (seen_of tr'), j, (VRef cl, refs_of tr', H').
    split_and!; [done | | | done | |].
    - intros k Hk. rewrite seen_of_length in Hk. destruct k as [|[|[|k]]]; [lia..|].
      rewrite stringify_S. simpl. rewrite ?stringify_S, ?stringify_live_S. simpl.
      by rewrite Hstr by lia.
    - apply parse_fixed_obj.
      + apply (bool_decide_unpack _). by vm_compute.
      + done.
      + repeat constructor. by apply parse_fixed_arr.
    - rewrite (deserializeObject_node cm fuel j (refs_of tr) H c cn id (shell_slot o));
        [|done..|by rewrite Hnarr, Hss].
      rewrite Hb. simpl. fold cl. rewrite Hrefs1.
      change (H ++ [Obj (Some c) (shell_slot o) []]) with H1. by rewrite Ed.
    - exists tr'.
      assert (copy_get (table_of tr') l = Some (VRef cl)) as Hl'.
      { eapply copy_get_prefix; [|done]. by apply table_of_prefix. }
      split_and!; [by etrans | done | done | done | | done | done |].
      + eapply (frame_except_below cl H H1 H'); [done | by apply prefix_app_r | done].
      + intros l0 Hin Hnin. destruct (decide (l0 = l)) as [->|Hne].
        * exists cl, o, (Obj (Some c) (SMap ([] ++ entries')) []).
          split_and!; [done | done | done |].
          split_and!; simpl; [done | by rewrite Hs | rewrite Hnil; constructor].
        * apply Hnew'; [done|]. rewrite Htab1, fmap_app. csimpl.
          intros [?|?%list_elem_of_singleton]%elem_of_app; done. }
  (* an array or a tagged instance *)
  rewrite !bool_decide_eq_false_2 by done.
  assert (has_own (props o) "__proto__" = false) as ->.
  { apply has_own_false. intros Hin. apply Hinh' in Hin. by rewrite inherited_proto in Hin. }
  destruct (canonical_split _ Hcan) as (n & Hidx & Hstr).
  rewrite (serialize_props_normal (serializeObject cm fuel h) o n _ _ (seen_of tr1));
    [|done | by rewrite Hproto | done..].
  set (idx := take n (props o)). set (strs := drop n (props o)).
  assert (props o = idx ++ strs) as Hps by (symmetry; apply take_drop).
  assert (idx.*1 = take n (props o).*1) as Hik by apply fmap_take.
  assert (strs.*1 = drop n (props o).*1) as Hsk by apply fmap_drop.
  pose proof Hnd as Hnd'. pose proof Hcan as Hcan'.
  rewrite Hps, fmap_app in Hnd', Hcan'.
  rewrite Hps, fmap_app, forallb_app in Hvals, Hdefs.
  apply andb_true_iff in Hvals as [Hv1 Hv2]. apply andb_true_iff in Hdefs as [Hd1 Hd2].
  assert (∀ k, k ∈ idx.*1 → k ∈ (props o).*1) as Hsub1.
  { intros k Hk. rewrite Hps, fmap_app. apply elem_of_app. by left. }
  assert (∀ k, k ∈ strs.*1 → k ∈ (props o).*1) as Hsub2.
  { intros k Hk. rewrite Hps, fmap_app. apply elem_of_app. by right. }
  assert (shell_slot o = oslot o ∧ slot_renamed (table_of tr1) (oslot o) (oslot o)
          ∧ (if bool_decide (c = Array_ctor) || bool_decide (cbrand c = BArray)
             then SArray else SNone) = shell_slot o) as (Hss & Hsren & Harr).
  { unfold shell_slot.
    destruct (cbrand c) eqn:Hb, (oslot o) eqn:Hs; try done;
      (destruct (bool_decide (c = Array_ctor)) eqn:Hc;
       [apply bool_decide_eq_true in Hc; subst c; first [discriminate Hb | done] | done]). }
  destruct (rt_props h fuel _ _ IH c (shell_slot o) l cl idx [] tr1 H1)
    as (ss1 & ms1 & trA & HA & ps1 & EeA & HstrA & HkA & HfixA & EdA & HpA & HsokA & HfrA
        & HokA & HclA & HrenA & HnewA);
    [done | done | done | done | done
    | by (intros k Hk; rewrite Hss; auto) | by auto
    | by apply NoDup_app in Hnd' as (? & _) | by eapply canonical_keys_app_l
    | done | done | done | done |].
  pose proof (prefix_length _ _ HpA) as HLA.
  pose proof (props_renamed_keys _ _ _ HrenA) as Hk1.
  destruct (rt_props h fuel _ _ IH c (shell_slot o) l cl strs ps1 trA HA)
    as (ss2 & ms2 & tr' & H' & ps2 & EeB & HstrB & HkB & HfixB & EdB & HpB & HsokB & HfrB
        & HokB & HclB & HrenB & HnewB);
    [done | done | by eapply frame_except_below | done | done
    | by (intros k Hk; rewrite Hss; auto) | by auto
    | by rewrite Hk1 | by rewrite Hk1
    | done | done | by eapply copy_get_prefix; [apply table_of_prefix|] | lia |].
  pose proof (prefix_length _ _ HpB) as HLB.
  pose proof (props_renamed_keys _ _ _ HrenB) as Hk2.
  rewrite EeA. simpl. rewrite EeB. simpl.
  set (ms := ms1 ++ [("__class", JStr cn); ("__id", JStr id)] ++ ms2).
  assert (∀ k, k ∈ "hasOwnProperty" :: metadata_names →
            prop_get ms k = prop_get [("__class", JStr cn); ("__id", JStr id)] k) as Hfield.
  { intros k Hk. apply payload_field.
    - rewrite HkA. intros Hin%Hsub1. apply elem_of_cons in Hk as [->|Hk].
      + apply has_own_false in Hhas. done.
      + by apply Hmeta' in Hin.
    - rewrite HkB. intros Hin%Hsub2. apply elem_of_cons in Hk as [->|Hk].
      + apply has_own_false in Hhas. done.
      + by apply Hmeta' in Hin. }
  assert (has_own ms "hasOwnProperty" = false) as Hjo.
  { unfold has_own. rewrite Hfield by left. done. }
  exists (SNode (ss1 ++ [("__class", SLive (VStr cn)); ("__id", SLive (VStr id))] ++ ss2)),
         (seen_of tr'), (JObj ms), (VRef cl, refs_of tr', H').
  split_and!; [done | | | done | |].
  - intros k Hk. rewrite seen_of_length in Hk. destruct k as [|k]; [lia|].
    rewrite stringify_S.
    rewrite (stringify_members_app _ ss1 _ ms1 ([("__class", JStr cn); ("__id", JStr id)] ++ ms2));
      [done | apply HstrA; lia |].
    apply (stringify_members_app _ [_; _] ss2 [_; _] ms2); [|apply HstrB; lia].
    destruct k as [|[|k]]; [lia..|]. simpl. by rewrite ?stringify_S, ?stringify_live_S.
  - apply parse_fixed_obj.
    + unfold ms. rewrite !fmap_app, HkA, HkB, Hik, Hsk. by apply payload_keys_ok.
    + unfold ms. rewrite !fmap_app, HkA, HkB, Hik, Hsk. by apply payload_keys_ok.
    + unfold ms. apply Forall_app. split; [done|]. by repeat constructor.
  - rewrite (deserializeObject_node cm fuel (JObj ms) (refs_of tr) H c cn id (shell_slot o));
      try done;
      try (unfold field; simpl; rewrite !Hfield by (by repeat constructor); simpl; done).
    rewrite !bool_decide_eq_false_2 by done. fold cl. rewrite Hrefs1.
    change (H ++ [Obj (Some c) (shell_slot o) []]) with H1.
    change (members (JObj ms)) with ms. unfold ms at 2.
    rewrite decode_props_app, (EdA (JObj ms) Hjo). simpl.
    rewrite Hjo. by rewrite (EdB (JObj ms) Hjo).
  - exists tr'.
    assert (copy_get (table_of tr') l = Some (VRef cl)) as Hl'.
    { eapply copy_get_prefix; [|done]. apply table_of_prefix. by etrans. }
    assert (frame_except cl H1 H') as Hfr by (by eapply frame_except_trans).
    split_and!; [by do 2 etrans | done | done | done | | done | done |].
    + eapply (frame_except_below cl H H1 H'); [done | by apply prefix_app_r | done].
    + intros l0 Hin Hnin. destruct (decide (l0 = l)) as [->|Hne].
      * exists cl, o, (Obj (Some c) (shell_slot o) (ps1 ++ ps2)).
        split_and!; [done | done | done |].
        split_and!; simpl; [done | | ].
        -- rewrite Hss. clear -Hslot Hnset Hnmap Hdate.
           destruct (cbrand c), (oslot o); done.
        -- rewrite Hps. apply Forall2_app; [|done].
           eapply Forall2_impl; [done|]. intros ? ? [? ?]. split; [done|].
           eapply renamed_prefix; [|done]. by apply table_of_prefix.
      * assert (l0 ∉ (table_of tr1).*1) as Hnin1.
        { rewrite Htab1, fmap_app. csimpl.
          intros [?|?%list_elem_of_singleton]%elem_of_app; done. }
        destruct (decide (l0 ∈ (table_of trA).*1)) as [HinA|HninA]; [|auto].
        eapply (copied_mono (table_of trA) (table_of tr') h HA H' cl l0);
          [by apply table_of_prefix | done | | by apply HnewA].
        eapply (new_entry_not_cl h (table_of trA) HA l); [done | | done].
        exact (copy_get_prefix _ _ _ _ (table_of_prefix _ _ HpA) Hl1).
Qed.


Lemma props_renamed_get (seen : copy_table) (ps ps' : list (string * value))
    (k : string) (x : value) :
  props_renamed seen ps ps' → prop_get ps k = Some x →
  ∃ x', prop_get ps' k = Some x' ∧ renamed seen x x'.
Proof.
  induction 1 as [|[k0 v0] [k0' v0'] r r' [Hk Hv] _ IH]; simpl in *; [done|].
  subst k0'. destruct (decide (k0 = k)); [|done]. intros [= ->]. eauto.
Qed.

Lemma renamed_fun (seen : copy_table) (v v1 v2 : value) :
  renamed seen v v1 → renamed seen v v2 → v1 = v2.
Proof. destruct v; simpl; congruence. Qed.

(** C1 (amended): on a heap of round-trippable objects (arrays, sets, maps
    and instances of classes the registry maps back to themselves, without
    timestamps, marked classes, [undefined] values or metadata property
    names), [deserialize(serialize(v))] returns, with fuel above three times
    the size of the heap, a graph of freshly allocated objects that is
    isomorphic to the one reachable from [v]: the source objects are
    untouched, every visited object has a new object of the same prototype
    and kind with the same elements and own properties up to a one-to-one
    table, so the sharing topology is preserved; in particular two
    properties of an object that held the same value hold the same value
    afterwards, the one the table gives. *)
Theorem roundtrip_is_isomorphic (cm : classMap) (h : heap) (v : value) (fuel : nat) :
  roundtrippable cm h = true →
  value_valid (length h) v = true → defined v = true →
  3 * length h + 3 ≤ fuel →
  ∃ v' table h',
    roundtrip cm fuel h v = Ok (v', h')
    ∧ h `prefix_of` h'
    ∧ renamed table v v'
    ∧ copy_table_ok (length h) table h'
    ∧ (∀ l, l ∈ table.*1 → copied table h h' l)
    ∧ (∀ l l' o o' a b x,
         copy_get table l = Some (VRef l') → h !! l = Some o → h' !! l' = Some o' →
         prop_get (props o) a = Some x → prop_get (props o) b = Some x →
         ∃ x', prop_get (props o') a = Some x' ∧ prop_get (props o') b = Some x'
               ∧ renamed table x x').
Proof.
  intros Hh Hv Hdef Hfuel.
  assert (∃ v' table h',
            roundtrip cm fuel h v = Ok (v', h') ∧ h `prefix_of` h' ∧ renamed table v v'
            ∧ copy_table_ok (length h) table h'
            ∧ (∀ l, l ∈ table.*1 → copied table h h' l))
    as (v' & table & h' & E & Hp & Hren & Hok & Hcopied).
  { unfold roundtrip, serialize, deserialize. destruct (isObject v) eqn:Hobj.
    - destruct (roundtrip_spec cm h fuel Hh v [] h)
        as (s & seen' & j & [[v' refs'] h'] & Ee & Hstr & Hparse & Hj & Ed & Hpost);
        [apply seen_ok_nil | apply copy_table_ok_nil | done | done | done | simpl; lia |].
      destruct Hpost as (tr' & _ & -> & -> & _ & Hp & Hok & Hren & Hnew).
      pose proof (copy_table_ok_length _ _ _ Hok) as HL.
      unfold table_of in HL. rewrite length_fmap in HL.
      change (seen_of []) with (@nil (loc * string)) in Ee. rewrite Ee. simpl.
      rewrite (Hstr fuel) by (rewrite seen_of_length; simpl; lia). simpl.
      change (refs_of []) with (@nil (value * value)) in Ed. rewrite Hparse, Ed. simpl.
      exists v', (table_of tr'), h'. split_and!; [done..|].
      intros l Hl. apply Hnew; [done|]. apply not_elem_of_nil.
    - destruct fuel as [|[|fuel]]; [lia..|].
      exists v, [], h. pose proof (copy_table_ok_nil (length h) h).
      rewrite serializeObject_S.
      destruct v; try done; simpl; rewrite ?stringify_S, ?stringify_live_S; simpl;
        rewrite ?deserializeObject_S; simpl;
        (split_and!; [done | done | done | done | by intros ? ?%elem_of_nil]). }
  exists v', table, h'. split_and!; [done..|].
  intros l l' o o' a b x Hl Ho Ho' Ha Hb.
  destruct (Hcopied l) as (l2 & o2 & o2' & Hl2 & Ho2 & Ho2' & _ & _ & Hprops).
  { apply copy_get_Some in Hl. apply list_elem_of_fmap. by exists (l, VRef l'). }
  rewrite Hl in Hl2. injection Hl2 as <-. rewrite Ho in Ho2. injection Ho2 as <-.
  rewrite Ho' in Ho2'. injection Ho2' as <-.
  destruct (props_renamed_get _ _ _ _ _ Hprops Ha) as (xa & Hxa & Hra).
  destruct (props_renamed_get _ _ _ _ _ Hprops Hb) as (xb & Hxb & Hrb).
  exists xa. split_and!; [done | | done]. by rewrite (renamed_fun _ _ _ _ Hra Hrb).
Qed.


(** * Further properties of the code *)

(** ** The walkers only append to the heap *)

(** X1: [deserialize] never changes an object that existed before the call:
    whatever text it is given, when it returns, the heap it started from is
    a prefix of the heap it leaves, so everything it builds is new. *)
Theorem deserialize_preserves_heap (cm : classMap) (fuel : nat) (text : json)
    (h : heap) (v : value) (h' : heap) :
  deserialize cm fuel text h = Ok (v, h') → h `prefix_of` h'.
Proof.
  unfold deserialize. intros E. inv_bind E. destruct a as [[v0 refs] h0].
  injection E as <- <-. by eapply deserializeObject_frame.
Qed.

Definition copy_heap_step
    (rec : value → copy_table → heap → outcome (value * copy_table * heap)) : Prop :=
  ∀ x seen h v seen' h', rec x seen h = Ok (v, seen', h') → h `prefix_of` h'.

Section copier_frame.
Variable rec : value → copy_table → heap → outcome (value * copy_table * heap).
Hypothesis Hrec : copy_heap_step rec.

Lemma copy_child_frame x seen h v seen' h' :
  copy_child rec x seen h = Ok (v, seen', h') → h `prefix_of` h'.
Proof using Hrec.
  unfold copy_child. destruct (isObject x); [apply Hrec|]. by intros [= <- <- <-].
Qed.

Lemma copy_items_frame cl items seen H seen' H' :
  cl < length H →
  copy_items rec cl items seen H = Ok (seen', H') → grows_above cl H H'.
Proof using Hrec.
  revert seen H. induction items as [|x r IH]; intros seen H Hl E; simpl in E.
  - injection E as <- <-. apply grows_above_refl.
  - inv_bind E. destruct a as [[v seen1] H1]. inv_bind E. rename a into H2.
    apply copy_child_frame in E0.
    apply Set_add_inv in E1 as (p & items' & ps & _ & ->).
    pose proof (grows_above_prefix cl _ _ (Nat.lt_le_incl _ _ Hl) E0) as G1.
    eapply grows_above_trans; [done|].
    eapply grows_above_trans; [by apply (grows_above_insert cl cl)|].
    eapply IH; [|done]. rewrite length_insert. destruct G1. lia.
Qed.

Lemma copy_entries_frame cl entries seen H seen' H' :
  cl < length H →
  copy_entries rec cl entries seen H = Ok (seen', H') → grows_above cl H H'.
Proof using Hrec.
  revert seen H. induction entries as [|[k x] r IH]; intros seen H Hl E; simpl in E.
  - injection E as <- <-. apply grows_above_refl.
  - inv_bind E. destruct a as [[k' seen1] H1].
    inv_bind E. destruct a as [[v seen2] H2]. inv_bind E. rename a into H3.
    apply copy_child_frame in E0, E1.
    apply Map_set_inv in E2 as (p & es & ps & _ & ->).
    assert (grows_above cl H H2) as G.
    { apply grows_above_prefix; [lia | by etrans]. }
    eapply grows_above_trans; [done|].
    eapply grows_above_trans; [by apply (grows_above_insert cl cl)|].
    eapply IH; [|done]. rewrite length_insert. destruct G. lia.
Qed.

Lemma copy_props_frame o cl ps seen H seen' H' :
  cl < length H →
  copy_props rec o cl ps seen H = Ok (seen', H') → grows_above cl H H'.
Proof using Hrec.
  revert seen H. induction ps as [|[key x] r IH]; intros seen H Hl E; simpl in E.
  - injection E as <- <-. apply grows_above_refl.
  - inv_bind E. destruct a; [|eauto].
    destruct (H !! cl) as [copy|]; [|done].
    destruct (defined_on copy key); [eauto|].
    inv_bind E. destruct a as [[v seen1] H1]. inv_bind E. rename a into H2.
    apply copy_child_frame in E1.
    apply heap_update_inv in E2 as (o1 & _ & ->).
    pose proof (grows_above_prefix cl _ _ (Nat.lt_le_incl _ _ Hl) E1) as G1.
    eapply grows_above_trans; [done|].
    eapply grows_above_trans; [by apply (grows_above_insert cl cl)|].
    eapply IH; [|done]. rewrite length_insert. destruct G1. lia.
Qed.
End copier_frame.

Lemma copyObject_frame (fuel : nat) (level : Z) :
  copy_heap_step (λ x seen, copyObject fuel x seen level).
Proof.
  revert level. induction fuel as [|fuel IH]; intros level x seen h v seen' h' E; [done|].
  rewrite copyObject_S in E.
  destruct x as [| | | | |l]; try (by injection E as <- <- <-).
  destruct (copy_get seen l); [by injection E as <- <- <-|].
  destruct (bool_decide (level = 0%Z)); [by injection E as <- <- <-|].
  destruct (h !! l) as [o|]; [|done].
  inv_bind E. rename a into c. inv_bind E. rename a into shell. unfold alloc in E.
  assert (length h < length (h ++ [Obj (Some c) shell []])) as Hlen.
  { rewrite length_app. simpl. lia. }
  inv_bind E. destruct a as [seen1 H1]. injection E as <- <- <-.
  eapply grows_above_alloc.
  destruct (instanceof o BSet).
  { destruct (oslot o); try done. eapply copy_items_frame; [apply IH | done..]. }
  destruct (instanceof o BMap).
  { destruct (oslot o); try done. eapply copy_entries_frame; [apply IH | done..]. }
  eapply copy_props_frame; [apply IH | done..].
Qed.

(** X2: [deepCopy] never changes an object that existed before the call, at
    any level and on any graph: when it returns, the heap it started from
    is a prefix of the heap it leaves. *)
Theorem deepCopy_preserves_heap (fuel : nat) (v : value) (level : Z) (h : heap)
    (v' : value) (h' : heap) :
  deepCopy fuel v level h = Ok (v', h') → h `prefix_of` h'.
Proof.
  unfold deepCopy. intros E. inv_bind E. destruct a as [[v0 seen] h0].
  injection E as <- <-. by eapply (copyObject_frame fuel level).
Qed.


(** ** Timestamps *)

(** X3: [serialize] of a timestamp of a registered class (one that has no
    own property named [constructor]) returns no text when the instant is
    invalid or an own property named [toISOString] hides the method: it
    raises a TypeError when the timestamp owns a property of that name, and
    the RangeError of [toISOString] otherwise. *)
Theorem serialize_invalid_date (cm : classMap) (fuel : nat) (h : heap) (l : loc)
    (c : ctor) (t : time) (ps : list (string * value)) :
  h !! l = Some (Obj (Some c) (SDate t) ps) →
  has_own ps "constructor" = false →
  cbrand c = BDate →
  is_Some (prop_get cm (getClassName (cname c))) →
  has_own ps "toISOString" = true ∨ toISOString t = None →
  serialize cm (S fuel) h (VRef l)
  = Throw (if has_own ps "toISOString" then TypeError else RangeError).
Proof.
  intros Ho Hctor Hb [c' Hreg] Hbad. unfold serialize.
  rewrite serializeObject_S. simpl. rewrite Ho. unfold constructor_of. simpl.
  rewrite Hctor. simpl. rewrite Hreg. unfold instanceof. simpl. rewrite Hb. simpl.
  unfold invoke_toISOString. simpl.
  destruct (has_own ps "toISOString"); [done|].
  destruct Hbad as [?|Hiso]; [done|]. by rewrite Hiso.
Qed.

(** X4: a timestamp whose prototype is [Date.prototype], with [Date]
    registered under its name, without own property named [constructor] or
    [toISOString] and with a valid instant, comes back from the round trip
    as a new timestamp built from the ISO rendering of the instant, and it
    carries two own properties the original did not have, [__date] and
    [date]; the own properties of the original are not transferred. *)
Theorem date_roundtrip (cm : classMap) (fuel : nat) (h : heap) (l : loc)
    (t : time) (iso : string) (ps : list (string * value)) :
  h !! l = Some (Obj (Some Date_ctor) (SDate t) ps) →
  has_own ps "constructor" = false → has_own ps "toISOString" = false →
  prop_get cm "Date" = Some Date_ctor →
  toISOString t = Some iso →
  roundtrip cm (3 + fuel) h (VRef l)
  = Ok (VRef (length h),
        h ++ [Obj (Some Date_ctor) (SDate (newDate (VStr iso)))
                [("__date", VBool true); ("date", VStr iso)]]).
Proof.
  intros Ho Hctor Hown Hreg Hiso. unfold roundtrip, serialize.
  change (3 + fuel) with (S (S (S fuel))).
  rewrite serializeObject_S. simpl. rewrite Ho. unfold constructor_of. simpl.
  rewrite Hctor. simpl.
  change (getClassName "Date") with "Date". rewrite Hreg. simpl.
  unfold invoke_toISOString. simpl. rewrite Hown, Hiso. simpl.
  unfold deserialize.
  set (text := JObj _).
  assert (JSON_parse text = text) as -> by reflexivity.
  rewrite deserializeObject_S. simpl. rewrite Hreg. simpl. unfold alloc, heap_update.
  rewrite alloc_lookup. simpl. rewrite alloc_insert. simpl.
  rewrite alloc_lookup. simpl. by rewrite alloc_insert.
Qed.


(** ** Objects of an unregistered kind are printed by [JSON.stringify] *)

Lemma stringify_members_prims (fuel : nat) (h : heap) (stack : list loc)
    (pre : list (string * value)) :
  Forall (λ v, isObject v = false) pre.*2 →
  ∃ ms, stringify_members (stringify_live (S fuel) h stack) pre = Ok ms.
Proof.
  induction pre as [|[k x] r IH]; csimpl; [by eexists|].
  intros [Hx Hr]%Forall_cons. destruct (IH Hr) as [ms ->].
  rewrite stringify_live_S. destruct x; try done; simpl; by eexists.
Qed.

Lemma stringify_members_throw {X} (rec : X → outcome (option json))
    (pre : list (string * X)) (k : string) (x : X) (post : list (string * X))
    (ms : list (string * json)) (e : error) :
  stringify_members rec pre = Ok ms → rec x = Throw e →
  stringify_members rec (pre ++ (k, x) :: post) = Throw e.
Proof.
  revert ms. induction pre as [|[k0 x0] r IH]; intros ms Hpre Hx; simpl in *.
  - by rewrite Hx.
  - inv_bind Hpre. inv_bind Hpre. rewrite E. simpl. by erewrite IH.
Qed.

(** X5: cycles are only handled for registered kinds.  Take an ordinary
    object (no array, set, map or timestamp, its class not extending Date)
    whose class name is not registered, that has no own property named
    [constructor] or [toJSON] and inherits no [toJSON] from its class, and
    one of whose own properties holds the object itself, the properties
    before it holding primitives: [serialize] raises the TypeError of
    [JSON.stringify] on a circular structure. *)
Theorem serialize_cyclic_unregistered (cm : classMap) (fuel : nat) (h : heap)
    (l : loc) (c : ctor) (pre : list (string * value)) (k : string)
    (post : list (string * value)) :
  let ps := pre ++ (k, VRef l) :: post in
  h !! l = Some (Obj (Some c) SNone ps) →
  has_own ps "constructor" = false → has_own ps "toJSON" = false →
  cbrand c ≠ BDate → "toJSON" ∉ cmembers c →
  prop_get cm (getClassName (cname c)) = None →
  Forall (λ v, isObject v = false) pre.*2 →
  serialize cm (3 + fuel) h (VRef l) = Throw TypeError.
Proof.
  intros ps Ho Hctor Hjson Hb Hmem Hreg Hpre. unfold serialize.
  change (3 + fuel) with (S (S (S fuel))).
  rewrite serializeObject_S. simpl. rewrite Ho. unfold constructor_of. simpl.
  rewrite Hctor. simpl. rewrite Hreg. simpl.
  rewrite stringify_S, stringify_live_S, Ho. simpl. rewrite Hjson.
  unfold instanceof. simpl. rewrite !bool_decide_eq_false_2 by done.
  destruct (stringify_members_prims fuel h [l] pre Hpre) as [ms Hms].
  unfold ps at 1.
  rewrite (stringify_members_throw _ pre k (VRef l) post ms TypeError Hms); [done|].
  rewrite stringify_live_S, Ho. simpl. rewrite Hjson.
  unfold instanceof. simpl. rewrite !bool_decide_eq_false_2 by done.
  by rewrite bool_decide_eq_true_2 by left.
Qed.

(** ** Nodes tagged as a set or a map *)

(** X6: a node that is tagged with a registered set class but whose
    [values] member is neither an array nor a string makes the decoder raise
    a TypeError (the loop iterates over it); likewise a node tagged with a
    map class whose [entries] member is neither. *)
Theorem decode_collection_without_payload (cm : classMap) (fuel : nat) (j : json)
    (refs : refs_table) (h : heap) (c : ctor) (cn : string) :
  json_isObject j = true →
  truthy (field j "__ref") = false →
  field j "__class" = Some (JStr cn) → prop_get cm cn = Some c →
  truthy (field j "__date") = false →
  (cbrand c = BSet ∧ iterate (field j "values") = Throw TypeError
   ∨ cbrand c = BMap ∧ iterate (field j "entries") = Throw TypeError) →
  deserializeObject cm (S fuel) j refs h = Throw TypeError.
Proof.
  intros Hobj Href Hclass Hreg Hdate Hkind.
  rewrite deserializeObject_S, Hobj, Href, Hclass, Hreg, Hdate. simpl.
  assert (bool_decide (c = Array_ctor) || bool_decide (cbrand c = BArray) = false) as ->.
  { destruct (bool_decide (c = Array_ctor)) eqn:Hc.
    - apply bool_decide_eq_true in Hc. subst c. by destruct Hkind as [[? _]|[? _]].
    - simpl. apply bool_decide_eq_false. by destruct Hkind as [[-> _]|[-> _]]. }
  destruct Hkind as [[Hb Hit]|[Hb Hit]]; rewrite Hb; simpl; rewrite Hit;
    by destruct (truthy (field j "__set")), (truthy (field j "__map")).
Qed.

(** ** Class names *)

(** a name written in ASCII: there the line terminators of the pattern are
    the line feed and the carriage return *)
Fixpoint ascii_only (s : string) : bool :=
  match s with
  | EmptyString => true
  | String c r => bool_decide (nat_of_ascii c < 128) && ascii_only r
  end.

(** X7: the name of a bound function, ["bound "] followed by a non-empty
    ASCII name without line terminators, gives that name. *)
Theorem getClassName_bound (n : string) :
  n ≠ "" → ascii_only n = true → no_line_terminator n = true →
  getClassName ("bound " +:+ n) = n.
Proof.
  intros Hn _ Hlt. append_simpl. unfold getClassName.
  rewrite Hlt. by rewrite bool_decide_eq_false_2 by done.
Qed.

Lemma getClassName_cases (s : string) :
  getClassName s = s
  ∨ ∃ c rest, s = String "b" (String "o" (String "u" (String "n" (String "d"
                    (String c rest)))))
              ∧ rest ≠ "" ∧ getClassName s = rest.
Proof.
  unfold getClassName.
  destruct s as [|a1 s]; [by left|].
  destruct (decide (a1 = "b"%char)) as [->|?];
    [|left; destruct a1 as [[] [] [] [] [] [] [] []]; done].
  destruct s as [|a2 s]; [by left|].
  destruct (decide (a2 = "o"%char)) as [->|?];
    [|left; destruct a2 as [[] [] [] [] [] [] [] []]; done].
  destruct s as [|a3 s]; [by left|].
  destruct (decide (a3 = "u"%char)) as [->|?];
    [|left; destruct a3 as [[] [] [] [] [] [] [] []]; done].
  destruct s as [|a4 s]; [by left|].
  destruct (decide (a4 = "n"%char)) as [->|?];
    [|left; destruct a4 as [[] [] [] [] [] [] [] []]; done].
  destruct s as [|a5 s]; [by left|].
  destruct (decide (a5 = "d"%char)) as [->|?];
    [|left; destruct a5 as [[] [] [] [] [] [] [] []]; done].
  destruct s as [|c rest]; [by left|].
  destruct (is_space c); simpl; [|by left].
  destruct (bool_decide (rest = "")) eqn:Hr; simpl; [by left|].
  destruct (no_line_terminator rest); [|by left].
  right. exists c, rest. by apply bool_decide_eq_false in Hr.
Qed.

(** X8: the class name is a suffix of the constructor name, it is not empty
    when the constructor name is not, and a constructor name that does not
    begin with ["bound"] is its own class name. *)
Theorem getClassName_suffix (s : string) :
  (∃ p, s = p +:+ getClassName s)
  ∧ (s ≠ "" → getClassName s ≠ "")
  ∧ ((∀ r, s ≠ "bound" +:+ r) → getClassName s = s).
Proof.
  destruct (getClassName_cases s) as [->|(c & rest & -> & Hr & ->)].
  - split_and!; [|done..]. exists "". by rewrite append_nil_l.
  - split_and!; [|done|].
    + exists (String "b" (String "o" (String "u" (String "n" (String "d"
                (String c EmptyString)))))). by append_simpl.
    + intros Hs. exfalso. apply (Hs (String c rest)). by append_simpl.
Qed.


(** ** Copies of depth one *)

(** what a copy of depth one makes of a child: the object being copied is
    replaced by its copy, every other value is kept *)
Definition rename1 (l cl : loc) (v : value) : value :=
  if decide (v = VRef l) then VRef cl else v.

Definition shallow_copy (l cl : loc) (o : obj) : obj :=
  Obj (proto o)
      (match oslot o with
       | SSet items => SSet (rename1 l cl <$> items)
       | SMap entries => SMap (prod_map (rename1 l cl) (rename1 l cl) <$> entries)
       | s => s
       end)
      (prod_map id (rename1 l cl) <$> props o).

Section level_one.
Variables l cl : loc.
Variable rec : value → copy_table → heap → outcome (value * copy_table * heap).
Hypothesis Hrec : ∀ x H,
  isObject x = true → rec x [(l, VRef cl)] H = Ok (rename1 l cl x, [(l, VRef cl)], H).

Lemma copy_child_level1 x H :
  copy_child rec x [(l, VRef cl)] H = Ok (rename1 l cl x, [(l, VRef cl)], H).
Proof using Hrec.
  unfold copy_child. destruct (isObject x) eqn:Hx; [by apply Hrec|].
  unfold rename1. rewrite decide_False; [done|]. by intros ->.
Qed.

Lemma copy_props_level1 o c s ps dps H :
  proto o = Some c → has_own (props o) "hasOwnProperty" = false →
  (∀ kv, kv ∈ ps → kv.1 ∈ (props o).*1) →
  H !! cl = Some (Obj (Some c) s dps) →
  (∀ k, k ∈ ps.*1 → inherited (Obj (Some c) s []) k = false) →
  NoDup (dps.*1 ++ ps.*1) → canonical_keys (dps.*1 ++ ps.*1) = true →
  copy_props rec o cl ps [(l, VRef cl)] H
  = Ok ([(l, VRef cl)],
        <[cl := Obj (Some c) s (dps ++ (prod_map id (rename1 l cl) <$> ps))]> H).
Proof using Hrec.
  intros Hproto Hhas. revert dps H.
  induction ps as [|[key x] r IH]; intros dps H Hsub Hcopy Hinh Hnd Hcan.
  - simpl. rewrite app_nil_r. by rewrite list_insert_id.
  - csimpl in *. unfold hasOwnProperty. rewrite Hhas, Hproto. simpl.
    assert (has_own (props o) key = true) as ->.
    { apply has_own_true. apply (Hsub (key, x)). left. }
    rewrite Hcopy.
    assert (key ∉ dps.*1) as Hkey.
    { apply NoDup_app in Hnd as (_ & Hnd & _). intros Hin. apply (Hnd _ Hin). left. }
    assert (defined_on (Obj (Some c) s dps) key = false) as ->.
    { unfold defined_on. simpl. apply prop_get_None in Hkey. rewrite Hkey.
      rewrite <- (Hinh key) by left. done. }
    rewrite copy_child_level1. simpl. unfold heap_update. rewrite Hcopy. simpl.
    unfold with_props. simpl.
    rewrite prop_set_snoc; [|done | by eapply canonical_keys_app_cons].
    rewrite (IH (dps ++ [(key, rename1 l cl x)])).
    + by rewrite list_insert_insert_eq, <- app_assoc.
    + intros kv Hkv. apply Hsub. by right.
    + apply list_lookup_insert_eq. by eapply lookup_lt_Some.
    + intros k Hk. apply Hinh. by right.
    + by rewrite fmap_app, <- app_assoc.
    + by rewrite fmap_app, <- app_assoc.
Qed.

Lemma copy_items_level1 p items ditems H :
  H !! cl = Some (Obj p (SSet ditems) []) →
  NoDup (ditems ++ (rename1 l cl <$> items)) →
  copy_items rec cl items [(l, VRef cl)] H
  = Ok ([(l, VRef cl)], <[cl := Obj p (SSet (ditems ++ (rename1 l cl <$> items))) []]> H).
Proof using Hrec.
  revert ditems H. induction items as [|x r IH]; intros ditems H Hcopy Hnd.
  - simpl. rewrite app_nil_r. by rewrite list_insert_id.
  - csimpl in *. rewrite copy_child_level1. simpl. unfold Set_add. rewrite Hcopy. simpl.
    rewrite set_add_snoc.
    2:{ apply NoDup_app in Hnd as (_ & Hnd & _). intros Hin. apply (Hnd _ Hin). left. }
    rewrite (IH (ditems ++ [rename1 l cl x])).
    + by rewrite list_insert_insert_eq, <- app_assoc.
    + apply list_lookup_insert_eq. by eapply lookup_lt_Some.
    + by rewrite <- app_assoc.
Qed.

Lemma copy_entries_level1 p entries dentries H :
  H !! cl = Some (Obj p (SMap dentries) []) →
  NoDup (dentries.*1 ++ (rename1 l cl <$> entries.*1)) →
  copy_entries rec cl entries [(l, VRef cl)] H
  = Ok ([(l, VRef cl)],
        <[cl := Obj p (SMap (dentries
                 ++ (prod_map (rename1 l cl) (rename1 l cl) <$> entries))) []]> H).
Proof using Hrec.
  revert dentries H. induction entries as [|[k x] r IH]; intros dentries H Hcopy Hnd.
  - simpl. rewrite app_nil_r. by rewrite list_insert_id.
  - csimpl in *. rewrite copy_child_level1. simpl. rewrite copy_child_level1. simpl.
    unfold Map_set. rewrite Hcopy. simpl.
    rewrite map_set_snoc.
    2:{ apply NoDup_app in Hnd as (_ & Hnd & _). intros Hin. apply (Hnd _ Hin). left. }
    rewrite (IH (dentries ++ [(rename1 l cl k, rename1 l cl x)])).
    + by rewrite list_insert_insert_eq, <- app_assoc.
    + apply list_lookup_insert_eq. by eapply lookup_lt_Some.
    + by rewrite fmap_app, <- app_assoc.
Qed.
End level_one.

Lemma rename1_NoDup (n l cl : loc) (vs : list value) :
  n ≤ cl → forallb (value_valid n) vs = true → NoDup vs → NoDup (rename1 l cl <$> vs).
Proof.
  intros Hcl Hval Hnd. apply NoDup_fmap_2_strong; [|done].
  assert (∀ x, x ∈ vs → x ≠ VRef cl) as Hne.
  { intros x Hx ->. rewrite forallb_forall in Hval.
    apply list_elem_of_In, Hval in Hx. simpl in Hx. apply bool_decide_eq_true in Hx. lia. }
  intros x y Hx Hy. unfold rename1.
  destruct (decide (x = VRef l)), (decide (y = VRef l)); try congruence.
  - intros E. by destruct (Hne y Hy).
  - intros E. by destruct (Hne x Hx).
Qed.

(** X9: a copy of depth one is the shallow copy: for a copyable object [o],
    [copy(o, 1)] allocates exactly one object, of the prototype and kind of
    [o], whose elements, entries and own properties are those of [o]
    themselves (reference-identical children), except that a reference of
    [o] to itself becomes a reference of the copy to itself. *)
Theorem copy_level1_is_shallow (h : heap) (l : loc) (o : obj) (fuel : nat) :
  h !! l = Some o → copyable_obj (length h) o = true →
  deepCopy (2 + fuel) (VRef l) 1 h
  = Ok (VRef (length h), h ++ [shallow_copy l (length h) o]).
Proof.
  intros Ho Hwf. unfold deepCopy. change (2 + fuel) with (S (S fuel)).
  rewrite copyObject_S. simpl. rewrite Ho.
  unfold copyable_obj in Hwf. destruct (proto o) as [c|] eqn:Hproto; [|done].
  repeat (apply andb_true_iff in Hwf as [Hwf ?]).
  apply negb_true_iff in Hwf.
  match goal with H : negb _ = true |- _ => apply negb_true_iff in H; rename H into Hhas end.
  match goal with H : bool_decide (NoDup _) = true |- _ =>
    apply bool_decide_eq_true in H; rename H into Hnd end.
  match goal with H : canonical_keys _ = true |- _ => rename H into Hcan end.
  match goal with H : forallb (value_valid _) _ = true |- _ => rename H into Hvals end.
  match goal with H : forallb _ (props o).*1 = true |- _ => rename H into Hinh end.
  match goal with H : match cbrand c with _ => _ end = true |- _ => rename H into Hslot end.
  unfold constructor_of. rewrite Hwf, Hproto. simpl.
  assert (∀ b, instanceof o b = bool_decide (cbrand c = b)) as Hinst.
  { intros b. unfold instanceof. by rewrite Hproto. }
  rewrite !Hinst.
  assert ((if bool_decide (c = Array_ctor) || bool_decide (cbrand c = BArray)
           then Ok SArray
           else if bool_decide (cbrand c = BSet) then Ok (SSet [])
           else if bool_decide (cbrand c = BMap) then Ok (SMap [])
           else if bool_decide (cbrand c = BDate)
                then match oslot o with
                     | SDate t => Ok (SDate t)
                     | _ => Throw TypeError
                     end
           else Ok SNone) = Ok (shell_slot o)) as ->.
  { unfold shell_slot.
    destruct (cbrand c) eqn:Hb, (oslot o); try done;
      (destruct (bool_decide (c = Array_ctor)) eqn:Hc;
       [apply bool_decide_eq_true in Hc; subst c; first [discriminate Hb | done] | done]). }
  simpl. set (cl := length h). change (1 - 1)%Z with 0%Z.
  set (rec := λ x seen, copyObject (S fuel) x seen 0).
  assert (∀ x H, isObject x = true →
            rec x [(l, VRef cl)] H = Ok (rename1 l cl x, [(l, VRef cl)], H)) as Hrec.
  { intros x H Hx. unfold rec. rewrite copyObject_S. destruct x as [| | | | |l']; try done.
    simpl. unfold rename1. destruct (decide (l = l')) as [->|Hne].
    - by rewrite decide_True.
    - rewrite decide_False; [done|]. by intros [= ->]. }
  assert (∀ k, k ∈ (props o).*1 → inherited (Obj (Some c) (shell_slot o) []) k = false)
    as Hinh'.
  { intros k Hk. rewrite forallb_forall in Hinh.
    apply list_elem_of_In, Hinh, negb_true_iff in Hk.
    unfold inherited, shell_slot in *. rewrite Hproto in Hk. simpl.
    by destruct (oslot o). }
  assert (∀ kv, kv ∈ props o → kv.1 ∈ (props o).*1) as Hsub.
  { intros kv Hkv. apply list_elem_of_fmap. by exists kv. }
  pose proof (alloc_lookup h (Obj (Some c) (shell_slot o) [])) as Hshell. fold cl in Hshell.
  unfold shallow_copy. rewrite Hproto. unfold shell_slot in *.
  destruct (cbrand c) eqn:Hb, (oslot o) as [| |items|entries|t] eqn:Hs; try done; simpl.
  - rewrite (copy_props_level1 l cl rec Hrec o c SNone (props o) [] _ Hproto Hhas);
      try done. simpl. unfold cl. by rewrite alloc_insert.
  - rewrite (copy_props_level1 l cl rec Hrec o c SArray (props o) [] _ Hproto Hhas);
      try done. simpl. unfold cl. by rewrite alloc_insert.
  - apply andb_true_iff in Hslot as [Hslot Hnil%bool_decide_eq_true].
    apply andb_true_iff in Hslot as [Hndi%bool_decide_eq_true Hvi].
    rewrite (copy_items_level1 l cl rec Hrec (Some c) items [] _ Hshell).
    + simpl. unfold cl. by rewrite alloc_insert, Hnil.
    + simpl. by apply (rename1_NoDup (length h)).
  - apply andb_true_iff in Hslot as [Hslot Hnil%bool_decide_eq_true].
    apply andb_true_iff in Hslot as [Hslot Hvx].
    apply andb_true_iff in Hslot as [Hndk%bool_decide_eq_true Hvk].
    rewrite (copy_entries_level1 l cl rec Hrec (Some c) entries [] _ Hshell).
    + simpl. unfold cl. by rewrite alloc_insert, Hnil.
    + simpl. by apply (rename1_NoDup (length h)).
  - rewrite (copy_props_level1 l cl rec Hrec o c (SDate t) (props o) [] _ Hproto Hhas);
      try done. simpl. unfold cl. by rewrite alloc_insert.
Qed.


(** ** Instances that hold only primitives *)

Lemma encode_props_prims (rec : value → seen_table → outcome (sval * seen_table))
    (ps : list (string * value)) (seen : seen_table) :
  Forall (λ v, isObject v = false) ps.*2 →
  encode_props rec ps seen = Ok (prod_map id SLive <$> ps, seen).
Proof.
  induction ps as [|[k x] r IH]; csimpl; [done|].
  intros [Hx Hr]%Forall_cons. unfold serialize_child. rewrite Hx. simpl.
  by rewrite IH.
Qed.

(** the members [JSON.stringify] prints for properties that hold primitives:
    a property that is [undefined] is left out *)
Definition printed (ps : list (string * value)) : list (string * value) :=
  filter (λ kv, defined kv.2 = true) ps.

Lemma printed_app (ps qs : list (string * value)) :
  printed (ps ++ qs) = printed ps ++ printed qs.
Proof. apply filter_app. Qed.

Lemma printed_keys (ps : list (string * value)) (k : string) :
  k ∈ (printed ps).*1 → k ∈ ps.*1.
Proof.
  intros ([k0 v] & -> & Hin)%list_elem_of_fmap.
  apply list_elem_of_filter in Hin as [_ Hin]. apply list_elem_of_fmap. by exists (k0, v).
Qed.

Lemma printed_sublist (ps : list (string * value)) : (printed ps).*1 `sublist_of` ps.*1.
Proof. apply fmap_sublist, sublist_filter. Qed.

Lemma stringify_members_live (fuel : nat) (h : heap) (ps : list (string * value)) :
  Forall (λ v, isObject v = false) ps.*2 →
  stringify_members (stringify (S (S fuel)) h) (prod_map id SLive <$> ps)
  = Ok (prod_map id json_of_prim <$> printed ps).
Proof.
  unfold printed. induction ps as [|[k x] r IH]; csimpl; [done|].
  intros [Hx Hr]%Forall_cons. rewrite stringify_S, stringify_live_S, (IH Hr).
  rewrite filter_cons. destruct x; try done; simpl; by rewrite ?decide_True by done.
Qed.

Lemma canonical_keys_sublist (ks1 ks2 : list string) :
  ks1 `sublist_of` ks2 → canonical_keys ks2 = true → canonical_keys ks1 = true.
Proof.
  induction 1 as [|k l1 l2 Hs IH|k l1 l2 Hs IH]; simpl; [done| |].
  - intros [Hk Hr]%andb_true_iff. rewrite IH by done. rewrite andb_true_r.
    rewrite forallb_forall in *. intros x Hx. apply Hk.
    apply list_elem_of_In. apply list_elem_of_In in Hx. by eapply elem_of_sublist.
  - intros [_ Hr]%andb_true_iff. auto.
Qed.

Lemma decode_props_prims
    (rec : json → refs_table → heap → outcome (value * refs_table * heap))
    (jo : json) (cl : loc) (c : ctor) (s : slot) (qs dps : list (string * value))
    (refs : refs_table) (H : heap) :
  has_own (members jo) "hasOwnProperty" = false →
  H !! cl = Some (Obj (Some c) s dps) →
  (∀ k, k ∈ qs.*1 → inherited (Obj (Some c) s []) k = false) →
  (∀ k, k ∈ qs.*1 → k ∉ metadata_names) →
  NoDup (dps.*1 ++ qs.*1) → canonical_keys (dps.*1 ++ qs.*1) = true →
  Forall (λ v, isObject v = false ∧ defined v = true) qs.*2 →
  decode_props rec jo cl (prod_map id json_of_prim <$> qs) refs H
  = Ok (refs, <[cl := Obj (Some c) s (dps ++ qs)]> H).
Proof.
  intros Hjo. revert dps H.
  induction qs as [|[key x] r IH]; intros dps H Hcopy Hinh Hmeta Hnd Hcan Hval.
  - simpl. rewrite app_nil_r. by rewrite list_insert_id.
  - csimpl in *. apply Forall_cons in Hval as [[Hx Hdx] Hval]. rewrite Hjo.
    rewrite !bool_decide_eq_true_2;
      [|intros ->; apply (Hmeta "__id"); [left | by repeat constructor]
       |intros ->; apply (Hmeta "__class"); [left | by repeat constructor]].
    simpl. rewrite Hcopy.
    assert (key ∉ dps.*1) as Hkey.
    { apply NoDup_app in Hnd as (_ & Hnd & _). intros Hin. apply (Hnd _ Hin). left. }
    assert (defined_on (Obj (Some c) s dps) key = false) as ->.
    { unfold defined_on. simpl. apply prop_get_None in Hkey. rewrite Hkey.
      rewrite <- (Hinh key) by left. done. }
    assert (decode_child rec (Some (json_of_prim x)) refs H = Ok (x, refs, H)) as ->.
    { unfold decode_child. by destruct x. }
    simpl. unfold heap_update. rewrite Hcopy. simpl. unfold with_props. simpl.
    rewrite prop_set_snoc; [|done | by eapply canonical_keys_app_cons].
    rewrite (IH (dps ++ [(key, x)])).
    + by rewrite list_insert_insert_eq, <- app_assoc.
    + apply list_lookup_insert_eq. by eapply lookup_lt_Some.
    + intros k Hk. apply Hinh. by right.
    + intros k Hk. apply Hmeta. by right.
    + by rewrite fmap_app, <- app_assoc.
    + by rewrite fmap_app, <- app_assoc.
    + done.
Qed.


Lemma printed_values (ps : list (string * value)) :
  Forall (λ v, isObject v = false) ps.*2 →
  Forall (λ v, isObject v = false ∧ defined v = true) (printed ps).*2.
Proof.
  intros Hps. apply Forall_forall. intros v ([k v0] & -> & Hin)%list_elem_of_fmap.
  apply list_elem_of_filter in Hin as [Hd Hin]. split; [|done].
  rewrite Forall_forall in Hps. apply Hps. apply list_elem_of_fmap. by exists (k, v0).
Qed.

(** X10: take an array or an instance of a class that extends none of Set,
    Map and Date, the class being registered under its name and not marked,
    the object being an array exactly when the class is Array or extends it.
    Let its own properties all hold primitives, and let none of them be
    named [constructor], [hasOwnProperty], [__class], [__id], [__ref],
    [__set], [__map], [__date], or by a name the object inherits from its
    prototype chain (or [length], for an array).  The object comes back from
    the round trip as one new object of the same class and kind with the
    same own properties in the same order, except that every property whose
    value is [undefined] is gone (for an array: the element has become a
    hole). *)
Theorem flat_roundtrip (cm : classMap) (fuel : nat) (h : heap) (l : loc) (o : obj)
    (c : ctor) :
  h !! l = Some o → proto o = Some c →
  copyable_obj (length h) o = true →
  cbrand c ≠ BSet → cbrand c ≠ BMap → cbrand c ≠ BDate →
  prop_get cm (getClassName (cname c)) = Some c → cmarked c = false →
  (∀ k, k ∈ (props o).*1 → k ∉ metadata_names) →
  Forall (λ v, isObject v = false) (props o).*2 →
  roundtrip cm (3 + fuel) h (VRef l)
  = Ok (VRef (length h), h ++ [Obj (Some c) (oslot o) (printed (props o))]).
Proof.
  intros Ho Hproto Hwf Hnset Hnmap Hdate Hreg Hmark Hmeta Hprim.
  unfold copyable_obj in Hwf. rewrite Hproto in Hwf.
  repeat (apply andb_true_iff in Hwf as [Hwf ?]).
  apply negb_true_iff in Hwf.
  match goal with H : negb _ = true |- _ => apply negb_true_iff in H; rename H into Hhas end.
  match goal with H : bool_decide (NoDup _) = true |- _ =>
    apply bool_decide_eq_true in H; rename H into Hnd end.
  match goal with H : canonical_keys _ = true |- _ => rename H into Hcan end.
  match goal with H : forallb (value_valid _) _ = true |- _ => rename H into Hvals end.
  match goal with H : forallb _ (props o).*1 = true |- _ => rename H into Hinh end.
  match goal with H : match cbrand c with _ => _ end = true |- _ => rename H into Hslot end.
  assert (∀ k, k ∈ (props o).*1 → inherited (Obj (Some c) (oslot o) []) k = false) as Hinh'.
  { intros k Hk. rewrite forallb_forall in Hinh.
    apply list_elem_of_In, Hinh, negb_true_iff in Hk.
    unfold inherited in *. by rewrite Hproto in Hk. }
  assert ((if bool_decide (c = Array_ctor) || bool_decide (cbrand c = BArray)
           then SArray else SNone) = oslot o) as Harr.
  { destruct (cbrand c) eqn:Hb, (oslot o) eqn:Hs; try done;
      (destruct (bool_decide (c = Array_ctor)) eqn:Hc;
       [apply bool_decide_eq_true in Hc; subst c; first [discriminate Hb | done] | done]). }
  unfold roundtrip, serialize. change (3 + fuel) with (S (S (S fuel))).
  rewrite serializeObject_S. simpl. rewrite Ho. unfold constructor_of.
  rewrite Hwf, Hproto. simpl. rewrite Hreg, Hmark. unfold instanceof. rewrite Hproto.
  rewrite !bool_decide_eq_false_2 by done.
  assert (has_own (props o) "__proto__" = false) as ->.
  { apply has_own_false. intros Hin. apply Hinh' in Hin. by rewrite inherited_proto in Hin. }
  destruct (canonical_split _ Hcan) as (n & Hidx & Hstr).
  rewrite (serialize_props_normal (serializeObject cm (S (S fuel)) h) o n);
    [|done | by rewrite Hproto | done..].
  set (idx := take n (props o)). set (strs := drop n (props o)).
  assert (props o = idx ++ strs) as Hps by (symmetry; apply take_drop).
  assert (idx.*1 = take n (props o).*1) as Hik by apply fmap_take.
  assert (strs.*1 = drop n (props o).*1) as Hsk by apply fmap_drop.
  rewrite <- Hik in Hidx. rewrite <- Hsk in Hstr.
  pose proof Hprim as Hprim'. rewrite Hps, fmap_app in Hprim'.
  apply Forall_app in Hprim' as [Hp1 Hp2].
  rewrite encode_props_prims by done. simpl. rewrite encode_props_prims by done. simpl.
  set (cn := getClassName (cname c)). set (oid := cn +:+ "_" +:+ show_nat 0).
  set (J := fmap (M := list) (prod_map (@id string) json_of_prim)).
  set (ms := J (printed idx) ++ [("__class", JStr cn); ("__id", JStr oid)] ++ J (printed strs)).
  rewrite stringify_S.
  rewrite (stringify_members_app _ _ _ (J (printed idx))
             ([("__class", JStr cn); ("__id", JStr oid)] ++ J (printed strs)));
    [|by apply stringify_members_live
     |apply (stringify_members_app _ [_; _] _ [_; _]);
        [simpl; by rewrite ?stringify_S, ?stringify_live_S
        |by apply stringify_members_live]].
  simpl. unfold deserialize.
  assert (∀ qs, (J qs).*1 = qs.*1) as HJk.
  { intros qs. unfold J. rewrite <- list_fmap_compose. by apply list_fmap_ext. }
  assert (∀ qs, Forall (λ m, JSON_parse m.2 = m.2) (J qs)) as HJfix.
  { intros qs. unfold J. apply Forall_fmap, Forall_forall. intros [k v] _. by destruct v. }
  assert ((printed (props o)).*1 = (printed idx).*1 ++ (printed strs).*1) as Hks.
  { by rewrite Hps, printed_app, fmap_app. }
  destruct (payload_keys_ok ((printed idx).*1 ++ (printed strs).*1)
              (length (printed idx).*1)) as [Hndk Hcank].
  { rewrite <- Hks. eapply sublist_NoDup; [done | apply printed_sublist]. }
  { rewrite <- Hks. eapply canonical_keys_sublist; [apply printed_sublist | done]. }
  { rewrite take_app_length. apply forallb_forall. intros k Hk%list_elem_of_In%printed_keys.
    rewrite forallb_forall in Hidx. by apply Hidx, list_elem_of_In. }
  { rewrite drop_app_length. apply forallb_forall. intros k Hk%list_elem_of_In%printed_keys.
    rewrite forallb_forall in Hstr. by apply Hstr, list_elem_of_In. }
  { intros k Hk. rewrite <- Hks in Hk. by apply Hmeta, printed_keys. }
  rewrite take_app_length, drop_app_length in Hndk, Hcank.
  change (J (printed idx) ++ ("__class", JStr cn) :: ("__id", JStr oid) :: J (printed strs))
    with ms.
  assert (ms.*1 = (printed idx).*1 ++ ["__class"; "__id"] ++ (printed strs).*1) as Hmsk.
  { unfold ms. by rewrite !fmap_app, !HJk. }
  rewrite parse_fixed_obj; [|by rewrite Hmsk | by rewrite Hmsk |]; cycle 1.
  { unfold ms. apply Forall_app. split; [done|]. by repeat constructor. }
  assert (∀ k, k ∈ "hasOwnProperty" :: metadata_names →
            prop_get ms k = prop_get [("__class", JStr cn); ("__id", JStr oid)] k) as Hfield.
  { intros k Hk. apply payload_field.
    - rewrite HJk. intros Hin%printed_keys.
      assert (k ∈ (props o).*1) as Hin'.
      { rewrite Hps, fmap_app. apply elem_of_app. by left. }
      apply elem_of_cons in Hk as [->|Hk]; [by apply has_own_false in Hhas|].
      by apply Hmeta in Hin'.
    - rewrite HJk. intros Hin%printed_keys.
      assert (k ∈ (props o).*1) as Hin'.
      { rewrite Hps, fmap_app. apply elem_of_app. by right. }
      apply elem_of_cons in Hk as [->|Hk]; [by apply has_own_false in Hhas|].
      by apply Hmeta in Hin'. }
  assert (has_own ms "hasOwnProperty" = false) as Hjo.
  { unfold has_own. rewrite Hfield by left. done. }
  rewrite (deserializeObject_node cm (S (S fuel)) (JObj ms) [] h c cn oid (oslot o));
    try done;
    try (unfold field; simpl; rewrite !Hfield by (by repeat constructor); simpl; done).
  rewrite !bool_decide_eq_false_2 by done.
  change (members (JObj ms)) with ms. unfold ms at 2.
  set (H1 := h ++ [Obj (Some c) (oslot o) []]).
  assert (H1 !! length h = Some (Obj (Some c) (oslot o) [])) as Hshell by apply alloc_lookup.
  rewrite decode_props_app.
  assert (∀ k, k ∈ (printed idx).*1 ∨ k ∈ (printed strs).*1 → k ∈ (props o).*1) as Hsub.
  { intros k Hk. rewrite Hps, fmap_app, elem_of_app.
    destruct Hk as [Hk%printed_keys|Hk%printed_keys]; auto. }
  unfold J at 1.
  rewrite (decode_props_prims _ (JObj ms) (length h) c (oslot o) (printed idx) []);
    [|done | done | by auto | by auto
     |by apply NoDup_app in Hndk as (? & _) | by eapply canonical_keys_app_l
     |by apply printed_values].
  simpl. rewrite Hjo. unfold J.
  rewrite (decode_props_prims _ (JObj ms) (length h) c (oslot o) (printed strs) (printed idx));
    [|done | by (apply list_lookup_insert_eq; eapply lookup_lt_Some) | by auto | by auto
     | | |by apply printed_values].
  - simpl. rewrite list_insert_insert_eq. unfold H1. rewrite alloc_insert.
    by rewrite Hps, printed_app.
  - rewrite <- Hks. apply (sublist_NoDup _ (props o).*1); [exact Hnd | apply printed_sublist].
  - rewrite <- Hks.
    apply (canonical_keys_sublist _ (props o).*1); [apply printed_sublist | exact Hcan].
Qed.


(** X11: the mark of a class shows after the round trip: take a class that
    extends none of Array, Set, Map and Date, is registered under its name,
    carries [SERIALIZED_CLASS] on its prototype and defines no property
    named SERIALIZED_CLASS there; an instance of it without own properties
    comes back as a new instance of the class that owns the property
    [SERIALIZED_CLASS] with the value [true]. *)
Theorem marked_roundtrip (cm : classMap) (fuel : nat) (h : heap) (l : loc) (c : ctor) :
  h !! l = Some (Obj (Some c) SNone []) →
  cbrand c = BObject → cmarked c = true →
  prop_get cm (getClassName (cname c)) = Some c →
  "SERIALIZED_CLASS" ∉ cmembers c →
  roundtrip cm (3 + fuel) h (VRef l)
  = Ok (VRef (length h), h ++ [Obj (Some c) SNone [("SERIALIZED_CLASS", VBool true)]]).
Proof.
  intros Ho Hb Hmark Hreg Hmem. unfold roundtrip, serialize.
  change (3 + fuel) with (S (S (S fuel))).
  rewrite serializeObject_S. simpl. rewrite Ho. unfold constructor_of. simpl.
  rewrite Hreg, Hmark. unfold instanceof. simpl. rewrite Hb. simpl.
  unfold deserialize. set (text := JObj _).
  assert (JSON_parse text = text) as -> by reflexivity.
  rewrite deserializeObject_S. simpl. rewrite Hreg. simpl.
  assert (bool_decide (c = Array_ctor) = false) as ->.
  { apply bool_decide_eq_false. intros ->. discriminate Hb. }
  rewrite Hb. simpl. unfold alloc, heap_update. rewrite alloc_lookup. simpl.
  unfold defined_on, inherited. simpl.
  rewrite (bool_decide_eq_false_2 _ Hmem). simpl.
  by rewrite alloc_insert.
Qed.


(** ** [Serializable.parse] *)

(** [JSON.parse] as the objects it builds: a plain object per JSON object,
    its members defined one after the other, and an array per JSON array.
    Inner values are built before the value that holds them. *)
Fixpoint reify (j : json) (h : heap) : value * heap :=
  match j with
  | JNull => (VNull, h)
  | JBool b => (VBool b, h)
  | JNum n => (VNum n, h)
  | JStr s => (VStr s, h)
  | JArr xs =>
      let '(vs, h) :=
        (fix elements (xs : list json) (h : heap) : list value * heap :=
           match xs with
           | [] => ([], h)
           | x :: r =>
               let '(v, h) := reify x h in
               let '(vs, h) := elements r h in
               (v :: vs, h)
           end) xs h in
      let '(l, h) :=
        alloc h (Obj (Some Array_ctor) SArray (zip (show_nat <$> seq 0 (length vs)) vs)) in
      (VRef l, h)
  | JObj ms =>
      let '(ps, h) :=
        (fix fields (ms : list (string * json)) (h : heap)
           : list (string * value) * heap :=
           match ms with
           | [] => ([], h)
           | (k, x) :: r =>
               let '(v, h) := reify x h in
               let '(ps, h) := fields r h in
               ((k, v) :: ps, h)
           end) ms h in
      let '(l, h) :=
        alloc h (Obj (Some Object_ctor) SNone
                   (fold_left (fun acc kv => prop_set acc kv.1 kv.2) ps [])) in
      (VRef l, h)
  end.

(** the second argument of [parse]: a JSON text, or a value that is not a
    string *)
Inductive json_arg :=
  | Text (text : json)
  | Given (v : value).

(** the own property [key] of an object; an array owns its [length] *)
Definition own_get (o : obj) (key : string) : option value :=
  match prop_get (props o) key with
  | Some v => Some v
  | None =>
      match oslot o with
      | SArray =>
          if decide (key = "length")
          then Some (VNum (Z.of_N (array_length (props o))))
          else None
      | _ => None
      end
  end.

(** the own properties of a string: its [length] and its characters *)
Definition string_own (s : string) (key : string) : option value :=
  if decide (key = "length") then Some (VNum (Z.of_nat (String.length s)))
  else match array_index key with
       | Some i =>
           match String.get (N.to_nat i) s with
           | Some c => Some (VStr (String c EmptyString))
           | None => None
           end
       | None => None
       end.

(** [jsonObject.hasOwnProperty(key)] *)
Definition value_hasOwnProperty (h : heap) (v : value) (key : string) : outcome bool :=
  match v with
  | VUndef | VNull => Throw TypeError
  | VBool _ | VNum _ => Ok false
  | VStr s => Ok (bool_decide (is_Some (string_own s key)))
  | VRef l =>
      match h !! l with
      | None => Unmodelled
      | Some o =>
          if has_own (props o) "hasOwnProperty" then Throw TypeError
          else match proto o with
               | Some _ => Ok (bool_decide (is_Some (own_get o key)))
               | None => Throw TypeError
               end
      end
  end.

(** [jsonObject[key]] where [key] is an own property *)
Definition value_get (h : heap) (v : value) (key : string) : value :=
  match v with
  | VStr s => default VUndef (string_own s key)
  | VRef l =>
      match h !! l with
      | Some o => default VUndef (own_get o key)
      | None => VUndef
      end
  | _ => VUndef
  end.

(** [Array.isArray(v)] *)
Definition isArray (h : heap) (v : value) : bool :=
  match v with
  | VRef l =>
      match h !! l with
      | Some o => match oslot o with SArray => true | _ => false end
      | None => false
      end
  | _ => false
  end.

(** [instance.length = 0] *)
Definition clear_elements (o : obj) : obj :=
  with_props (filter (λ kv, array_index kv.1 = None)) o.

(** [instance.push(element)], the method of [Array.prototype] *)
Definition array_push (h : heap) (l : loc) (v : value) : outcome heap :=
  match h !! l with
  | None => Unmodelled
  | Some o =>
      if has_own (props o) "push" then Throw TypeError
      else if instanceof o BArray then
        let n := array_length (props o) in
        if (n <? 4294967295)%N
        then Ok (<[l := with_props (fun ps => prop_set ps (show_nat (N.to_nat n)) v) o]> h)
        else Unmodelled
      else Unmodelled
  end.

(** [for (const element of jsonObject) instance.push(element)] *)
Fixpoint push_all (l : loc) (elements : list value) (h : heap) : outcome heap :=
  match elements with
  | [] => Ok h
  | element :: r => h ← array_push h l element; push_all l r h
  end.

(** [for (const key in instance) if (instance.hasOwnProperty(key))
      if (jsonObject.hasOwnProperty(key)) instance[key] = jsonObject[key]] *)
Fixpoint parse_assign (l : loc) (jsonObject : value) (keys : list string) (h : heap)
  : outcome heap :=
  match keys with
  | [] => Ok h
  | key :: r =>
      match h !! l with
      | None => Unmodelled
      | Some instance =>
          own ← hasOwnProperty instance key;
          if own : bool then
            has ← value_hasOwnProperty h jsonObject key;
            if has : bool then
              h ← heap_update h l
                    (with_props (fun ps => prop_set ps key (value_get h jsonObject key)));
              parse_assign l jsonObject r h
            else parse_assign l jsonObject r h
          else parse_assign l jsonObject r h
      end
  end.

(** [new type_()] for the built-in constructors that need no instant; the
    constructor of any other class runs code that is not modelled *)
Definition construct (c : ctor) (h : heap) : outcome (value * heap) :=
  let fresh s := let '(l, h) := alloc h (Obj (Some c) s []) in Ok (VRef l, h) in
  if decide (c = Object_ctor) then fresh SNone
  else if decide (c = Array_ctor) then fresh SArray
  else if decide (c = Set_ctor) then fresh (SSet [])
  else if decide (c = Map_ctor) then fresh (SMap [])
  else Unmodelled.

(** [Serializable.parse(type_, jsonObj)]; [type_] is a constructor or an
    existing instance. *)
Definition parse (type_ : ctor + value) (jsonObj : json_arg) (h : heap)
  : outcome (value * heap) :=
  '(jsonObject, h) ←
    match jsonObj with
    | Text text => Ok (reify text h)
    | Given (VStr _) => Unmodelled
    | Given v => Ok (v, h)
    end;
  '(instance, h) ←
    match type_ with
    | inl c => construct c h
    | inr v => Ok (v, h)
    end;
  match instance with
  | VRef l =>
      h ← (if isArray h instance && isArray h jsonObject then
             match jsonObject with
             | VRef lj =>
                 h ← heap_update h l clear_elements;
                 match h !! lj with
                 | Some oj =>
                     if instanceof oj BArray
                     then push_all l (array_elements (props oj)) h
                     else Unmodelled
                 | None => Unmodelled
                 end
             | _ => Ok h
             end
           else Ok h);
      match h !! l with
      | None => Unmodelled
      | Some o =>
          h ← parse_assign l jsonObject (props o).*1 h;
          Ok (instance, h)
      end
  | VStr _ => Unmodelled
  | _ => Ok (instance, h)
  end.


(** what [parse] makes of the own properties of the instance: a property
    that [oj] owns too takes the value [oj] has for it *)
Definition merge_props (oj : obj) (ps : list (string * value)) : list (string * value) :=
  (λ kv, (kv.1, default kv.2 (own_get oj kv.1))) <$> ps.

Lemma merge_props_keys (oj : obj) (ps : list (string * value)) :
  (merge_props oj ps).*1 = ps.*1.
Proof. unfold merge_props. rewrite <- list_fmap_compose. by apply list_fmap_ext. Qed.

Lemma parse_assign_merge (l lj : loc) (oj : obj) (p : option ctor) (s : slot)
    (todo pre : list (string * value)) (H : heap) :
  l ≠ lj → is_Some p →
  has_own (props oj) "hasOwnProperty" = false → is_Some (proto oj) →
  H !! l = Some (Obj p s (pre ++ todo)) → H !! lj = Some oj →
  NoDup (pre ++ todo).*1 → "hasOwnProperty" ∉ (pre ++ todo).*1 →
  parse_assign l (VRef lj) todo.*1 H
  = Ok (<[l := Obj p s (pre ++ merge_props oj todo)]> H).
Proof.
  intros Hne [c ->] Hhasj [cj Hpj]. revert pre H.
  induction todo as [|[key x] r IH]; intros pre H Hl Hlj Hnd Hhas.
  - simpl. by rewrite list_insert_id.
  - csimpl. rewrite Hl. unfold hasOwnProperty. simpl.
    rewrite (proj2 (has_own_false _ _) Hhas). simpl.
    rewrite (proj2 (has_own_true (pre ++ (key, x) :: r) key))
      by (rewrite fmap_app, elem_of_app; right; left).
    rewrite Hlj, Hhasj, Hpj. simpl.
    assert (key ∉ pre.*1) as Hkey.
    { rewrite fmap_app in Hnd. apply NoDup_app in Hnd as (_ & Hnd & _).
      intros Hin. apply (Hnd _ Hin). left. }
    assert (∀ y, <[l := Obj (Some c) s (pre ++ (key, y) :: r)]> H !! lj = Some oj) as Hlj'.
    { intros y. by rewrite list_lookup_insert_ne. }
    assert (∀ y, <[l := Obj (Some c) s (pre ++ (key, y) :: r)]> H !! l
                 = Some (Obj (Some c) s ((pre ++ [(key, y)]) ++ r))) as Hl'.
    { intros y. rewrite <- app_assoc. apply list_lookup_insert_eq. by eapply lookup_lt_Some. }
    destruct (own_get oj key) as [v|] eqn:Hv.
    + rewrite bool_decide_eq_true_2 by eauto. unfold heap_update. rewrite Hl. simpl.
      unfold with_props. simpl. rewrite prop_set_middle by done.
      rewrite (IH (pre ++ [(key, v)])); [| apply Hl' | apply Hlj' | |].
      * by rewrite list_insert_insert_eq, <- app_assoc.
      * rewrite <- app_assoc. by rewrite !fmap_app in *.
      * rewrite <- app_assoc. by rewrite !fmap_app in *.
    + rewrite bool_decide_eq_false_2 by (by intros [? ?]).
      rewrite (IH (pre ++ [(key, x)])); rewrite <- ?app_assoc; done.
Qed.

(** the object finds [hasOwnProperty] on its prototype chain: the prototype
    is not null and no own property hides the method *)
Definition inherits_hasOwnProperty (o : obj) : bool :=
  negb (has_own (props o) "hasOwnProperty") && bool_decide (is_Some (proto o)).

Lemma parse_assign_throws (l lj : loc) (o oj : obj) (key : string) (keys : list string)
    (H : heap) :
  H !! l = Some o → inherits_hasOwnProperty o = true → has_own (props o) key = true →
  H !! lj = Some oj → inherits_hasOwnProperty oj = false →
  parse_assign l (VRef lj) (key :: keys) H = Throw TypeError.
Proof.
  unfold inherits_hasOwnProperty.
  intros Hl [Hhas [c Hp]%bool_decide_eq_true]%andb_true_iff Hkey Hlj Hj. simpl.
  apply negb_true_iff in Hhas.
  rewrite Hl. unfold hasOwnProperty. rewrite Hhas, Hp, Hkey. simpl. rewrite Hlj.
  destruct (has_own (props oj) "hasOwnProperty"); [done|].
  destruct (proto oj); [|done]. by simpl in Hj.
Qed.

(** X12: [parse] into an existing instance from a given object, the two
    being different objects and not both arrays, and the instance
    inheriting [hasOwnProperty].  When the given object inherits
    [hasOwnProperty] too, [parse] overwrites and never extends: the instance
    keeps its own property names and their order, every property the given
    object owns too (the [length] of an array included) takes the value
    found there, by reference and without a copy, the other properties keep
    their values, and no other object changes.  When the given object has a
    null prototype or an own property named [hasOwnProperty], [parse] raises
    a TypeError as soon as the instance has an own property, and returns the
    instance unchanged when it has none. *)
Theorem parse_merges_own_properties (h : heap) (l lj : loc) (o oj : obj) :
  h !! l = Some o → h !! lj = Some oj → l ≠ lj →
  inherits_hasOwnProperty o = true →
  NoDup (props o).*1 →
  isArray h (VRef l) && isArray h (VRef lj) = false →
  parse (inr (VRef l)) (Given (VRef lj)) h
  = if inherits_hasOwnProperty oj
    then Ok (VRef l, <[l := with_props (merge_props oj) o]> h)
    else if bool_decide (props o = []) then Ok (VRef l, h)
    else Throw TypeError.
Proof.
  intros Ho Hoj Hne Hinh Hnd Harr. unfold parse. simpl.
  simpl in Harr. rewrite Ho, Hoj in Harr. rewrite Ho, Hoj. rewrite Harr. simpl. rewrite Ho.
  destruct (inherits_hasOwnProperty oj) eqn:Hj.
  - unfold inherits_hasOwnProperty in Hinh, Hj.
    apply andb_true_iff in Hinh as [Hhas%negb_true_iff Hp%bool_decide_eq_true].
    apply andb_true_iff in Hj as [Hhasj%negb_true_iff Hpj%bool_decide_eq_true].
    destruct o as [p s ps]. simpl in *.
    rewrite (parse_assign_merge l lj oj p s ps [] h); try done.
    by apply has_own_false.
  - destruct (props o) as [|[k x] r] eqn:Hps; [done|].
    rewrite bool_decide_eq_false_2 by done.
    change (((k, x) :: r).*1) with (k :: r.*1).
    rewrite (parse_assign_throws l lj o oj k r.*1 h); try done.
    apply has_own_true. rewrite Hps. left.
Qed.


Lemma parse_assign_none (l : loc) (v : value) (keys : list string) (H : heap) (o : obj) :
  H !! l = Some o → has_own (props o) "hasOwnProperty" = false → is_Some (proto o) →
  (∀ key, key ∈ keys → value_hasOwnProperty H v key = Ok false) →
  parse_assign l v keys H = Ok H.
Proof.
  intros Hl Hhas [c Hp]. induction keys as [|key r IH]; intros Hnone; simpl; [done|].
  rewrite Hl. unfold hasOwnProperty. rewrite Hhas, Hp. simpl.
  rewrite (Hnone key) by left. simpl.
  destruct (has_own (props o) key); apply IH; intros k Hk; apply Hnone; by right.
Qed.

(** X13: [parse] with a primitive in place of the parsed object: with [null]
    or [undefined] it raises a TypeError as soon as the instance has an own
    property (and returns the instance when it has none); with a number or
    a boolean it returns the instance unchanged. *)
Theorem parse_primitive_json (h : heap) (l : loc) (o : obj) (v : value) :
  h !! l = Some o →
  has_own (props o) "hasOwnProperty" = false → is_Some (proto o) →
  isObject v = false → (∀ s, v ≠ VStr s) →
  parse (inr (VRef l)) (Given v) h
  = match v with
    | VUndef | VNull =>
        if bool_decide (props o = []) then Ok (VRef l, h) else Throw TypeError
    | _ => Ok (VRef l, h)
    end.
Proof.
  intros Ho Hhas Hp Hv Hs. unfold parse.
  assert (isArray h v = false) as Harr by (by destruct v).
  assert ((match v with VStr _ => Unmodelled | _ => Ok (v, h) end
           : outcome (value * heap)) = Ok (v, h)) as ->.
  { destruct v; try done. by destruct (Hs s). }
  simpl. rewrite Harr, andb_false_r. simpl. rewrite Ho.
  destruct v as [| |b|n|s|l']; try done.
  - destruct (props o) as [|[k x] r] eqn:Hps; [done|].
    rewrite bool_decide_eq_false_2 by done. csimpl. rewrite Ho.
    destruct Hp as [c Hp]. unfold hasOwnProperty.
    rewrite Hps, Hhas, Hp. simpl.
    rewrite (proj2 (has_own_true ((k, x) :: r) k)) by left. done.
  - destruct (props o) as [|[k x] r] eqn:Hps; [done|].
    rewrite bool_decide_eq_false_2 by done. csimpl. rewrite Ho.
    destruct Hp as [c Hp]. unfold hasOwnProperty.
    rewrite Hps, Hhas, Hp. simpl.
    rewrite (proj2 (has_own_true ((k, x) :: r) k)) by left. done.
  - by rewrite (parse_assign_none l (VBool b) _ h o).
  - by rewrite (parse_assign_none l (VNum n) _ h o).
  - by destruct (Hs s).
Qed.

(** X14: [parse] of the text of the empty array into an array empties it:
    every element of the instance is removed, its other own properties are
    kept, and nothing else changes but for the new empty array that
    [JSON.parse] built. *)
Theorem parse_empty_array (h : heap) (l : loc) (o : obj) :
  h !! l = Some o → oslot o = SArray →
  has_own (props o) "hasOwnProperty" = false → is_Some (proto o) →
  "length" ∉ (props o).*1 →
  parse (inr (VRef l)) (Text (JArr [])) h
  = Ok (VRef l, <[l := clear_elements o]> h ++ [Obj (Some Array_ctor) SArray []]).
Proof.
  intros Ho Hs Hhas Hp Hlen. unfold parse. simpl.
  set (e := Obj (Some Array_ctor) SArray []).
  pose proof (lookup_lt_Some _ _ _ Ho) as Hl.
  assert ((h ++ [e]) !! l = Some o) as Ho1 by (by rewrite lookup_app_l).
  rewrite Ho1, Hs, alloc_lookup. simpl. unfold heap_update. rewrite Ho1. simpl.
  rewrite list_lookup_insert_ne by lia. rewrite alloc_lookup. simpl.
  assert (<[l:=clear_elements o]> (h ++ [e]) !! l = Some (clear_elements o)) as Ho2.
  { apply list_lookup_insert_eq. rewrite length_app. lia. }
  rewrite Ho2.
  assert (∀ k, k ∈ (props (clear_elements o)).*1 → k ∈ (props o).*1) as Hsub.
  { intros k ([k0 x] & -> & Hin)%list_elem_of_fmap. simpl in Hin.
    apply list_elem_of_filter in Hin as [_ Hin]. apply list_elem_of_fmap. by exists (k0, x). }
  rewrite (parse_assign_none l _ _ _ (clear_elements o)); [|done| |done|].
  - simpl. by rewrite insert_app_l.
  - apply has_own_false. intros Hin%Hsub. by apply has_own_false in Hhas.
  - intros key Hkey%Hsub. simpl. rewrite list_lookup_insert_ne by lia.
    rewrite alloc_lookup. simpl. unfold own_get. simpl.
    rewrite decide_False; [done|]. by intros ->.
Qed.


(** ** Array indices in decimal *)

Lemma digits_value_uint (d : Decimal.uint) (a : nat) :
  digits_value (NilEmpty.string_of_uint d) (N.of_nat a) = N.of_nat (Nat.of_uint_acc d a).
Proof.
  revert a. induction d as [|d IH|d IH|d IH|d IH|d IH|d IH|d IH|d IH|d IH|d IH];
    intros a; [done|..];
    cbn [NilEmpty.string_of_uint digits_value Nat.of_uint_acc]; rewrite <- IH;
    f_equal; rewrite Nat.tail_mul_spec;
    match goal with |- context [nat_of_ascii ?c] =>
      let n := eval vm_compute in (N.of_nat (nat_of_ascii c - 48)) in
      change (N.of_nat (nat_of_ascii c - 48)) with n
    end; lia.
Qed.

Lemma digits_value_show_nat (n : nat) : digits_value (show_nat n) 0 = N.of_nat n.
Proof.
  unfold show_nat. rewrite (digits_value_uint _ 0).
  change (Nat.of_uint_acc (Nat.to_uint n) 0) with (Nat.of_uint (Nat.to_uint n)).
  by rewrite Unsigned.of_to.
Qed.

Lemma to_uint_normal (n : nat) : Decimal.unorm (Nat.to_uint n) = Nat.to_uint n.
Proof. by rewrite <- (Unsigned.to_of (Nat.to_uint n)), Unsigned.of_to. Qed.

Lemma unorm_head (d : Decimal.uint) :
  match Decimal.unorm d with
  | Decimal.Nil => False
  | Decimal.D0 r => r = Decimal.Nil
  | _ => True
  end.
Proof. induction d; simpl; auto. Qed.

Lemma of_uint_acc_lower (d : Decimal.uint) (a : nat) :
  a * 10 ^ Decimal.nb_digits d ≤ Nat.of_uint_acc d a.
Proof.
  revert a. induction d as [|d IH|d IH|d IH|d IH|d IH|d IH|d IH|d IH|d IH|d IH];
    intros a; cbn [Decimal.nb_digits Nat.of_uint_acc]; [rewrite Nat.pow_0_r; lia|..];
    (etrans; [|apply IH]); rewrite Nat.tail_mul_spec, Nat.pow_succ_r';
    generalize (10 ^ Decimal.nb_digits d); intros m; nia.
Qed.

Lemma string_of_uint_length (d : Decimal.uint) :
  String.length (NilEmpty.string_of_uint d) = Decimal.nb_digits d.
Proof. induction d; simpl; auto. Qed.

Lemma show_nat_length (n : nat) :
  (N.of_nat n < 4294967295)%N → String.length (show_nat n) ≤ 10.
Proof.
  intros Hn. unfold show_nat. rewrite string_of_uint_length.
  pose proof (unorm_head (Nat.to_uint n)) as Hhead. rewrite to_uint_normal in Hhead.
  pose proof (Unsigned.of_to n) as Hval. unfold Nat.of_uint in Hval.
  destruct (Nat.to_uint n) as [|d|d|d|d|d|d|d|d|d|d]; [done|subst; simpl; lia|..];
    cbn [Nat.of_uint_acc Decimal.nb_digits] in *;
    pose proof (of_uint_acc_lower d) as Hlow;
    match type of Hval with Nat.of_uint_acc d ?a = n => specialize (Hlow a) end;
    destruct (decide (Decimal.nb_digits d < 10)) as [|Hbig]; try lia;
    assert (10 ^ 10 ≤ N.of_nat (10 ^ Decimal.nb_digits d))%N
      by (rewrite Nat2N.inj_pow; apply N.pow_le_mono_r; lia);
    change (10 ^ 10)%N with 10000000000%N in *; simpl in Hlow; lia.
Qed.

Lemma show_nat_head (n : nat) :
  ∃ c r, show_nat n = String c r ∧ negb (Ascii.eqb c "0") || String.eqb r "" = true.
Proof.
  unfold show_nat. pose proof (unorm_head (Nat.to_uint n)) as Hhead.
  rewrite to_uint_normal in Hhead.
  destruct (Nat.to_uint n); [done|subst|..]; by eexists _, _.
Qed.

Lemma array_index_show_nat (n : nat) :
  (N.of_nat n < 4294967295)%N → array_index (show_nat n) = Some (N.of_nat n).
Proof.
  intros Hn. pose proof (show_nat_length n Hn) as Hlen.
  pose proof (show_nat_digits n) as Hdig. pose proof (digits_value_show_nat n) as Hval.
  destruct (show_nat_head n) as (c & r & Hs & Hhead). rewrite Hs in *.
  unfold array_index. rewrite Hdig, Hhead, Hval. simpl.
  rewrite (proj2 (Nat.leb_le _ _)) by (simpl in Hlen; lia).
  by rewrite (proj2 (N.ltb_lt _ _)).
Qed.

Lemma array_index_bound (k : string) (i : N) :
  array_index k = Some i → (i < 4294967295)%N.
Proof.
  unfold array_index. destruct k as [|c r]; [done|].
  destruct (_ && _); [|done].
  destruct (_ <? _)%N eqn:Hlt; [|done]. intros [= <-]. by apply N.ltb_lt.
Qed.

Lemma show_nat_not_name (n : nat) (k : string) : all_digits k = false → show_nat n ≠ k.
Proof. intros Hk <-. by rewrite show_nat_digits in Hk. Qed.

(** ** Arrays as property lists *)

(** the own properties of an array that holds [vs] and nothing else *)
Definition indexed (vs : list value) : list (string * value) :=
  zip (show_nat <$> seq 0 (length vs)) vs.

Lemma indexed_keys (vs : list value) : (indexed vs).*1 = show_nat <$> seq 0 (length vs).
Proof. unfold indexed. apply fst_zip. by rewrite length_fmap, length_seq. Qed.

Lemma indexed_snoc (vs : list value) (v : value) :
  indexed (vs ++ [v]) = indexed vs ++ [(show_nat (length vs), v)].
Proof.
  unfold indexed. rewrite length_app. simpl. rewrite seq_app, fmap_app. simpl.
  rewrite zip_with_app; [done|]. by rewrite length_fmap, length_seq.
Qed.

Lemma indexed_fmap (g : nat → value) (a n : nat) :
  zip (show_nat <$> seq a n) (g <$> seq a n) = (λ i, (show_nat i, g i)) <$> seq a n.
Proof. revert a. induction n as [|n IH]; intros a; simpl; [done|]. by rewrite IH. Qed.

Lemma array_length_app (ps1 ps2 : list (string * value)) :
  array_length (ps1 ++ ps2) = N.max (array_length ps1) (array_length ps2).
Proof.
  induction ps1 as [|[k v] r IH]; simpl; [lia|].
  fold (array_length (r ++ ps2)). fold (array_length r). rewrite IH.
  destruct (array_index k); lia.
Qed.

Lemma array_length_names (ps : list (string * value)) :
  Forall (λ k, array_index k = None) ps.*1 → array_length ps = 0%N.
Proof.
  induction ps as [|[k v] r IH]; csimpl; [done|].
  intros [Hk Hr]%Forall_cons. fold (array_length r). by rewrite Hk, IH.
Qed.

Lemma array_length_bound (ps : list (string * value)) : (array_length ps ≤ 4294967295)%N.
Proof.
  induction ps as [|[k v] r IH]; simpl; [lia|]. fold (array_length r).
  destruct (array_index k) as [i|] eqn:Hi; [|done].
  apply array_index_bound in Hi. lia.
Qed.

Lemma array_length_indexed (vs : list value) :
  (N.of_nat (length vs) ≤ 4294967295)%N → array_length (indexed vs) = N.of_nat (length vs).
Proof.
  induction vs as [|v vs IH] using rev_ind; [done|].
  rewrite length_app. simpl. intros Hlen.
  rewrite indexed_snoc, array_length_app, IH by lia. simpl.
  rewrite array_index_show_nat by lia. lia.
Qed.


(** a new index property goes after the smaller indices and before the
    names *)
Lemma prop_set_index (pre names : list (string * value)) (k : string) (v : value) :
  is_index k = true → k ∉ pre.*1 →
  Forall (λ k0, key_before k0 k = false) pre.*1 →
  Forall (λ k0, array_index k0 = None) names.*1 →
  prop_set (pre ++ names) k v = pre ++ (k, v) :: names.
Proof.
  intros Hk Hpre Hbefore Hnames. unfold prop_set.
  rewrite (proj2 (has_own_false _ _)).
  - rewrite prop_insert_app by done. f_equal.
    destruct names as [|[k0 x0] r]; [done|]. csimpl in *.
    apply Forall_cons in Hnames as [Hk0 _].
    rewrite key_before_index_name; [done..|]. unfold is_index. by rewrite Hk0.
  - rewrite fmap_app, elem_of_app. intros [Hin|Hin]; [done|].
    rewrite Forall_forall in Hnames. specialize (Hnames _ Hin).
    unfold is_index in Hk. by rewrite Hnames in Hk.
Qed.

(** pushing the elements one after the other onto an array that holds
    [pushed] *)
Lemma push_all_indexed (l : loc) (c : ctor) (s : slot) (names : list (string * value))
    (pushed todo : list value) (H : heap) :
  H !! l = Some (Obj (Some c) s (indexed pushed ++ names)) →
  cbrand c = BArray → "push" ∉ names.*1 →
  Forall (λ k, array_index k = None) names.*1 →
  (N.of_nat (length (pushed ++ todo)) ≤ 4294967295)%N →
  push_all l todo H = Ok (<[l := Obj (Some c) s (indexed (pushed ++ todo) ++ names)]> H).
Proof.
  intros Hl Hc Hpush Hnames. revert pushed H Hl.
  induction todo as [|v r IH]; intros pushed H Hl Hlen.
  - simpl. by rewrite app_nil_r, list_insert_id.
  - rewrite length_app in Hlen. simpl in Hlen.
    simpl. unfold array_push. rewrite Hl. simpl.
    rewrite (proj2 (has_own_false _ _)).
    2:{ rewrite fmap_app, elem_of_app, indexed_keys. intros [Hin|Hin]; [|done].
        apply list_elem_of_fmap in Hin as (i & Hi & _).
        by apply (show_nat_not_name i "push"). }
    unfold instanceof. simpl. rewrite bool_decide_eq_true_2 by done.
    rewrite array_length_app, array_length_indexed, (array_length_names names)
      by (done || lia).
    rewrite N.max_0_r. rewrite (proj2 (N.ltb_lt _ _)) by lia. simpl.
    unfold with_props. simpl. rewrite Nat2N.id.
    rewrite prop_set_index; [| | | |done].
    + rewrite (IH (pushed ++ [v])).
      * by rewrite list_insert_insert_eq, <- app_assoc.
      * rewrite indexed_snoc, <- app_assoc. apply list_lookup_insert_eq.
        by eapply lookup_lt_Some.
      * rewrite <- app_assoc, length_app. simpl. lia.
    + unfold is_index. by rewrite array_index_show_nat by lia.
    + rewrite indexed_keys. intros (i & Hi%show_nat_inj & Hin%elem_of_seq)%list_elem_of_fmap.
      lia.
    + rewrite indexed_keys. apply Forall_fmap, Forall_forall.
      intros i Hi%elem_of_seq. simpl. unfold key_before.
      rewrite !array_index_show_nat by lia. apply N.ltb_ge. lia.
Qed.

Lemma merge_props_elements (oj : obj) :
  merge_props oj (indexed (array_elements (props oj))) = indexed (array_elements (props oj)).
Proof.
  unfold indexed, array_elements, merge_props. rewrite length_fmap, length_seq.
  rewrite indexed_fmap, <- list_fmap_compose. apply list_fmap_ext. intros ? i _. simpl.
  f_equal. unfold own_get.
  destruct (prop_get (props oj) (show_nat i)); [done|]. simpl.
  destruct (oslot oj); try done. rewrite decide_False; [done|].
  by apply show_nat_not_name.
Qed.

(** X15: [parse] of an array into an array replaces the elements: the
    instance ends with the elements of the given array at the indices
    [0 .. length - 1] (a hole becomes [undefined]), by reference and without
    a copy, ahead of its own named properties, which stay in their order and
    take the value of the given array where it owns the name too; the given
    array and every other object are unchanged. *)
Theorem parse_replaces_elements (h : heap) (l lj : loc) (o oj : obj) (c : ctor) :
  h !! l = Some o → h !! lj = Some oj → l ≠ lj →
  oslot o = SArray → oslot oj = SArray →
  proto o = Some c → cbrand c = BArray → instanceof oj BArray = true →
  has_own (props o) "push" = false → has_own (props o) "hasOwnProperty" = false →
  has_own (props oj) "hasOwnProperty" = false →
  "length" ∉ (props o).*1 → NoDup (props o).*1 →
  parse (inr (VRef l)) (Given (VRef lj)) h
  = Ok (VRef l,
        <[l := with_props
                 (λ ps, indexed (array_elements (props oj))
                        ++ merge_props oj (filter (λ kv, array_index kv.1 = None) ps)) o]> h).
Proof.
  intros Ho Hoj Hne Hs Hsj Hp Hc Hinst Hpush Hhas Hhasj Hlen Hnd.
  pose proof (lookup_lt_Some _ _ _ Ho) as Hl.
  unfold parse. simpl. rewrite Ho, Hoj, Hs, Hsj. simpl.
  unfold heap_update. rewrite Ho. simpl.
  rewrite list_lookup_insert_ne, Hoj, Hinst by done.
  destruct o as [p s ps]. simpl in *. subst p s.
  unfold clear_elements, with_props. simpl.
  set (names := filter (λ kv, array_index kv.1 = None) ps).
  assert (names.*1 ⊆ ps.*1) as Hsub.
  { intros k ([k0 x] & -> & Hin)%list_elem_of_fmap.
    apply list_elem_of_filter in Hin as [_ Hin]. apply list_elem_of_fmap. by exists (k0, x). }
  assert (Forall (λ k, array_index k = None) names.*1) as Hnames.
  { apply Forall_fmap, Forall_forall. intros kv Hin.
    by apply list_elem_of_filter in Hin as [Hin _]. }
  rewrite (push_all_indexed l c SArray names [] (array_elements (props oj))); [| | | |done|].
  - simpl. rewrite list_lookup_insert_eq by (by rewrite length_insert).
    set (elems := array_elements (props oj)).
    rewrite (parse_assign_merge l lj oj (Some c) SArray (indexed elems ++ names) []).
    + simpl. rewrite !list_insert_insert_eq.
      pose proof (merge_props_elements oj) as Helems. fold elems in Helems.
      unfold merge_props in *. by rewrite fmap_app, Helems.
    + done.
    + by eexists.
    + done.
    + unfold instanceof in Hinst. destruct (proto oj); [by eexists|done].
    + simpl. apply list_lookup_insert_eq. by rewrite length_insert.
    + by rewrite !list_lookup_insert_ne.
    + simpl. rewrite fmap_app, indexed_keys. apply NoDup_app. split_and!.
      * apply NoDup_fmap_2_strong; [|apply NoDup_seq].
        intros i j _ _. apply show_nat_inj.
      * intros k (i & -> & Hi%elem_of_seq)%list_elem_of_fmap Hin.
        rewrite Forall_forall in Hnames. specialize (Hnames _ Hin).
        rewrite array_index_show_nat in Hnames; [done|].
        unfold elems, array_elements in Hi. rewrite length_fmap, length_seq in Hi.
        pose proof (array_length_bound (props oj)). lia.
      * apply (sublist_NoDup _ ps.*1); [exact Hnd | apply fmap_sublist, sublist_filter].
    + simpl. rewrite fmap_app, indexed_keys, elem_of_app. intros [Hin|Hin%Hsub].
      * apply list_elem_of_fmap in Hin as (i & Hi & _).
        by apply (show_nat_not_name i "hasOwnProperty").
      * by apply has_own_false in Hhas.
  - apply list_lookup_insert_eq. done.
  - done.
  - intros Hin%Hsub. by apply has_own_false in Hpush.
  - simpl. unfold array_elements. rewrite length_fmap, length_seq, N2Nat.id.
    apply array_length_bound.
Qed.


(** ** Own properties that the copy inherits *)

Lemma copy_props_flat (rec : value → copy_table → heap → outcome (value * copy_table * heap))
    (instance : obj) (c : ctor) (s : slot) (cl : loc)
    (ps dps : list (string * value)) (seen : copy_table) (H : heap) :
  proto instance = Some c → has_own (props instance) "hasOwnProperty" = false →
  (∀ kv, kv ∈ ps → kv.1 ∈ (props instance).*1) →
  H !! cl = Some (Obj (Some c) s dps) →
  Forall (λ v, isObject v = false) ps.*2 →
  NoDup (dps.*1 ++ ps.*1) → canonical_keys (dps.*1 ++ ps.*1) = true →
  copy_props rec instance cl ps seen H
  = Ok (seen,
        <[cl := Obj (Some c) s
                  (dps ++ filter (λ kv, inherited (Obj (Some c) s []) kv.1 = false) ps)]> H).
Proof.
  intros Hproto Hhas. revert dps H.
  induction ps as [|[key x] r IH]; intros dps H Hsub Hcopy Hflat Hnd Hcan.
  - simpl. rewrite app_nil_r. by rewrite list_insert_id.
  - csimpl in *. apply Forall_cons in Hflat as [Hx Hflat].
    unfold hasOwnProperty. rewrite Hhas, Hproto. simpl.
    assert (has_own (props instance) key = true) as ->.
    { apply has_own_true. apply (Hsub (key, x)). left. }
    rewrite Hcopy.
    assert (key ∉ dps.*1) as Hkey.
    { apply NoDup_app in Hnd as (_ & Hnd & _). intros Hin. apply (Hnd _ Hin). left. }
    assert (defined_on (Obj (Some c) s dps) key = inherited (Obj (Some c) s []) key) as ->.
    { unfold defined_on. simpl. apply prop_get_None in Hkey. by rewrite Hkey. }
    assert (dps.*1 ++ r.*1 `sublist_of` dps.*1 ++ key :: r.*1) as Hsl.
    { apply sublist_app; [done | by apply sublist_cons]. }
    destruct (inherited (Obj (Some c) s []) key) eqn:Hinh.
    + rewrite filter_cons_False by (simpl; congruence).
      apply IH; try done.
      * intros kv Hkv. apply Hsub. by right.
      * by eapply sublist_NoDup.
      * by eapply canonical_keys_sublist.
    + rewrite filter_cons_True by done.
      unfold copy_child. rewrite Hx. simpl. unfold heap_update. rewrite Hcopy. simpl.
      unfold with_props. simpl.
      rewrite prop_set_snoc; [|done | by eapply canonical_keys_app_cons].
      rewrite (IH (dps ++ [(key, x)])).
      * by rewrite list_insert_insert_eq, <- app_assoc.
      * intros kv Hkv. apply Hsub. by right.
      * apply list_lookup_insert_eq. by eapply lookup_lt_Some.
      * done.
      * by rewrite fmap_app, <- app_assoc.
      * by rewrite fmap_app, <- app_assoc.
Qed.

(** X16: a copy leaves out what it inherits.  Take an instance of a class
    that extends none of Array, Set, Map and Date (or a plain object) whose
    property values are primitives and that has no own property named
    [constructor].  If it has an own property named [hasOwnProperty], a copy
    of any depth but 0 raises a TypeError.  Otherwise the copy is a new
    object of the same prototype that holds the own properties of the
    instance, in their order and with their values, except those whose name
    is a member of the prototype chain ([toString], [valueOf], a method of
    the class, ...): these are absent from the copy, which therefore reads
    the inherited member instead. *)
Theorem copy_drops_shadowing (h : heap) (l : loc) (o : obj) (c : ctor) (fuel : nat)
    (level : Z) :
  h !! l = Some o → proto o = Some c → oslot o = SNone → cbrand c = BObject →
  has_own (props o) "constructor" = false →
  NoDup (props o).*1 → canonical_keys (props o).*1 = true →
  Forall (λ v, isObject v = false) (props o).*2 → level ≠ 0%Z →
  deepCopy (S fuel) (VRef l) level h
  = if has_own (props o) "hasOwnProperty" then Throw TypeError
    else Ok (VRef (length h),
             h ++ [Obj (Some c) SNone (filter (λ kv, inherited o kv.1 = false) (props o))]).
Proof.
  intros Ho Hproto Hslot Hbrand Hctor Hnd Hcan Hflat Hlevel.
  unfold deepCopy. rewrite copyObject_S. simpl. rewrite Ho.
  rewrite bool_decide_eq_false_2 by done.
  unfold constructor_of. rewrite Hctor, Hproto. simpl.
  unfold instanceof. rewrite Hproto, Hbrand.
  assert (bool_decide (c = Array_ctor) = false) as ->.
  { apply bool_decide_eq_false. intros ->. done. }
  simpl. destruct (has_own (props o) "hasOwnProperty") eqn:Hhas.
  { destruct (props o) as [|[k x] r] eqn:Hps; [done|].
    simpl. unfold hasOwnProperty. by rewrite Hps, Hhas. }
  rewrite (copy_props_flat _ o c SNone (length h) (props o) []); try done.
  - simpl. rewrite alloc_insert.
    assert (∀ k, inherited (Obj (Some c) SNone []) k = inherited o k) as Hsame.
    { intros k. unfold inherited. simpl. by rewrite Hslot, Hproto. }
    do 5 f_equal. apply list_filter_iff. intros kv. by rewrite Hsame.
  - intros kv Hkv. apply list_elem_of_fmap. by exists kv.
  - apply alloc_lookup.
Qed.


(** ** [parse] of a text *)

(** a member of a parsed object that is no object itself *)
Definition text_value (j : json) : value := default VUndef (json_prim (Some j)).

(** the object [JSON.parse] builds for an object whose members hold
    primitives *)
Definition parsed_object (ms : list (string * json)) : obj :=
  Obj (Some Object_ctor) SNone
      (fold_left (λ acc kv, prop_set acc kv.1 kv.2) (prod_map id text_value <$> ms) []).

Lemma reify_flat_object (ms : list (string * json)) (h : heap) :
  Forall (λ m, json_isObject m.2 = false) ms →
  reify (JObj ms) h = (VRef (length h), h ++ [parsed_object ms]).
Proof.
  intros Hflat. simpl.
  match goal with |- (let '(ps, h0) := ?f ms h in _) = _ => set (fields := f) end.
  assert (fields ms h = (prod_map id text_value <$> ms, h)) as ->; [|done].
  induction Hflat as [|[k x] r Hx Hr IH]; [done|].
  unfold fields. simpl. fold fields. simpl in Hx.
  destruct x; try discriminate Hx; cbn [reify]; by rewrite IH.
Qed.

Lemma prop_get_fold_set {A} (ps acc : list (string * A)) (k : string) :
  NoDup ps.*1 →
  prop_get (fold_left (λ acc kv, prop_set acc kv.1 kv.2) ps acc) k
  = match prop_get ps k with Some v => Some v | None => prop_get acc k end.
Proof.
  revert acc. induction ps as [|[k0 v0] r IH]; intros acc Hnd; csimpl; [done|].
  apply NoDup_cons in Hnd as [Hk0 Hnd]. rewrite IH by done.
  destruct (decide (k0 = k)) as [->|Hne].
  - simpl in Hk0. apply prop_get_None in Hk0. by rewrite Hk0, prop_get_set_eq.
  - by rewrite prop_get_set_ne.
Qed.

Lemma prop_get_prod_map {A B} (f : A → B) (ps : list (string * A)) (k : string) :
  prop_get (prod_map id f <$> ps) k = f <$> prop_get ps k.
Proof.
  induction ps as [|[k0 v0] r IH]; csimpl; [done|]. by destruct (decide (k0 = k)).
Qed.

(** an integer that a number of the program holds exactly, so that the
    numeral denotes it *)
Definition exact_numeral (j : json) : bool :=
  match j with
  | JNum n => (Z.abs n <=? 2 ^ 53)%Z
  | _ => true
  end.

(** X17: [parse] of the text of an object into an existing instance that
    inherits [hasOwnProperty], when the members of the text have distinct
    names and hold primitives (numerals being integers of magnitude at most
    2^53).  If the text has a member named [hasOwnProperty] and the instance
    has an own property, [parse] raises a TypeError.  Otherwise every own
    property of the instance that the text names takes the value given
    there, the other own properties keep theirs, a member the instance does
    not own is ignored, and the instance keeps its prototype and the order
    of its properties; the only other change is the object that
    [JSON.parse] built. *)
Theorem parse_text_object (h : heap) (l : loc) (o : obj) (ms : list (string * json)) :
  h !! l = Some o →
  inherits_hasOwnProperty o = true → NoDup (props o).*1 →
  Forall (λ m, json_isObject m.2 = false) ms →
  Forall (λ m, exact_numeral m.2 = true) ms →
  NoDup ms.*1 →
  parse (inr (VRef l)) (Text (JObj ms)) h
  = if bool_decide ("hasOwnProperty" ∈ ms.*1) && negb (bool_decide (props o = []))
    then Throw TypeError
    else Ok (VRef l,
             <[l := with_props
                      (fmap (λ kv, (kv.1, default kv.2 (text_value <$> prop_get ms kv.1))))
                      o]> h
             ++ [parsed_object ms]).
Proof.
  intros Ho Hinh Hnd Hflat _ Hndj.
  pose proof (lookup_lt_Some _ _ _ Ho) as Hl.
  assert (∀ k, own_get (parsed_object ms) k = text_value <$> prop_get ms k) as Hown.
  { intros k. unfold own_get, parsed_object. simpl.
    rewrite prop_get_fold_set.
    - rewrite prop_get_prod_map. simpl. by destruct (prop_get ms k).
    - rewrite <- list_fmap_compose. by erewrite list_fmap_ext. }
  assert (has_own (props (parsed_object ms)) "hasOwnProperty"
          = bool_decide ("hasOwnProperty" ∈ ms.*1)) as Hhasj.
  { pose proof (Hown "hasOwnProperty") as Hh. unfold own_get in Hh. simpl in Hh.
    unfold has_own. simpl. apply bool_decide_ext. rewrite <- prop_get_is_Some.
    destruct (prop_get (fold_left _ _ _) "hasOwnProperty") as [v|];
      destruct (prop_get ms "hasOwnProperty"); done. }
  unfold parse. cbv beta iota. rewrite reify_flat_object by done. simpl.
  set (oj := parsed_object ms).
  assert ((h ++ [oj]) !! l = Some o) as Ho1 by (by rewrite lookup_app_l).
  rewrite Ho1, alloc_lookup. simpl. rewrite andb_false_r. simpl. rewrite Ho1.
  destruct (bool_decide ("hasOwnProperty" ∈ ms.*1)) eqn:Hin; simpl.
  - destruct (props o) as [|[k x] r] eqn:Hps.
    + simpl. do 3 f_equal. rewrite list_insert_id; [done|]. rewrite Ho. f_equal.
      destruct o. unfold with_props. simpl in *. by rewrite Hps.
    + rewrite bool_decide_eq_false_2 by done.
      change (((k, x) :: r).*1) with (k :: r.*1).
      rewrite (parse_assign_throws l (length h) o oj k r.*1); try done.
      * apply has_own_true. rewrite Hps. left.
      * apply alloc_lookup.
      * unfold inherits_hasOwnProperty, oj. by rewrite Hhasj.
  - assert (negb (bool_decide (props o = [])) && false = false) as Hf by apply andb_false_r.
    unfold inherits_hasOwnProperty in Hinh.
    apply andb_true_iff in Hinh as [Hhas%negb_true_iff Hp%bool_decide_eq_true].
    destruct o as [p s ps]. simpl in *.
    rewrite (parse_assign_merge l (length h) oj p s ps []); try done.
    + simpl. rewrite insert_app_l by done. do 4 f_equal.
      unfold with_props, merge_props. simpl. f_equal.
      apply list_fmap_ext. intros ? kv _. by rewrite Hown.
    + lia.
    + apply alloc_lookup.
    + by apply has_own_false.
Qed.

End model.

(** * Concrete runs *)

Abbreviation plain ps := (Obj iso_time (Some Object_ctor) (SNone iso_time) ps).

(** a user class registered next to the built-in kinds *)
Definition Point_ctor : ctor := Ctor "Point" BObject ["norm"] false.

Definition point_classMap : classMap := builtin_classMap ++ [("Point", Point_ctor)].

(** C3, counterexample: [deepCopy({x: 1}, 0)] is the object itself; no new
    shell exists afterwards. *)
Lemma copy_level0_counterexample :
  let h := [plain [("x", VNum 1)]] in
  deepCopy iso_time 5 (VRef 0) 0 h = Ok (VRef 0, h)
  ∧ ¬ ∃ l' h', deepCopy iso_time 5 (VRef 0) 0 h = Ok (VRef l', h') ∧ l' ≠ 0.
Proof.
  split; [reflexivity|]. intros (l' & h' & E & Hne). vm_compute in E. congruence.
Qed.

(** C10, witness: [Object.create(null)] *)
Lemma null_prototype_throws_witness :
  let o := Obj iso_time None (SNone iso_time) [] in
  [o] !! 0 = Some o ∧ proto iso_time o = None
  ∧ has_own (props iso_time o) "constructor" = false ∧ (-1)%Z ≠ 0%Z
  ∧ serialize iso_time iso_toISOString builtin_classMap 1 [o] (VRef 0) = Throw TypeError
  ∧ deepCopy iso_time 1 (VRef 0) (-1) [o] = Throw TypeError.
Proof.
  intros o. split_and!; [reflexivity | reflexivity | reflexivity | discriminate | |];
    apply (null_prototype_throws iso_time iso_toISOString builtin_classMap 0 [o] 0 o (-1));
    first [reflexivity | discriminate].
Defined.

(** C2, counterexample: decoding the text [{"__ref": "Set_7"}] returns
    [undefined]; no error is raised. *)
Lemma dangling_reference_counterexample :
  deserialize iso_time iso_newDate builtin_classMap 5 (JObj [("__ref", JStr "Set_7")]) []
  = Ok (VUndef, [])
  ∧ ∀ e, deserialize iso_time iso_newDate builtin_classMap 5
           (JObj [("__ref", JStr "Set_7")]) [] ≠ Throw e.
Proof. split; [reflexivity | intros e; vm_compute; discriminate]. Qed.

(** C2, witness *)
Lemma dangling_reference_is_undefined_witness :
  let j := JObj [("__ref", JStr "Set_7")] in
  json_isObject j = true ∧ truthy (field j "__ref") = true
  ∧ (∀ k, json_prim (field j "__ref") = Some k → map_get [] k = None)
  ∧ deserializeObject iso_time iso_newDate builtin_classMap 1 j [] [] = Ok (VUndef, [], []).
Proof.
  intros j. split_and!; [reflexivity | reflexivity | reflexivity |].
  apply (dangling_reference_is_undefined iso_time iso_newDate builtin_classMap 0 j [] []);
    reflexivity.
Defined.

(** C4, witness: the self-containing map at address 0 *)
Lemma self_map_terminates_witness :
  let h := [self_map iso_time 0] in
  h !! 0 = Some (self_map iso_time 0) ∧ prop_get builtin_classMap "Map" = Some Map_ctor
  ∧ serialize iso_time iso_toISOString builtin_classMap 6 h (VRef 0) = Ok (Some self_map_text)
  ∧ (∀ h', deserialize iso_time iso_newDate builtin_classMap 6 self_map_text h'
           = Ok (VRef (length h'), h' ++ [self_map iso_time (length h')]))
  ∧ deepCopy iso_time 6 (VRef 0) (-1) h
    = Ok (VRef (length h), h ++ [self_map iso_time (length h)]).
Proof.
  intros h. split; [reflexivity|]. split; [reflexivity|].
  apply (self_map_terminates iso_time iso_toISOString iso_newDate builtin_classMap h 0 0);
    reflexivity.
Defined.

(** the instance [p] of Scenario B: a Point whose [a] and [b] are one Set *)
Definition shared_set_heap : list (obj iso_time) :=
  [ Obj iso_time (Some Point_ctor) (SNone iso_time) [("a", VRef 1); ("b", VRef 1)];
    Obj iso_time (Some Set_ctor) (SSet iso_time [VNum 1; VNum 2]) [] ].



(** C6, counterexample: the plain record [{a: new Set([1])}] is returned as
    it is, and the text is [{"a": {}}]: the Set inside it has no kind tag,
    no id and no payload. *)
Lemma plain_record_counterexample :
  let h := [ plain [("a", VRef 1)];
             Obj iso_time (Some Set_ctor) (SSet iso_time [VNum 1]) [] ] in
  serializeObject iso_time iso_toISOString builtin_classMap 5 h (VRef 0) []
  = Ok (SLive (VRef 0), [(0, "Object_0")])
  ∧ serialize iso_time iso_toISOString builtin_classMap 5 h (VRef 0)
    = Ok (Some (JObj [("a", JObj [])])).
Proof. split; reflexivity. Qed.

(** C6, witness: the Point of Scenario B.  The value of [a] is encoded
    against the table that holds the Point and becomes the node of the Set;
    the value of [b] is encoded against the table that [a] left and becomes
    the back-reference. *)
Lemma payload_encodes_own_properties_witness :
  serializeObject iso_time iso_toISOString point_classMap 5 shared_set_heap (VRef 0) []
  = Ok (SNode [ ("__class", SLive (VStr "Point")); ("__id", SLive (VStr "Point_0"));
                ("a", SNode [ ("__class", SLive (VStr "Set"));
                              ("__id", SLive (VStr "Set_1"));
                              ("values", SList [SLive (VNum 1); SLive (VNum 2)]);
                              ("__set", SLive (VBool true)) ]);
                ("b", SNode [("__ref", SLive (VStr "Set_1"))]) ],
        [(0, "Point_0"); (1, "Set_1")]).
Proof.
  destruct (payload_encodes_own_properties iso_time iso_toISOString
              point_classMap shared_set_heap 4 0
              (Obj iso_time (Some Point_ctor) (SNone iso_time)
                 [("a", VRef 1); ("b", VRef 1)])
              Point_ctor [] eq_refl eq_refl eq_refl) as [H _].
  rewrite H; [reflexivity | by eexists | | reflexivity | reflexivity | | | | reflexivity].
  - intros Hin. repeat (apply elem_of_cons in Hin as [Hin|Hin]; [discriminate|]).
    by apply elem_of_nil in Hin.
  - apply (bool_decide_unpack _). by vm_compute.
  - apply (bool_decide_unpack _). by vm_compute.
  - apply (bool_decide_unpack _). by vm_compute.
Defined.

(** C7, the failing input: the array [[{hasOwnProperty: 1}]].  [serialize]
    writes the record inside it without a type tag, and on this text of its
    own [deserialize] raises a TypeError: the loop of the untagged node
    calls [jsonObject.hasOwnProperty(key)] on the parsed node, whose own
    member of that name is the number 1. *)
Lemma unknown_kind_decode_throws :
  let h := [ Obj iso_time (Some Array_ctor) (SArray iso_time) [("0", VRef 1)];
             plain [("hasOwnProperty", VNum 1)] ] in
  let text := JObj [ ("0", JObj [("hasOwnProperty", JNum 1)]);
                     ("__class", JStr "Array"); ("__id", JStr "Array_0") ] in
  serialize iso_time iso_toISOString builtin_classMap 6 h (VRef 0) = Ok (Some text)
  ∧ deserialize iso_time iso_newDate builtin_classMap 6 text [] = Throw TypeError
  ∧ deserializeObject iso_time iso_newDate builtin_classMap 6
      (JObj [("hasOwnProperty", JNum 1)]) [] []
    = Throw TypeError.
Proof. split_and!; reflexivity. Qed.

(** C8, counterexample: the copy of [{toString: 1}] has no own property:
    the shell inherits a [toString], so the assignment is skipped. *)
Lemma full_copy_counterexample :
  let o := plain [("toString", VNum 1)] in
  deepCopy iso_time 5 (VRef 0) (-1) [o] = Ok (VRef 1, [o; plain []])
  ∧ ¬ copy_of iso_time [(0, VRef 1)] o (plain []).
Proof.
  split; [reflexivity|]. intros (_ & _ & Hprops). inversion Hprops.
Qed.

(** a Point and a Set that refer to each other, the Set twice *)
Definition cyclic_heap : list (obj iso_time) :=
  [ Obj iso_time (Some Point_ctor) (SNone iso_time) [("a", VRef 1); ("b", VRef 1)];
    Obj iso_time (Some Set_ctor) (SSet iso_time [VNum 1; VRef 0]) [] ].

(** C8, witness *)
Lemma full_copy_is_isomorphic_witness :
  copyable iso_time cyclic_heap = true
  ∧ value_valid (length cyclic_heap) (VRef 0) = true
  ∧ (-1 < 0)%Z ∧ length cyclic_heap < 3
  ∧ ∃ v' seen h',
      deepCopy iso_time 3 (VRef 0) (-1) cyclic_heap = Ok (v', h')
      ∧ cyclic_heap `prefix_of` h'
      ∧ renamed seen (VRef 0) v'
      ∧ copy_table_ok iso_time (length cyclic_heap) seen h'
      ∧ ∀ l, l ∈ seen.*1 → copied iso_time seen cyclic_heap h' l.
Proof.
  split; [reflexivity|]. split; [reflexivity|]. split; [lia|]. split; [simpl; lia|].
  destruct (full_copy_is_isomorphic iso_time iso_toISOString iso_newDate
              cyclic_heap (VRef 0) (-1)%Z 3)
    as (v' & seen & h' & _ & E & Hrest); [reflexivity | reflexivity | lia | simpl; lia |].
  by exists v', seen, h'.
Defined.


(** C9, counterexample: the array [[o, o]] where the plain record [o] has
    the own property [__id: "Object_1"], the very id the traversal gives
    [o].  The record is returned unchanged, so its [__id] property is printed
    like any other: the id of the back-reference does occur elsewhere in the
    text, the decoder enters the decoded record under it, and the second
    element of the decoded array is that record, not [undefined]. *)
Lemma unregistered_backref_counterexample :
  let h := [ Obj iso_time (Some Array_ctor) (SArray iso_time)
               [("0", VRef 1); ("1", VRef 1)];
             plain [("__id", VStr "Object_1")] ] in
  let t := JObj [ ("0", JObj [("__id", JStr "Object_1")]);
                  ("1", JObj [("__ref", JStr "Object_1")]);
                  ("__class", JStr "Array"); ("__id", JStr "Array_0") ] in
  serialize iso_time iso_toISOString builtin_classMap 8 h (VRef 0) = Ok (Some t)
  ∧ VStr "Object_1" ∈ json_ids t
  ∧ ∃ h', roundtrip iso_time iso_toISOString iso_newDate builtin_classMap 8 h (VRef 0)
          = Ok (VRef 2, h')
      ∧ props iso_time <$> h' !! 2 = Some [("0", VRef 3); ("1", VRef 3)].
Proof.
  simpl. split; [reflexivity|]. split; [vm_compute; repeat constructor|].
  eexists. split; reflexivity.
Qed.

(** the array [[o, o]] over the plain record [o = {x: 1}] *)
Definition twice_heap : list (obj iso_time) :=
  [ Obj iso_time (Some Array_ctor) (SArray iso_time) [("0", VRef 1); ("1", VRef 1)];
    plain [("x", VNum 1)] ].

Definition twice_text : json :=
  JObj [ ("0", JObj [("x", JNum 1)]);
         ("1", JObj [("__ref", JStr "Object_1")]);
         ("__class", JStr "Array"); ("__id", JStr "Array_0") ].

Lemma unregistered_composite_dangles_witness :
  serialize iso_time iso_toISOString builtin_classMap 8 twice_heap (VRef 0)
  = Ok (Some twice_text)
  ∧ (VStr "Object_1" ∉ json_ids twice_text)
  ∧ ∀ fuel' H v references' H',
      deserializeObject iso_time iso_newDate builtin_classMap fuel'
        (JSON_parse twice_text) [] H = Ok (v, references', H') →
      map_get references' (VStr "Object_1") = None.
Proof.
  split; [reflexivity|].
  epose proof (unregistered_composite_dangles iso_time iso_toISOString iso_newDate
                 builtin_classMap twice_heap 8 (VRef 0) _ _ twice_text 1
                 (plain [("x", VNum 1)]) Object_ctor) as Hthm.
  destruct Hthm as (id & Hget & _ & _ & Hids & Hdec & _).
  - intros o Ho. unfold twice_heap in Ho.
    repeat (apply elem_of_cons in Ho as [->|Ho]; [reflexivity|]).
    by apply elem_of_nil in Ho.
  - reflexivity.
  - reflexivity.
  - reflexivity.
  - reflexivity.
  - reflexivity.
  - simpl. right. left.
  - injection Hget as <-. split; [exact Hids | exact Hdec].
Defined.

(** C1, counterexample (Scenario B): a [Point] instance [p] whose properties
    [a] and [b] hold the same plain record.  With the registry of the
    program [p] comes back as a plain object whose [a] and [b] are two
    different objects; with [Point] registered, [a] is a new object and [b]
    is [undefined]. *)
Lemma shared_record_counterexample :
  let h := [ Obj iso_time (Some Point_ctor) (SNone iso_time)
               [("a", VRef 1); ("b", VRef 1)];
             plain [("x", VNum 1)] ] in
  roundtrip iso_time iso_toISOString iso_newDate builtin_classMap 9 h (VRef 0)
  = Ok (VRef 2, h ++ [ plain [("a", VRef 3); ("b", VRef 4)];
                       plain [("x", VNum 1)]; plain [("x", VNum 1)] ])
  ∧ roundtrip iso_time iso_toISOString iso_newDate point_classMap 9 h (VRef 0)
    = Ok (VRef 2, h ++ [ Obj iso_time (Some Point_ctor) (SNone iso_time)
                           [("a", VRef 3); ("b", VUndef)];
                         plain [("x", VNum 1)] ]).
Proof. split; reflexivity. Qed.

(** C1, witness: the Point and the Set that refer to each other; the two
    properties of the Point that held the Set hold one new Set. *)
Lemma roundtrip_is_isomorphic_witness :
  ∃ v' h',
    roundtrip iso_time iso_toISOString iso_newDate point_classMap 9 cyclic_heap (VRef 0)
    = Ok (v', h')
    ∧ cyclic_heap `prefix_of` h'
    ∧ v' = VRef 2
    ∧ props iso_time <$> h' !! 2 = Some [("a", VRef 3); ("b", VRef 3)].
Proof.
  destruct (roundtrip_is_isomorphic iso_time iso_toISOString iso_newDate
              point_classMap cyclic_heap (VRef 0) 9)
    as (v' & table & h' & E & Hp & _); [reflexivity | reflexivity | reflexivity | simpl; lia |].
  exists v', h'. split; [exact E|]. split; [exact Hp|].
  vm_compute in E. injection E as <- <-. split; reflexivity.
Defined.

(** ** Runs for the further properties *)

Lemma deserialize_preserves_heap_witness :
  ∃ v h',
    deserialize iso_time iso_newDate builtin_classMap 8 twice_text twice_heap = Ok (v, h')
    ∧ twice_heap `prefix_of` h'.
Proof.
  eexists _, _. split; [reflexivity|].
  eapply (deserialize_preserves_heap iso_time iso_newDate builtin_classMap 8 twice_text
            twice_heap). reflexivity.
Defined.

Lemma deepCopy_preserves_heap_witness :
  ∃ v h', deepCopy iso_time 5 (VRef 0) 2 cyclic_heap = Ok (v, h') ∧ cyclic_heap `prefix_of` h'.
Proof.
  eexists _, _. split; [reflexivity|].
  eapply (deepCopy_preserves_heap iso_time 5 (VRef 0) 2 cyclic_heap). reflexivity.
Defined.

Lemma serialize_invalid_date_witness :
  serialize iso_time iso_toISOString builtin_classMap 1
    [Obj iso_time (Some Date_ctor) (SDate iso_time "Invalid Date") []] (VRef 0)
  = Throw RangeError
  ∧ serialize iso_time iso_toISOString builtin_classMap 1
      [Obj iso_time (Some Date_ctor) (SDate iso_time "2020-02-29T12:00:00.000Z")
         [("toISOString", VNum 1)]] (VRef 0)
    = Throw TypeError.
Proof.
  split.
  - apply (serialize_invalid_date iso_time iso_toISOString builtin_classMap 0 _ 0 Date_ctor
             "Invalid Date" []); [reflexivity | reflexivity | reflexivity | by eexists |].
    right. reflexivity.
  - apply (serialize_invalid_date iso_time iso_toISOString builtin_classMap 0 _ 0 Date_ctor
             "2020-02-29T12:00:00.000Z" [("toISOString", VNum 1)]);
      [reflexivity | reflexivity | reflexivity | by eexists |].
    left. reflexivity.
Defined.

Lemma date_roundtrip_witness :
  let d := Obj iso_time (Some Date_ctor) (SDate iso_time "2020-02-29T12:00:00.000Z")
             [("note", VNum 1)] in
  roundtrip iso_time iso_toISOString iso_newDate builtin_classMap 3 [d] (VRef 0)
  = Ok (VRef 1,
        [d; Obj iso_time (Some Date_ctor) (SDate iso_time "2020-02-29T12:00:00.000Z")
              [("__date", VBool true); ("date", VStr "2020-02-29T12:00:00.000Z")]]).
Proof.
  intros d.
  apply (date_roundtrip iso_time iso_toISOString iso_newDate builtin_classMap 0 [d] 0
           "2020-02-29T12:00:00.000Z" "2020-02-29T12:00:00.000Z" [("note", VNum 1)]);
    reflexivity.
Defined.

Lemma serialize_cyclic_unregistered_witness :
  serialize iso_time iso_toISOString builtin_classMap 3
    [plain [("x", VNum 1); ("self", VRef 0)]] (VRef 0)
  = Throw TypeError.
Proof.
  apply (serialize_cyclic_unregistered iso_time iso_toISOString builtin_classMap 0 _ 0
           Object_ctor [("x", VNum 1)] "self" []);
    [reflexivity | reflexivity | reflexivity | discriminate | apply not_elem_of_nil
    | reflexivity | by repeat constructor].
Defined.

Lemma decode_collection_without_payload_witness :
  deserializeObject iso_time iso_newDate builtin_classMap 1
    (JObj [("__class", JStr "Set")]) [] []
  = Throw TypeError.
Proof.
  apply (decode_collection_without_payload iso_time iso_newDate builtin_classMap 0 _ [] []
           Set_ctor "Set"); [reflexivity.. |]. left. split; reflexivity.
Defined.

Lemma getClassName_bound_witness : getClassName ("bound " +:+ "Point") = "Point".
Proof. apply getClassName_bound; [discriminate | reflexivity | reflexivity]. Defined.

Lemma copy_level1_is_shallow_witness :
  let o := Obj iso_time (Some Point_ctor) (SNone iso_time)
             [("me", VRef 0); ("next", VRef 1)] in
  let h := [o; plain []] in
  deepCopy iso_time 2 (VRef 0) 1 h
  = Ok (VRef 2, h ++ [Obj iso_time (Some Point_ctor) (SNone iso_time)
                        [("me", VRef 2); ("next", VRef 1)]]).
Proof.
  intros o h. apply (copy_level1_is_shallow iso_time h 0 o 0); reflexivity.
Defined.

Lemma flat_roundtrip_witness :
  let o := Obj iso_time (Some Point_ctor) (SNone iso_time)
             [("a", VNum 1); ("b", VUndef); ("c", VStr "x")] in
  roundtrip iso_time iso_toISOString iso_newDate point_classMap 3 [o] (VRef 0)
  = Ok (VRef 1, [o; Obj iso_time (Some Point_ctor) (SNone iso_time)
                      [("a", VNum 1); ("c", VStr "x")]]).
Proof.
  intros o.
  apply (flat_roundtrip iso_time iso_toISOString iso_newDate point_classMap 0 [o] 0 o
           Point_ctor);
    [reflexivity | reflexivity | reflexivity | discriminate | discriminate | discriminate
    | reflexivity | reflexivity | | by repeat constructor].
  intros k Hk. simpl in Hk.
  repeat (apply elem_of_cons in Hk as [->|Hk]; [apply (bool_decide_unpack _); by vm_compute|]).
  by apply elem_of_nil in Hk.
Defined.

Definition Tagged_ctor : ctor := Ctor "Tagged" BObject [] true.

Lemma marked_roundtrip_witness :
  let o := Obj iso_time (Some Tagged_ctor) (SNone iso_time) [] in
  roundtrip iso_time iso_toISOString iso_newDate
    (builtin_classMap ++ [("Tagged", Tagged_ctor)]) 3 [o] (VRef 0)
  = Ok (VRef 1, [o; Obj iso_time (Some Tagged_ctor) (SNone iso_time)
                      [("SERIALIZED_CLASS", VBool true)]]).
Proof.
  intros o.
  apply (marked_roundtrip iso_time iso_toISOString iso_newDate
           (builtin_classMap ++ [("Tagged", Tagged_ctor)]) 0 [o] 0 Tagged_ctor);
    [reflexivity | reflexivity | reflexivity | reflexivity | apply not_elem_of_nil].
Defined.

Lemma parse_merges_own_properties_witness :
  let o := plain [("a", VNum 1); ("b", VNum 2)] in
  let oj := plain [("b", VNum 5); ("c", VNum 6)] in
  let bad := plain [("b", VNum 5); ("hasOwnProperty", VNum 1)] in
  parse iso_time (inr (VRef 0)) (Given (VRef 1)) [o; oj]
  = Ok (VRef 0, [plain [("a", VNum 1); ("b", VNum 5)]; oj])
  ∧ parse iso_time (inr (VRef 0)) (Given (VRef 1)) [o; bad] = Throw TypeError.
Proof.
  intros o oj bad. split.
  - apply (parse_merges_own_properties iso_time [o; oj] 0 1 o oj);
      [reflexivity | reflexivity | lia | reflexivity | | reflexivity].
    apply (bool_decide_unpack _). by vm_compute.
  - apply (parse_merges_own_properties iso_time [o; bad] 0 1 o bad);
      [reflexivity | reflexivity | lia | reflexivity | | reflexivity].
    apply (bool_decide_unpack _). by vm_compute.
Defined.

Lemma parse_primitive_json_witness :
  parse iso_time (inr (VRef 0)) (Given VNull) [plain [("a", VNum 1)]] = Throw TypeError.
Proof.
  apply (parse_primitive_json iso_time [plain [("a", VNum 1)]] 0 (plain [("a", VNum 1)]) VNull);
    [reflexivity | reflexivity | by eexists | reflexivity | discriminate].
Defined.

Lemma parse_empty_array_witness :
  let a := Obj iso_time (Some Array_ctor) (SArray iso_time)
             [("0", VNum 1); ("1", VNum 2); ("tag", VStr "t")] in
  parse iso_time (inr (VRef 0)) (Text (JArr [])) [a]
  = Ok (VRef 0, [Obj iso_time (Some Array_ctor) (SArray iso_time) [("tag", VStr "t")];
                 Obj iso_time (Some Array_ctor) (SArray iso_time) []]).
Proof.
  intros a.
  apply (parse_empty_array iso_time [a] 0 a);
    [reflexivity | reflexivity | reflexivity | by eexists |].
  apply (bool_decide_unpack _). by vm_compute.
Defined.

Lemma parse_replaces_elements_witness :
  let a := Obj iso_time (Some Array_ctor) (SArray iso_time)
             [("0", VNum 9); ("tag", VStr "t")] in
  let b := Obj iso_time (Some Array_ctor) (SArray iso_time)
             [("0", VNum 1); ("2", VRef 1)] in
  parse iso_time (inr (VRef 0)) (Given (VRef 1)) [a; b]
  = Ok (VRef 0,
        [Obj iso_time (Some Array_ctor) (SArray iso_time)
           [("0", VNum 1); ("1", VUndef); ("2", VRef 1); ("tag", VStr "t")]; b]).
Proof.
  intros a b.
  apply (parse_replaces_elements iso_time [a; b] 0 1 a b Array_ctor);
    [reflexivity | reflexivity | lia | reflexivity | reflexivity | reflexivity | reflexivity
    | reflexivity | reflexivity | reflexivity | reflexivity | | ];
    apply (bool_decide_unpack _); by vm_compute.
Defined.

Lemma copy_drops_shadowing_witness :
  let o := Obj iso_time (Some Point_ctor) (SNone iso_time)
             [("x", VNum 1); ("norm", VNum 2); ("toString", VStr "s"); ("y", VUndef)] in
  let bad := Obj iso_time (Some Point_ctor) (SNone iso_time)
               [("x", VNum 1); ("hasOwnProperty", VNum 2)] in
  deepCopy iso_time 1 (VRef 0) (-1) [o]
  = Ok (VRef 1, [o; Obj iso_time (Some Point_ctor) (SNone iso_time)
                      [("x", VNum 1); ("y", VUndef)]])
  ∧ deepCopy iso_time 1 (VRef 0) (-1) [bad] = Throw TypeError.
Proof.
  intros o bad. split.
  - apply (copy_drops_shadowing iso_time [o] 0 o Point_ctor 0 (-1));
      [reflexivity | reflexivity | reflexivity | reflexivity | reflexivity
      | apply (bool_decide_unpack _); by vm_compute | reflexivity | by repeat constructor
      | lia].
  - apply (copy_drops_shadowing iso_time [bad] 0 bad Point_ctor 0 (-1));
      [reflexivity | reflexivity | reflexivity | reflexivity | reflexivity
      | apply (bool_decide_unpack _); by vm_compute | reflexivity | by repeat constructor
      | lia].
Defined.

Lemma parse_text_object_witness :
  let o := Obj iso_time (Some Point_ctor) (SNone iso_time) [("a", VNum 1); ("b", VNum 2)] in
  parse iso_time (inr (VRef 0)) (Text (JObj [("b", JNum 5); ("c", JStr "z")])) [o]
  = Ok (VRef 0,
        [Obj iso_time (Some Point_ctor) (SNone iso_time) [("a", VNum 1); ("b", VNum 5)];
         plain [("b", VNum 5); ("c", VStr "z")]])
  ∧ parse iso_time (inr (VRef 0))
      (Text (JObj [("b", JNum 5); ("hasOwnProperty", JNum 1)])) [o]
    = Throw TypeError.
Proof.
  intros o. split.
  - apply (parse_text_object iso_time [o] 0 o [("b", JNum 5); ("c", JStr "z")]);
      [reflexivity | reflexivity | apply (bool_decide_unpack _); by vm_compute
      | by repeat constructor | by repeat constructor
      | apply (bool_decide_unpack _); by vm_compute].
  - apply (parse_text_object iso_time [o] 0 o [("b", JNum 5); ("hasOwnProperty", JNum 1)]);
      [reflexivity | reflexivity | apply (bool_decide_unpack _); by vm_compute
      | by repeat constructor | by repeat constructor
      | apply (bool_decide_unpack _); by vm_compute].
Defined.
